(** * Conversation store, tool-call driver and transcript cursor of the
      meeting agent

    This development embeds the orchestration core of the meeting-bot
    clients: the class [MeetingAgent] (message validation, clean-up of
    orphaned tool messages, history truncation, the transcript poll with
    its tool-call cycle) and the polling loop of the debounced client
    (count-based cursor and debounce timer).

    Conventions of the embedding.
    - A JavaScript object has an identity; [Array.prototype.indexOf]
      compares by identity.  A message therefore carries the field [oid],
      the address of the object; it is not a property of the JavaScript
      object.  Messages are never mutated after creation.
    - [undefined] / [null] are [None].
    - Numbers that hold times are compared and maximised only, so they are
      integers here (the unit is the resolution of the clock).
    - A string is held as its UTF-8 encoding, one [ascii] per byte (the
      reading Rocq gives to a string literal).  The program only tests
      strings for emptiness, concatenates them, searches them for an ASCII
      text and trims them, which read the same on the encoding.
    - The agent's polling callback is embedded twice.  The monad [M] of
      module [Agent] runs one callback from start to finish, every [await]
      answered on the spot: this is the callback when no other callback
      runs in between.  Module [EventLoop] cuts the same callback at its
      [await]s and lets the callbacks in flight take turns on the shared
      log, as [setInterval] does when a cycle outlasts the polling period.
      The debounced client is taken one event at a time (its polling
      callback has a single [await], before it touches any variable). *)

From Stdlib Require Import String Ascii.
From Stdlib Require Import List ZArith Lia Bool Arith PeanoNat.
Import ListNotations.

(** ** Data model (the messages of [MeetingAgent]) *)

Module Agent.

Inductive Role := system | user | assistant | tool.

Definition Role_eqb (a b : Role) : bool :=
  match a, b with
  | system, system | user, user | assistant, assistant | tool, tool => true
  | _, _ => false
  end.

(** One entry of [message.tool_calls]: [{id, function: {name, arguments}}].
    The field [id] is called [call_id] here. *)
Record ToolCall := {
  call_id : string;
  function_name : string;
  function_arguments : string
}.

Record Message := {
  oid : nat;
  role : Role;
  content : option string;
  tool_calls : option (list ToolCall);
  tool_call_id : option string
}.

Definition is_tool (m : Message) : bool := Role_eqb (role m) tool.
Definition is_user (m : Message) : bool := Role_eqb (role m) user.

(** [call.id === message.tool_call_id]: a string never equals [undefined]. *)
Definition same_id (callId : string) (toolCallId : option string) : bool :=
  match toolCallId with
  | Some t => String.eqb callId t
  | None => false
  end.

(** [prevMessage.role === "assistant" && prevMessage.tool_calls] followed by
    [prevMessage.tool_calls.find(call => call.id === message.tool_call_id)]. *)
Definition matchingCall (prevMessage message : Message) : option ToolCall :=
  match role prevMessage, tool_calls prevMessage with
  | assistant, Some calls =>
      find (fun call => same_id (call_id call) (tool_call_id message)) calls
  | _, _ => None
  end.

Definition truthy {A} (o : option A) : bool :=
  match o with Some _ => true | None => false end.

(** *** [validateMessages] *)

(** The inner loop [for (let j = i - 1; j >= 0; j--)]; the argument [i] is
    one more than the next index to inspect.  Indices stay below
    [messages.length], so the [None] branch is never taken. *)
Fixpoint foundToolCall (messages : list Message) (message : Message) (i : nat)
  : bool :=
  match i with
  | 0 => false
  | S j =>
      match nth_error messages j with
      | None => false
      | Some prevMessage =>
          if truthy (matchingCall prevMessage message) then true
          else if is_user prevMessage then false
          else foundToolCall messages message j
      end
  end.

Definition validateMessages (messages : list Message) : bool :=
  forallb
    (fun i =>
       match nth_error messages i with
       | Some message =>
           if is_tool message then foundToolCall messages message i else true
       | None => true
       end)
    (seq 0 (length messages)).

(** *** The clean-up branch of [makeOpenAIRequest] *)

(** [this.messages.indexOf(msg)]: first index holding the same object,
    [-1] when there is none. *)
Fixpoint indexOf_from (messages : list Message) (msg : Message) (i : Z) : Z :=
  match messages with
  | [] => (-1)%Z
  | m :: rest =>
      if Nat.eqb (oid m) (oid msg) then i
      else indexOf_from rest msg (i + 1)%Z
  end.

Definition indexOf (messages : list Message) (msg : Message) : Z :=
  indexOf_from messages msg 0%Z.

(** The loop [for (let i = messageIndex - 1; i >= 0; i--)] of the filter
    callback, with the same convention on [i] as [foundToolCall]. *)
Fixpoint hasPrecedingToolCall (messages : list Message) (msg : Message)
  (i : nat) : bool :=
  match i with
  | 0 => false
  | S j =>
      match nth_error messages j with
      | None => false
      | Some prevMessage =>
          if truthy (matchingCall prevMessage msg) then true
          else if is_user prevMessage then false
          else hasPrecedingToolCall messages msg j
      end
  end.

(** The filter callback; [messages] is the array being filtered. *)
Definition keepMessage (messages : list Message) (msg : Message) : bool :=
  if is_tool msg then
    let messageIndex := indexOf messages msg in
    hasPrecedingToolCall messages msg (Z.to_nat messageIndex)
  else true.

Definition repairMessages (messages : list Message) : list Message :=
  if validateMessages messages then messages
  else filter (keepMessage messages) messages.

(** *** [truncateMessages] *)

(** [prevMessage.tool_calls && prevMessage.tool_calls.length > 0] *)
Definition has_tool_calls (m : Message) : bool :=
  match tool_calls m with
  | Some (_ :: _) => true
  | _ => false
  end.

(** The loop [while (truncateIndex > 0 && truncateIndex < messagesToKeep.length)]. *)
Fixpoint safeTruncateIndex (messagesToKeep : list Message) (truncateIndex : nat)
  : nat :=
  match truncateIndex with
  | 0 => 0
  | S prev =>
      if truncateIndex <? length messagesToKeep then
        match nth_error messagesToKeep truncateIndex,
              nth_error messagesToKeep prev with
        | Some messageAtIndex, Some prevMessage =>
            if is_tool messageAtIndex || has_tool_calls prevMessage
            then safeTruncateIndex messagesToKeep prev
            else truncateIndex
        | _, _ => truncateIndex
        end
      else truncateIndex
  end.

Definition truncateMessages (messages : list Message) : list Message :=
  if length messages <=? 15 then messages
  else
    match messages with
    | [] => []
    | systemMessage :: messagesToKeep =>
        let truncateIndex :=
          safeTruncateIndex messagesToKeep (length messagesToKeep - 14) in
        systemMessage :: skipn truncateIndex messagesToKeep
    end.


(** ** Transcript segments and the user turn built from them *)

Record TranscriptSegment := {
  text : string;
  start : Z;
  end_ : Z;
  speaker : option string
}.

(** [isWhiteSpace encoded]: [encoded] is the UTF-8 encoding of one code
    point that [String.prototype.trim] removes, that is, of a WhiteSpace
    or LineTerminator code point of ECMAScript: U+0009 to U+000D, U+0020,
    U+00A0, U+1680, U+2000 to U+200A, U+2028, U+2029, U+202F, U+205F,
    U+3000 and U+FEFF. *)
Definition isWhiteSpace (encoded : list ascii) : bool :=
  match map N_of_ascii encoded with
  | [a] => ((9 <=? a) && (a <=? 13) || (a =? 32))%N
  | [a; b] => ((a =? 194) && (b =? 160))%N
  | [a; b; c] =>
      ((a =? 225) && (b =? 154) && (c =? 128) ||
       (a =? 226) && (b =? 128) &&
         ((128 <=? c) && (c <=? 138) || (c =? 168) || (c =? 169) ||
          (c =? 175)) ||
       (a =? 226) && (b =? 129) && (c =? 159) ||
       (a =? 227) && (b =? 128) && (c =? 128) ||
       (a =? 239) && (b =? 187) && (c =? 191))%N
  | _ => false
  end.

(** White space removed from the front. *)
Fixpoint dropWhiteSpace (l : list ascii) : list ascii :=
  match l with
  | [] => []
  | a :: l1 =>
      if isWhiteSpace [a] then dropWhiteSpace l1
      else
        match l1 with
        | [] => l
        | b :: l2 =>
            if isWhiteSpace [a; b] then dropWhiteSpace l2
            else
              match l2 with
              | [] => l
              | c :: l3 =>
                  if isWhiteSpace [a; b; c] then dropWhiteSpace l3 else l
              end
        end
  end.

(** White space removed from the end, on the reversed text. *)
Fixpoint dropWhiteSpaceEnd (reversed : list ascii) : list ascii :=
  match reversed with
  | [] => []
  | c :: r1 =>
      if isWhiteSpace [c] then dropWhiteSpaceEnd r1
      else
        match r1 with
        | [] => reversed
        | b :: r2 =>
            if isWhiteSpace [b; c] then dropWhiteSpaceEnd r2
            else
              match r2 with
              | [] => reversed
              | a :: r3 =>
                  if isWhiteSpace [a; b; c] then dropWhiteSpaceEnd r3
                  else reversed
              end
        end
  end.

Definition trim (s : string) : string :=
  string_of_list_ascii
    (rev (dropWhiteSpaceEnd (rev (dropWhiteSpace (list_ascii_of_string s))))).

(** The filter callback
    [seg.end > this.lastProcessedTime && seg.text.trim().length > 0]. *)
Definition isNewSegment (lastProcessedTime : Z) (seg : TranscriptSegment)
  : bool :=
  (lastProcessedTime <? end_ seg)%Z && (0 <? String.length (trim (text seg))).

(** [Math.max(x, ...xs)] on a non-empty argument list. *)
Definition Math_max (x : Z) (xs : list Z) : Z := fold_left Z.max xs x.

Definition newline : string := String "010"%char EmptyString.

(** [`${seg.speaker || "Unknown"}: ${seg.text}`]; the empty string is falsy. *)
Definition formatSegment (seg : TranscriptSegment) : string :=
  let name :=
    match speaker seg with
    | Some (String c r) => String c r
    | _ => "Unknown"%string
    end in
  (name ++ ": " ++ text seg)%string.

Definition transcriptText (newSegments : list TranscriptSegment) : string :=
  String.concat newline (map formatSegment newSegments).

(** ** The external collaborators of the agent *)

(** A thrown value: [error instanceof Error] and [error.message]. *)
Record Exception := {
  instanceof_Error : bool;
  error_message : option string
}.

(** [response.choices[k].message] of a chat completion. *)
Record ChatMessage := {
  message_content : option string;
  message_tool_calls : option (list ToolCall)
}.

(** The model endpoint, the tool gateway and [JSON.parse] as seen by the
    agent.  [World] is whatever state the outside keeps between calls;
    a call either throws ([inl]) or returns ([inr]).  [stringifyContent r]
    is [JSON.stringify(r.content || "Tool executed successfully")]. *)
Class Environment := {
  World : Type;
  JSON : Type;
  ToolResult : Type;
  JSON_parse : string -> Exception + JSON;
  chat_completions_create :
    World -> list Message -> World * (Exception + list ChatMessage);
  mcp_callTool : World -> string -> JSON -> World * (Exception + ToolResult);
  stringifyContent : ToolResult -> string
}.

Section AgentProgram.
Context {E : Environment}.

(** What the agent did to the outside, in order (ghost state). *)
Inductive Event :=
| ModelCall (sent : list Message) (result : Exception + list ChatMessage)
| ToolAttempt (call : ToolCall) (outcome : Exception + ToolResult).

Record State := {
  lastProcessedTime : Z;
  messages : list Message;
  next_oid : nat;
  world : World;
  trace : list Event
}.

(** Computations of the agent: they change the state and either throw or
    return.  What was done before a throw stays done. *)
Definition M (A : Type) : Type := State -> State * (Exception + A).

Definition ret {A} (a : A) : M A := fun st => (st, inr a).

Definition bind {A B} (m : M A) (k : A -> M B) : M B :=
  fun st =>
    match m st with
    | (st', inr a) => k a st'
    | (st', inl e) => (st', inl e)
    end.

Definition throw {A} (e : Exception) : M A := fun st => (st, inl e).

Definition try_catch {A} (body : M A) (handler : Exception -> M A) : M A :=
  fun st =>
    match body st with
    | (st', inr a) => (st', inr a)
    | (st', inl e) => handler e st'
    end.

Definition get : M State := fun st => (st, inr st).

Definition set_messages (f : list Message -> list Message) : M unit :=
  fun st =>
    ({| lastProcessedTime := lastProcessedTime st;
        messages := f (messages st);
        next_oid := next_oid st;
        world := world st;
        trace := trace st |}, inr tt).

Definition set_lastProcessedTime (t : Z) : M unit :=
  fun st =>
    ({| lastProcessedTime := t;
        messages := messages st;
        next_oid := next_oid st;
        world := world st;
        trace := trace st |}, inr tt).

(** [this.messages.push(obj)] for a newly created object [obj]. *)
Definition push (mk : nat -> Message) : M unit :=
  fun st =>
    ({| lastProcessedTime := lastProcessedTime st;
        messages := messages st ++ [mk (next_oid st)];
        next_oid := S (next_oid st);
        world := world st;
        trace := trace st |}, inr tt).

End AgentProgram.

Declare Scope agent_scope.
Delimit Scope agent_scope with agent.
Notation "x <- m ;; k" := (bind m (fun x => k))
  (at level 61, m at next level, right associativity) : agent_scope.
Notation "m ;; k" := (bind m (fun _ => k))
  (at level 61, right associativity) : agent_scope.

Section AgentCycle.
Context {E : Environment}.
Open Scope agent_scope.

Definition userMessage (c : string) (o : nat) : Message :=
  {| oid := o; role := user; content := Some c;
     tool_calls := None; tool_call_id := None |}.

Definition assistantMessage (m : ChatMessage) (o : nat) : Message :=
  {| oid := o; role := assistant; content := message_content m;
     tool_calls := message_tool_calls m; tool_call_id := None |}.

Definition toolMessage (callId : string) (c : string) (o : nat) : Message :=
  {| oid := o; role := tool; content := Some c;
     tool_calls := None; tool_call_id := Some callId |}.

Definition dquote : string := String "034"%char EmptyString.

(** [JSON.stringify({ error: "Tool execution failed" })] *)
Definition errorPayload : string :=
  ("{" ++ dquote ++ "error" ++ dquote ++ ":" ++
   dquote ++ "Tool execution failed" ++ dquote ++ "}")%string.

(** [this.openai.chat.completions.create({messages: this.messages, ...})] *)
Definition createCompletion : M (list ChatMessage) :=
  fun st =>
    let '(w, r) := chat_completions_create (world st) (messages st) in
    ({| lastProcessedTime := lastProcessedTime st;
        messages := messages st;
        next_oid := next_oid st;
        world := w;
        trace := trace st ++ [ModelCall (messages st) r] |}, r).

Definition makeOpenAIRequest : M (list ChatMessage) :=
  set_messages repairMessages ;;
  createCompletion.

(** [response.choices[0].message]; reading [message] of [undefined] is a
    [TypeError]. *)
Definition firstChoice (choices : list ChatMessage) : M ChatMessage :=
  match choices with
  | message :: _ => ret message
  | [] =>
      throw {| instanceof_Error := true;
               error_message :=
                 Some "Cannot read properties of undefined (reading 'message')"%string |}
  end.

(** [this.mcp.callTool({name: toolCall.function.name,
    arguments: JSON.parse(toolCall.function.arguments)})] against the
    outside in state [w]: the arguments are parsed first; either step may
    throw. *)
Definition invokeTool (w : World) (toolCall : ToolCall)
  : World * (Exception + ToolResult) :=
  match JSON_parse (function_arguments toolCall) with
  | inl e => (w, inl e)
  | inr args => mcp_callTool w (function_name toolCall) args
  end.

Definition callTool (toolCall : ToolCall) : M ToolResult :=
  fun st =>
    let '(w, outcome) := invokeTool (world st) toolCall in
    ({| lastProcessedTime := lastProcessedTime st;
        messages := messages st;
        next_oid := next_oid st;
        world := w;
        trace := trace st ++ [ToolAttempt toolCall outcome] |},
     outcome).

(** The body of [for (const toolCall of message.tool_calls)]: the inner
    [try]/[catch].  The loop over the follow-up message has the same body
    (only its log lines differ). *)
Definition executeToolCall (toolCall : ToolCall) : M unit :=
  try_catch
    (result <- callTool toolCall ;;
     push (toolMessage (call_id toolCall) (stringifyContent result)))
    (fun toolError =>
       push (toolMessage (call_id toolCall) errorPayload)).

Fixpoint executeToolCalls (calls : list ToolCall) : M unit :=
  match calls with
  | [] => ret tt
  | toolCall :: rest => executeToolCall toolCall ;; executeToolCalls rest
  end.

(** [haystack.includes(needle)] *)
Fixpoint includes (needle haystack : string) : bool :=
  if String.prefix needle haystack then true
  else
    match haystack with
    | EmptyString => false
    | String _ rest => includes needle rest
    end.

(** [error instanceof Error && error.message?.includes("messages with role 'tool'")] *)
Definition isRoleSequenceError (error : Exception) : bool :=
  instanceof_Error error &&
  match error_message error with
  | Some msg => includes "messages with role 'tool'" msg
  | None => false
  end.

(** [[this.messages[0], this.messages[this.messages.length - 1]]].  The
    array is never empty where this runs (a user message was pushed just
    before the [try]). *)
Definition resetMessages (messages : list Message) : list Message :=
  match messages with
  | [] => []
  | first :: _ => [first; last messages first]
  end.

(** The inner [try] of [processNewSegments]: the follow-up request after
    the first batch of tool calls, with its own [catch]. *)
Definition followUp : M unit :=
  try_catch
    (followUpResponse <- makeOpenAIRequest ;;
     followUpMessage <- firstChoice followUpResponse ;;
     push (assistantMessage followUpMessage) ;;
     match message_tool_calls followUpMessage with
     | Some calls => executeToolCalls calls
     | None => ret tt
     end)
    (fun followUpError => ret tt).

(** The outer [try] of [processNewSegments] with its [catch]. *)
Definition respond : M unit :=
  try_catch
    (response <- makeOpenAIRequest ;;
     message <- firstChoice response ;;
     push (assistantMessage message) ;;
     match message_tool_calls message with
     | Some calls => executeToolCalls calls ;; followUp
     | None => ret tt
     end)
    (fun error =>
       if isRoleSequenceError error then set_messages resetMessages
       else ret tt).

Definition processNewSegments (segments : list TranscriptSegment) : M unit :=
  st <- get ;;
  let newSegments := filter (isNewSegment (lastProcessedTime st)) segments in
  match newSegments with
  | [] => ret tt
  | first :: others =>
      set_lastProcessedTime (Math_max (end_ first) (map end_ others)) ;;
      push (userMessage (transcriptText newSegments)) ;;
      set_messages truncateMessages ;;
      respond
  end.

End AgentCycle.

End Agent.

(** ** The debounced client: count-based cursor and debounce timer *)

Module Client.

Record Segment := {
  text : string;
  start : Z;
  end_ : Z;
  speaker : string;
  role : string
}.

Inductive Role := user | assistant.

Record Message := {
  message_role : Role;
  content : string
}.

(** A pending timer of the JavaScript runtime: the handle [setTimeout]
    returned and the time at which the callback is due. *)
Record Timer := {
  handle : nat;
  due : Z
}.

(** One call of [onDebounceTrigger]: the timer that fired, when it was due,
    and the [messages] handed to [generateText] (ghost state). *)
Record Cycle := {
  fired : nat;
  fired_at : Z;
  sent : list Message
}.

(** The module-level variables [messages], [debounceTimer] and
    [lastSegmentCount], the runtime's timer table, and the model cycles
    started so far. *)
Record State := {
  messages : list Message;
  debounceTimer : option nat;
  lastSegmentCount : nat;
  timers : list Timer;
  next_handle : nat;
  cycles : list Cycle
}.

Definition initial : State :=
  {| messages := []; debounceTimer := None; lastSegmentCount := 0;
     timers := []; next_handle := 0; cycles := [] |}.

(** What the event loop delivers: the transcript read of one poll settles
    (with the parsed segments, or by throwing), or a [generateText] call
    settles. *)
Inductive Event :=
| ReadResolved (segments : list Segment)
| ReadFailed
| GenerateTextResolved (text : string)
| GenerateTextRejected.

Section ClientProgram.
(** [DEBOUNCE_DELAY]: 1000 in one entry script, 2500 in the other. *)
Variable DEBOUNCE_DELAY : Z.

(** [setTimeout(callback, DEBOUNCE_DELAY)] called at time [now]. *)
Definition setTimeout (now : Z) (st : State) : nat * State :=
  (next_handle st,
   {| messages := messages st;
      debounceTimer := debounceTimer st;
      lastSegmentCount := lastSegmentCount st;
      timers := timers st ++ [{| handle := next_handle st;
                                 due := (now + DEBOUNCE_DELAY)%Z |}];
      next_handle := S (next_handle st);
      cycles := cycles st |}).

(** [clearTimeout(h)]: a handle that already fired or was cleared is
    ignored. *)
Definition clearTimeout (h : nat) (st : State) : State :=
  {| messages := messages st;
     debounceTimer := debounceTimer st;
     lastSegmentCount := lastSegmentCount st;
     timers := filter (fun tm => negb (Nat.eqb (handle tm) h)) (timers st);
     next_handle := next_handle st;
     cycles := cycles st |}.

(** [`${seg.speaker}:${seg.text}`] pushed as a user message. *)
Definition segmentMessage (seg : Segment) : Message :=
  {| message_role := user; content := (speaker seg ++ ":" ++ text seg)%string |}.

Definition isDue (now : Z) (tm : Timer) : bool := (due tm <=? now)%Z.

(** The runtime reaching time [now]: every pending timer that is due runs
    its callback [onDebounceTrigger], which starts a model cycle on the
    current [messages], and leaves the timer table. *)
Definition fireDue (now : Z) (st : State) : State :=
  {| messages := messages st;
     debounceTimer := debounceTimer st;
     lastSegmentCount := lastSegmentCount st;
     timers := filter (fun tm => negb (isDue now tm)) (timers st);
     next_handle := next_handle st;
     cycles := cycles st ++
               map (fun tm => {| fired := handle tm; fired_at := due tm;
                                 sent := messages st |})
                   (filter (isDue now) (timers st)) |}.

(** The segments one poll hands on: [segments.slice(lastSegmentCount)] when
    [segments.length > lastSegmentCount], nothing otherwise. *)
Definition newSegments (st : State) (segments : list Segment) : list Segment :=
  if lastSegmentCount st <? length segments
  then skipn (lastSegmentCount st) segments
  else [].

(** The body of the polling callback once the transcript has been read and
    parsed, run at time [now]. *)
Definition onSegments (now : Z) (segments : list Segment) (st : State) : State :=
  if lastSegmentCount st <? length segments then
    let newSegments := skipn (lastSegmentCount st) segments in
    let st1 :=
      {| messages := messages st ++ map segmentMessage newSegments;
         debounceTimer := debounceTimer st;
         lastSegmentCount := lastSegmentCount st;
         timers := timers st;
         next_handle := next_handle st;
         cycles := cycles st |} in
    let st2 :=
      match debounceTimer st1 with
      | Some h => clearTimeout h st1
      | None => st1
      end in
    let '(h, st3) := setTimeout now st2 in
    {| messages := messages st3;
       debounceTimer := Some h;
       lastSegmentCount := length segments;
       timers := timers st3;
       next_handle := next_handle st3;
       cycles := cycles st3 |}
  else st.

(** The continuation of [onDebounceTrigger] after [generateText] returned:
    [messages.push({ role: "assistant", content: text })]. *)
Definition onGenerated (text : string) (st : State) : State :=
  {| messages := messages st ++ [{| message_role := assistant; content := text |}];
     debounceTimer := debounceTimer st;
     lastSegmentCount := lastSegmentCount st;
     timers := timers st;
     next_handle := next_handle st;
     cycles := cycles st |}.

Definition handleEvent (now : Z) (e : Event) (st : State) : State :=
  match e with
  | ReadResolved segments => onSegments now segments st
  | ReadFailed => st
  | GenerateTextResolved text => onGenerated text st
  | GenerateTextRejected => st
  end.

(** One turn of the event loop at time [now]: timers that are due fire
    first, then the event is handled. *)
Definition step (st : State) (te : Z * Event) : State :=
  handleEvent (fst te) (snd te) (fireDue (fst te) st).

Definition run (events : list (Z * Event)) (st : State) : State :=
  fold_left step events st.

End ClientProgram.

End Client.

(** * Specification vocabulary *)

Module StoreSpec.
Import Agent.

(** The turns met when scanning backward over [turns] (most recent first)
    up to the most recent user turn, exclusive. *)
Fixpoint untilUser (turns : list Message) : list Message :=
  match turns with
  | [] => []
  | m :: rest => if is_user m then [] else m :: untilUser rest
  end.

(** The window of position [i]: from [i] backward to the most recent user
    turn (exclusive) or the start of the log. *)
Definition window (log : list Message) (i : nat) : list Message :=
  untilUser (rev (firstn i log)).

(** An assistant turn containing a tool request with id [requestId]. *)
Definition issues (requestId : option string) (m : Message) : bool :=
  Role_eqb (role m) assistant &&
  match tool_calls m with
  | Some calls => existsb (fun call => same_id (call_id call) requestId) calls
  | None => false
  end.

Definition issuers (log : list Message) (i : nat) (requestId : option string)
  : list Message :=
  filter (issues requestId) (window log i).

(** The validity invariant as the data model words it: a tool result is
    orphaned unless its window holds exactly one issuing assistant turn. *)
Definition orphaned_unless_exactly_one (log : list Message) (i : nat) : Prop :=
  exists m, nth_error log i = Some m /\ role m = tool /\
            length (issuers log i (tool_call_id m)) <> 1.

(** The glossary's wording: a tool result with no matching preceding tool
    request in its window. *)
Definition orphaned (log : list Message) (i : nat) : Prop :=
  exists m, nth_error log i = Some m /\ role m = tool /\
            issuers log i (tool_call_id m) = [].

Definition orphanedb (log : list Message) (i : nat) : bool :=
  match nth_error log i with
  | Some m =>
      is_tool m && negb (existsb (issues (tool_call_id m)) (window log i))
  | None => false
  end.

(** The log without the turns at orphaned positions, order kept. *)
Definition without_orphans (log : list Message) : list Message :=
  map snd
    (filter (fun p => negb (orphanedb log (fst p)))
            (combine (seq 0 (length log)) log)).

(** Scanning backward from a tool result over the tool results before it,
    the first other turn is the assistant turn that issued its request. *)
Fixpoint adjacent_issuer (before : list Message) (m : Message) : bool :=
  match before with
  | [] => false
  | p :: rest =>
      if is_tool p then adjacent_issuer rest m
      else issues (tool_call_id m) p
  end.

Fixpoint well_sequenced_from (before rest : list Message) : bool :=
  match rest with
  | [] => true
  | m :: r =>
      (negb (is_tool m) || adjacent_issuer before m) &&
      well_sequenced_from (m :: before) r
  end.

(** The shape the tool-call driver appends: every tool result follows the
    assistant turn that issued its request, with only tool results in
    between. *)
Definition well_sequenced (log : list Message) : bool :=
  well_sequenced_from [] log.

(** The weakest reading of "a tool result is present with the assistant
    turn that issued its request": that turn is somewhere in the log. *)
Definition results_have_issuer (log : list Message) : Prop :=
  forall m, In m log -> role m = tool ->
            exists a, In a log /\ issues (tool_call_id m) a = true.

(** The naive cut of [truncateMessages] (keep the last 14 turns) lands on a
    tool result or right after an assistant turn with tool requests. *)
Definition cut_needs_shift (log : list Message) : bool :=
  match nth_error log (length log - 14), nth_error log (length log - 15) with
  | Some messageAtIndex, Some prevMessage =>
      is_tool messageAtIndex || has_tool_calls prevMessage
  | _, _ => false
  end.

End StoreSpec.

Module DriverSpec.
Import Agent.

Section DriverVocabulary.
Context {E : Environment}.

(** What a tool result turn carries for an outcome of the gateway call:
    the structured error payload on failure, the stringified result
    content on success. *)
Definition resultContent (outcome : Exception + ToolResult) : string :=
  match outcome with
  | inl _ => errorPayload
  | inr result => stringifyContent result
  end.

(** [msg] is the tool result turn for the attempt [ev]. *)
Definition answers (ev : Event) (msg : Message) : Prop :=
  match ev with
  | ToolAttempt call outcome =>
      role msg = tool /\
      tool_call_id msg = Some (call_id call) /\
      content msg = Some (resultContent outcome)
  | ModelCall _ _ => False
  end.

(** The requests of one batch executed in order against the outside, one
    attempt per request, whatever the earlier attempts did. *)
Inductive Attempts : World -> list ToolCall -> list Event -> World -> Prop :=
| Attempts_nil w : Attempts w [] [] w
| Attempts_cons w call calls evs w' :
    Attempts (fst (invokeTool w call)) calls evs w' ->
    Attempts w (call :: calls)
             (ToolAttempt call (snd (invokeTool w call)) :: evs) w'.

Definition isModelCall (ev : Event) : bool :=
  match ev with
  | ModelCall _ _ => true
  | ToolAttempt _ _ => false
  end.

(** The model round-trips among the events of a cycle. *)
Definition modelCalls (evs : list Event) : list Event :=
  filter isModelCall evs.

(** The answer of the last model call of a cycle and the events after it. *)
Fixpoint sinceLastModelCall (evs : list Event)
  : option ((Exception + list ChatMessage) * list Event) :=
  match evs with
  | [] => None
  | ev :: rest =>
      match sinceLastModelCall rest with
      | Some found => Some found
      | None =>
          match ev with
          | ModelCall _ result => Some (result, rest)
          | ToolAttempt _ _ => None
          end
      end
  end.

(** How a cycle stands when it stops, read off its events: no model call
    was made; the last model call failed; its answer requests no tool
    ([Final]); or its answer requests tools and only their execution
    follows ([HasToolRequests]). *)
Inductive CycleEnd :=
| Idle
| Failed
| Final (message : ChatMessage)
| HasToolRequests (message : ChatMessage) (calls : list ToolCall)
                  (executed : list Event).

Definition cycleEnd (evs : list Event) : CycleEnd :=
  match sinceLastModelCall evs with
  | None => Idle
  | Some (inl _, _) => Failed
  | Some (inr [], _) => Failed
  | Some (inr (message :: _), executed) =>
      match message_tool_calls message with
      | None => Final message
      | Some calls => HasToolRequests message calls executed
      end
  end.

End DriverVocabulary.

End DriverSpec.

Module CursorSpec.

Section Transcripts.
Context {A : Type}.



End Transcripts.


Definition isUserMessage (m : Client.Message) : bool :=
  match Client.message_role m with
  | Client.user => true
  | Client.assistant => false
  end.


End CursorSpec.

Module DebounceSpec.
Import Client.

(** The times at which a poll brings new segments, given the number of
    segments already seen. *)
Fixpoint arrivalTimes (count : nat) (events : list (Z * Event)) : list Z :=
  match events with
  | [] => []
  | (t, ReadResolved segments) :: later =>
      if count <? length segments
      then t :: arrivalTimes (length segments) later
      else arrivalTimes count later
  | _ :: later => arrivalTimes count later
  end.

(** Times that never go back, from [lo] on. *)
Fixpoint nondecreasing (lo : Z) (times : list Z) : Prop :=
  match times with
  | [] => True
  | t :: later => (lo <= t)%Z /\ nondecreasing t later
  end.

Definition ordered (times : list Z) : Prop :=
  match times with
  | [] => True
  | t :: later => nondecreasing t later
  end.

(** A rapid burst: each arrival comes less than [delay] after the one
    before. *)
Fixpoint spaced_below (delay : Z) (prev : Z) (times : list Z) : Prop :=
  match times with
  | [] => True
  | t :: later => (t - prev < delay)%Z /\ spaced_below delay t later
  end.

(** The arrivals that close a burst: an arrival belongs to the burst of the
    one before it when it comes less than [delay] after it, and the last
    arrival of each burst is the one after which the delay passes
    undisturbed. *)
Fixpoint burstEnds (delay : Z) (arrivals : list Z) : list Z :=
  match arrivals with
  | [] => []
  | a :: later =>
      match later with
      | [] => [a]
      | b :: _ =>
          if (b - a <? delay)%Z then burstEnds delay later
          else a :: burstEnds delay later
      end
  end.

(** When the timers that close the bursts are due: [delay] after the last
    arrival of each burst. *)
Definition dueTimes (delay : Z) (arrivals : list Z) : list Z :=
  map (fun a => (a + delay)%Z) (burstEnds delay arrivals).

Definition dueBy (T : Z) (d : Z) : bool := (d <=? T)%Z.

End DebounceSpec.

(** * Theorems *)

(** ** Generic list facts *)

Section ListFacts.
Context {A : Type}.

Lemma forallb_false_iff (f : A -> bool) (l : list A) :
  forallb f l = false <-> exists x, In x l /\ f x = false.
Proof.
  induction l as [|a l IH]; simpl.
  - split; [discriminate | intros (x & [] & _)].
  - rewrite andb_false_iff, IH. split.
    + intros [Ha | (x & Hx & Hf)]; eauto.
    + intros (x & [-> | Hx] & Hf); eauto.
Qed.

Lemma forallb_ext_in (f g : A -> bool) (l : list A) :
  (forall x, In x l -> f x = g x) -> forallb f l = forallb g l.
Proof.
  induction l as [|a l IH]; simpl; intros H; [reflexivity|].
  rewrite (H a), IH; auto.
Qed.

Lemma firstn_succ_snoc (l : list A) (i : nat) (x : A) :
  nth_error l i = Some x -> firstn (S i) l = firstn i l ++ [x].
Proof.
  revert i; induction l as [|a l IH]; intros [|i] H; simpl in *; try discriminate.
  - now inversion H.
  - f_equal. now apply IH.
Qed.

Lemma existsb_filter_nil (f : A -> bool) (l : list A) :
  existsb f l = false <-> filter f l = [].
Proof.
  induction l as [|a l IH]; simpl; [tauto|].
  destruct (f a); simpl; [split; discriminate | exact IH].
Qed.

Lemma truthy_find (f : A -> bool) (l : list A) :
  Agent.truthy (find f l) = existsb f l.
Proof.
  induction l as [|a l IH]; simpl; auto. now destruct (f a).
Qed.

End ListFacts.

(** ** The conversation store *)

Module Store.
Import Agent StoreSpec.

Lemma Role_eqb_eq a b : Role_eqb a b = true <-> a = b.
Proof. destruct a, b; simpl; split; congruence. Qed.

Lemma is_tool_role m : is_tool m = true <-> role m = tool.
Proof. apply Role_eqb_eq. Qed.

Lemma matchingCall_issues prev m :
  truthy (matchingCall prev m) = issues (tool_call_id m) prev.
Proof.
  unfold matchingCall, issues.
  destruct (role prev); simpl; try (now destruct (tool_calls prev)).
  destruct (tool_calls prev); simpl; auto. apply truthy_find.
Qed.

Lemma issues_not_user r m : issues r m = true -> is_user m = false.
Proof.
  unfold issues, is_user. destruct (role m); simpl; congruence.
Qed.

(** One step of the backward scan, on the turns before the position. *)
Definition scan (before : list Message) (m : Message) : bool :=
  existsb (issues (tool_call_id m)) (untilUser before).

Lemma scan_cons p before m :
  scan (p :: before) m =
  if issues (tool_call_id m) p then true
  else if is_user p then false else scan before m.
Proof.
  unfold scan; simpl.
  destruct (issues (tool_call_id m) p) eqn:Hi.
  - rewrite (issues_not_user _ _ Hi). simpl. now rewrite Hi.
  - destruct (is_user p); simpl; auto. now rewrite Hi.
Qed.

Lemma foundToolCall_scan log m i :
  i <= length log ->
  foundToolCall log m i = scan (rev (firstn i log)) m.
Proof.
  induction i as [|j IH]; intros Hi; simpl foundToolCall.
  - reflexivity.
  - destruct (nth_error log j) as [p|] eqn:Hp.
    + rewrite (firstn_succ_snoc _ _ _ Hp), rev_app_distr. simpl rev. simpl app.
      rewrite scan_cons, matchingCall_issues, IH by lia. reflexivity.
    + apply nth_error_None in Hp. lia.
Qed.

Lemma hasPrecedingToolCall_eq log m i :
  hasPrecedingToolCall log m i = foundToolCall log m i.
Proof. induction i as [|j IH]; simpl; [reflexivity|]. rewrite <- IH. reflexivity. Qed.

Lemma orphanedb_spec log i : orphanedb log i = true <-> orphaned log i.
Proof.
  unfold orphanedb, orphaned, issuers. split.
  - destruct (nth_error log i) as [m|]; [|discriminate].
    rewrite andb_true_iff, negb_true_iff, is_tool_role, existsb_filter_nil.
    intros [? ?]. eauto.
  - intros (m & -> & Hr & Hn).
    rewrite andb_true_iff, negb_true_iff, is_tool_role, existsb_filter_nil. auto.
Qed.

Lemma validateMessages_orphanedb log :
  validateMessages log =
  forallb (fun i => negb (orphanedb log i)) (seq 0 (length log)).
Proof.
  unfold validateMessages. apply forallb_ext_in.
  intros i Hi. apply in_seq in Hi. unfold orphanedb.
  destruct (nth_error log i) as [m|]; auto.
  destruct (is_tool m); simpl; auto.
  rewrite foundToolCall_scan by lia. unfold scan, window.
  now rewrite negb_involutive.
Qed.

(** C1 (as amended).  [validateMessages] returns [false] exactly when some
    tool result of the log is orphaned, a tool result being orphaned when
    its window -- from its position backward to the most recent user turn,
    exclusive, or to the start of the log -- holds no assistant turn with a
    tool request of its id. *)
Theorem validateMessages_false_iff_orphaned (log : list Message) :
  validateMessages log = false <-> exists i, orphaned log i.
Proof.
  rewrite validateMessages_orphanedb, forallb_false_iff. split.
  - intros (i & _ & Hi). exists i. apply orphanedb_spec.
    now apply negb_false_iff.
  - intros (i & Hi). exists i. split.
    + apply in_seq. destruct Hi as (m & Hm & _).
      assert (i < length log) by (apply nth_error_Some; congruence). lia.
    + apply negb_false_iff. now apply orphanedb_spec.
Qed.


(** A log on which the two readings of "orphaned" differ: the follow-up
    reply reuses the id of the first tool request. *)
Definition sys0 : Message :=
  {| oid := 0; role := system; content := Some "You are a helpful assistant."%string;
     tool_calls := None; tool_call_id := None |}.

Definition call_t1 : ToolCall :=
  {| call_id := "t1"; function_name := "get_time"; function_arguments := "{}" |}.

Definition reused_id_log : list Message :=
  [ sys0;
    userMessage "Alice: what time is it?" 1;
    {| oid := 2; role := assistant; content := None;
       tool_calls := Some [call_t1]; tool_call_id := None |};
    toolMessage "t1" "12:00" 3;
    {| oid := 4; role := assistant; content := None;
       tool_calls := Some [call_t1]; tool_call_id := None |};
    toolMessage "t1" "12:00" 5 ].

(** C1 (counterexample).  On [reused_id_log] the tool result at index 5 has
    two issuing assistant turns in its window, so it is orphaned under the
    "exactly one" wording, yet [validateMessages] returns [true]. *)
Lemma validateMessages_accepts_two_issuers :
  validateMessages reused_id_log = true /\
  orphaned_unless_exactly_one reused_id_log 5 /\
  length (issuers reused_id_log 5 (Some "t1"%string)) = 2.
Proof.
  split; [reflexivity|]. split; [|reflexivity].
  exists (toolMessage "t1" "12:00" 5).
  split; [reflexivity|]. split; [reflexivity|].
  vm_compute. discriminate.
Qed.

(** *** Clean-up of orphaned tool messages *)

Lemma indexOf_from_nth log m i k :
  NoDup (map oid log) -> nth_error log i = Some m ->
  indexOf_from log m k = (k + Z.of_nat i)%Z.
Proof.
  revert i k. induction log as [|a log IH]; intros [|i] k Hnd Hm;
    simpl in *; try discriminate.
  - inversion Hm; subst. rewrite Nat.eqb_refl. lia.
  - inversion Hnd as [|? ? Hnotin Hnd']; subst.
    destruct (Nat.eqb (oid a) (oid m)) eqn:Heq.
    + apply Nat.eqb_eq in Heq. exfalso. apply Hnotin. rewrite Heq.
      apply in_map. eapply nth_error_In; eauto.
    + rewrite (IH i (k + 1)%Z Hnd' Hm). lia.
Qed.

Lemma indexOf_nth log m i :
  NoDup (map oid log) -> nth_error log i = Some m ->
  Z.to_nat (indexOf log m) = i.
Proof.
  intros Hnd Hm. unfold indexOf. rewrite (indexOf_from_nth log m i 0%Z Hnd Hm). lia.
Qed.

Lemma keepMessage_orphanedb log m i :
  NoDup (map oid log) -> nth_error log i = Some m ->
  keepMessage log m = negb (orphanedb log i).
Proof.
  intros Hnd Hm. unfold keepMessage, orphanedb. rewrite Hm.
  destruct (is_tool m); simpl; auto.
  rewrite (indexOf_nth _ _ _ Hnd Hm), hasPrecedingToolCall_eq, foundToolCall_scan.
  - unfold scan, window. now rewrite negb_involutive.
  - assert (i < length log) by (apply nth_error_Some; congruence). lia.
Qed.

Lemma filter_by_position (P : nat * Message -> bool) (f : Message -> bool)
  (l : list Message) (k : nat) :
  (forall i m, nth_error l i = Some m -> f m = P (k + i, m)) ->
  filter f l = map snd (filter P (combine (seq k (length l)) l)).
Proof.
  revert k. induction l as [|a l IH]; intros k H; simpl; [reflexivity|].
  rewrite (H 0 a eq_refl), Nat.add_0_r.
  rewrite (IH (S k)).
  - destruct (P (k, a)); reflexivity.
  - intros i m Hm. rewrite (H (S i) m Hm). f_equal. f_equal. lia.
Qed.

(** The clean-up as a traversal that carries the turns already passed
    (most recent first). *)
Fixpoint sweep (before rest : list Message) : list Message :=
  match rest with
  | [] => []
  | m :: r =>
      if is_tool m && negb (scan before m)
      then sweep (m :: before) r
      else m :: sweep (m :: before) r
  end.

Fixpoint valid_from (before rest : list Message) : bool :=
  match rest with
  | [] => true
  | m :: r => negb (is_tool m && negb (scan before m)) && valid_from (m :: before) r
  end.

Lemma orphanedb_at pre m rest :
  orphanedb (pre ++ m :: rest) (length pre) =
  is_tool m && negb (scan (rev pre) m).
Proof.
  unfold orphanedb, window, scan.
  rewrite nth_error_app2, Nat.sub_diag by lia. simpl.
  rewrite firstn_app, Nat.sub_diag, firstn_all. simpl. now rewrite app_nil_r.
Qed.

Lemma without_orphans_sweep_gen log pre rest :
  log = pre ++ rest ->
  map snd (filter (fun p => negb (orphanedb log (fst p)))
                  (combine (seq (length pre) (length rest)) rest))
  = sweep (rev pre) rest.
Proof.
  revert pre. induction rest as [|m r IH]; intros pre Hlog; simpl; [reflexivity|].
  assert (Hnext : log = (pre ++ [m]) ++ r) by (now rewrite <- app_assoc).
  specialize (IH (pre ++ [m]) Hnext).
  rewrite length_app, rev_app_distr in IH. simpl in IH.
  replace (length pre + 1) with (S (length pre)) in IH by lia.
  rewrite Hlog at 1. rewrite orphanedb_at.
  destruct (is_tool m && negb (scan (rev pre) m)); simpl; now rewrite IH.
Qed.

Lemma without_orphans_sweep log : without_orphans log = sweep [] log.
Proof. exact (without_orphans_sweep_gen log [] log eq_refl). Qed.

Lemma validateMessages_valid_from_gen log pre rest :
  log = pre ++ rest ->
  forallb (fun i => negb (orphanedb log i)) (seq (length pre) (length rest))
  = valid_from (rev pre) rest.
Proof.
  revert pre. induction rest as [|m r IH]; intros pre Hlog; simpl; [reflexivity|].
  assert (Hnext : log = (pre ++ [m]) ++ r) by (now rewrite <- app_assoc).
  specialize (IH (pre ++ [m]) Hnext).
  rewrite length_app, rev_app_distr in IH. simpl in IH.
  replace (length pre + 1) with (S (length pre)) in IH by lia.
  rewrite Hlog at 1. rewrite orphanedb_at. now rewrite IH.
Qed.

Lemma validateMessages_valid_from log :
  validateMessages log = valid_from [] log.
Proof.
  rewrite validateMessages_orphanedb.
  exact (validateMessages_valid_from_gen log [] log eq_refl).
Qed.

Lemma scan_skip_tool before before' m x :
  (forall y, scan before' y = scan before y) ->
  is_tool m = true -> scan before' x = scan (m :: before) x.
Proof.
  intros H Ht. rewrite scan_cons, H.
  assert (Hr : role m = tool) by now apply is_tool_role.
  unfold issues, is_user. rewrite Hr. reflexivity.
Qed.

Lemma scan_same_head before before' m x :
  (forall y, scan before' y = scan before y) ->
  scan (m :: before') x = scan (m :: before) x.
Proof. intros H. now rewrite !scan_cons, H. Qed.

Lemma valid_from_sweep before before' rest :
  (forall y, scan before' y = scan before y) ->
  valid_from before' (sweep before rest) = true.
Proof.
  revert before before'.
  induction rest as [|m r IH]; intros before before' H; simpl; [reflexivity|].
  destruct (is_tool m && negb (scan before m)) eqn:Horph.
  - apply IH. intros y. apply andb_true_iff in Horph.
    now apply scan_skip_tool.
  - simpl. rewrite H, Horph. simpl.
    apply IH. intros y. now apply scan_same_head.
Qed.

Lemma sweep_valid before rest :
  valid_from before rest = true -> sweep before rest = rest.
Proof.
  revert before. induction rest as [|m r IH]; intros before H; simpl in *;
    [reflexivity|].
  apply andb_true_iff in H as [Hm Hr]. apply negb_true_iff in Hm.
  rewrite Hm. f_equal. now apply IH.
Qed.

Lemma filter_keepMessage log :
  NoDup (map oid log) -> filter (keepMessage log) log = without_orphans log.
Proof.
  intros Hnd. unfold without_orphans.
  apply filter_by_position with (k := 0).
  intros i m Hm. simpl. now apply keepMessage_orphanedb.
Qed.

(** C2 (as amended).  On a log of distinct message objects, the clean-up
    removes the turns at orphaned positions and nothing else, keeping the
    order of the rest; its result passes [validateMessages]; a log that
    already passes is returned as it is; and cleaning twice is cleaning
    once.  Orphaned is what [validateMessages] decides: no issuing
    assistant turn in the window. *)
Theorem repairMessages_removes_exactly_orphans (log : list Message) :
  NoDup (map oid log) ->
  repairMessages log = without_orphans log /\
  validateMessages (repairMessages log) = true /\
  (validateMessages log = true -> repairMessages log = log) /\
  repairMessages (repairMessages log) = repairMessages log.
Proof.
  intros Hnd.
  assert (Heq : repairMessages log = without_orphans log).
  { unfold repairMessages. destruct (validateMessages log) eqn:Hv.
    - rewrite without_orphans_sweep. symmetry. apply sweep_valid.
      now rewrite <- validateMessages_valid_from.
    - now apply filter_keepMessage. }
  assert (Hvalid : validateMessages (repairMessages log) = true).
  { rewrite Heq, without_orphans_sweep, validateMessages_valid_from.
    now apply valid_from_sweep. }
  repeat split; auto.
  - intros Hv. unfold repairMessages. now rewrite Hv.
  - unfold repairMessages at 1. now rewrite Hvalid.
Qed.

(** The scenario of the specification: a tool result ["t9"] with no
    matching request. *)
Definition orphan_t9_log : list Message :=
  [ sys0;
    userMessage "Alice: hello Bot" 1;
    toolMessage "t9" "12:00" 2;
    {| oid := 3; role := assistant; content := Some "Hello Alice"%string;
       tool_calls := None; tool_call_id := None |} ].

(** C2 (counterexample).  Under the "exactly one" wording of the data
    model the clean-up does not remove every orphaned result: on
    [reused_id_log], a log of distinct objects, the tool result at index 5
    has two issuing assistant turns in its window, and the clean-up
    returns the log as it is, that result included. *)
Lemma repairMessages_keeps_result_with_two_issuers :
  NoDup (map oid reused_id_log) /\
  orphaned_unless_exactly_one reused_id_log 5 /\
  nth_error (repairMessages reused_id_log) 5 =
    Some (toolMessage "t1" "12:00" 5) /\
  repairMessages reused_id_log = reused_id_log.
Proof.
  split.
  { simpl. repeat (constructor; [simpl; intuition lia|]). constructor. }
  split; [|split; reflexivity].
  exists (toolMessage "t1" "12:00" 5).
  split; [reflexivity|]. split; [reflexivity|].
  vm_compute. discriminate.
Qed.

(** C2 (as amended) on [orphan_t9_log]: the orphaned result is removed, the
    rest stays. *)
Lemma repairMessages_removes_exactly_orphans_witness :
  NoDup (map oid orphan_t9_log) /\
  validateMessages orphan_t9_log = false /\
  repairMessages orphan_t9_log =
    [ sys0; userMessage "Alice: hello Bot" 1;
      {| oid := 3; role := assistant; content := Some "Hello Alice"%string;
         tool_calls := None; tool_call_id := None |} ] /\
  (repairMessages orphan_t9_log = without_orphans orphan_t9_log /\
   validateMessages (repairMessages orphan_t9_log) = true /\
   (validateMessages orphan_t9_log = true ->
    repairMessages orphan_t9_log = orphan_t9_log) /\
   repairMessages (repairMessages orphan_t9_log) = repairMessages orphan_t9_log).
Proof.
  assert (Hnd : NoDup (map oid orphan_t9_log)).
  { simpl. repeat (constructor; [simpl; intuition lia|]). constructor. }
  split; [exact Hnd|]. split; [reflexivity|]. split; [reflexivity|].
  exact (repairMessages_removes_exactly_orphans orphan_t9_log Hnd).
Defined.


(** *** Truncation of the history *)

Lemma safeTruncateIndex_le l n : safeTruncateIndex l n <= n.
Proof.
  induction n as [|n IH]; cbn [safeTruncateIndex]; [lia|].
  destruct (S n <? length l); [|lia].
  destruct (nth_error l (S n)); [|lia].
  destruct (nth_error l n); [|lia].
  destruct (_ || _); lia.
Qed.

Lemma safeTruncateIndex_stop l n :
  n < length l ->
  safeTruncateIndex l n = 0 \/
  exists x, nth_error l (safeTruncateIndex l n) = Some x /\ is_tool x = false.
Proof.
  induction n as [|n IH]; intros Hn; [now left|].
  cbn [safeTruncateIndex].
  destruct (S n <? length l) eqn:Hlt; [|apply Nat.ltb_ge in Hlt; lia].
  destruct (nth_error l (S n)) as [x|] eqn:Hx;
    [|apply nth_error_None in Hx; lia].
  destruct (nth_error l n) as [p|] eqn:Hp;
    [|apply nth_error_None in Hp; lia].
  destruct (is_tool x || has_tool_calls p) eqn:Hc.
  - apply IH. lia.
  - right. exists x. apply orb_false_iff in Hc. tauto.
Qed.

Lemma safeTruncateIndex_shifted l n x p :
  S n < length l ->
  nth_error l (S n) = Some x -> nth_error l n = Some p ->
  is_tool x || has_tool_calls p = true ->
  safeTruncateIndex l (S n) <= n.
Proof.
  intros Hn Hx Hp Hc. cbn [safeTruncateIndex].
  apply Nat.ltb_lt in Hn. rewrite Hn, Hx, Hp, Hc.
  apply safeTruncateIndex_le.
Qed.

Lemma truncateMessages_long s tl :
  15 < length (s :: tl) ->
  truncateMessages (s :: tl) =
  s :: skipn (safeTruncateIndex tl (length tl - 14)) tl.
Proof.
  intros H. unfold truncateMessages.
  destruct (length (s :: tl) <=? 15) eqn:Hle; [|reflexivity].
  apply Nat.leb_le in Hle. lia.
Qed.

Lemma truncateMessages_short log :
  length log <= 15 -> truncateMessages log = log.
Proof.
  intros H. unfold truncateMessages. apply Nat.leb_le in H. now rewrite H.
Qed.

Lemma truncateMessages_head log :
  nth_error (truncateMessages log) 0 = nth_error log 0.
Proof.
  unfold truncateMessages. destruct (length log <=? 15); [reflexivity|].
  now destruct log.
Qed.

Lemma adjacent_issuer_scan before m :
  adjacent_issuer before m = true -> scan before m = true.
Proof.
  induction before as [|p rest IH]; simpl; [discriminate|].
  rewrite scan_cons. destruct (is_tool p) eqn:Ht.
  - intros H. rewrite (IH H).
    apply is_tool_role in Ht. unfold issues, is_user. now rewrite Ht.
  - intros ->. reflexivity.
Qed.

Lemma well_sequenced_from_valid before rest :
  well_sequenced_from before rest = true -> valid_from before rest = true.
Proof.
  revert before. induction rest as [|m r IH]; intros before; simpl; [auto|].
  rewrite !andb_true_iff. intros [Hm Hr]. split; [|now apply IH].
  destruct (is_tool m); simpl in *; auto.
  now rewrite (adjacent_issuer_scan _ _ Hm).
Qed.

Lemma well_sequenced_valid log :
  well_sequenced log = true -> validateMessages log = true.
Proof.
  intros H. rewrite validateMessages_valid_from.
  now apply well_sequenced_from_valid.
Qed.

Lemma well_sequenced_from_app before a b :
  well_sequenced_from before (a ++ b) =
  well_sequenced_from before a && well_sequenced_from (rev a ++ before) b.
Proof.
  revert before. induction a as [|m a IH]; intros before; simpl; [reflexivity|].
  rewrite IH, <- app_assoc. simpl. now rewrite andb_assoc.
Qed.

Lemma adjacent_issuer_stop ys x acc acc' m :
  is_tool x = false ->
  adjacent_issuer (ys ++ x :: acc) m = adjacent_issuer (ys ++ x :: acc') m.
Proof.
  intros Hx. induction ys as [|y ys IH]; simpl.
  - now rewrite Hx.
  - now rewrite IH.
Qed.

Lemma well_sequenced_from_stop rest ys x acc acc' :
  is_tool x = false ->
  well_sequenced_from (ys ++ x :: acc) rest =
  well_sequenced_from (ys ++ x :: acc') rest.
Proof.
  intros Hx. revert ys. induction rest as [|m r IH]; intros ys; simpl;
    [reflexivity|].
  rewrite (adjacent_issuer_stop ys x acc acc' m Hx).
  f_equal. exact (IH (m :: ys)).
Qed.

Lemma well_sequenced_cut s tl k x :
  nth_error tl k = Some x -> is_tool x = false ->
  well_sequenced (s :: tl) = true ->
  well_sequenced (s :: skipn k tl) = true.
Proof.
  intros Hx Ht. unfold well_sequenced.
  destruct (nth_error_split tl k Hx) as (pre & post & Htl & Hlen).
  subst tl k. rewrite skipn_app, Nat.sub_diag, skipn_all. simpl.
  clear Hx. rewrite well_sequenced_from_app. simpl. rewrite Ht. simpl.
  rewrite !andb_true_iff. intros (Hs & _ & Hpost). split; [exact Hs|].
  pose proof (well_sequenced_from_stop post [] x [s] (rev pre ++ [s]) Ht) as E.
  simpl in E. rewrite E. exact Hpost.
Qed.

Lemma well_sequenced_truncateMessages log :
  well_sequenced log = true -> well_sequenced (truncateMessages log) = true.
Proof.
  intros Hw. destruct (Nat.le_gt_cases (length log) 15) as [Hle|Hgt].
  - now rewrite truncateMessages_short.
  - destruct log as [|s tl]; [simpl in Hgt; lia|].
    rewrite truncateMessages_long by exact Hgt. simpl in Hgt.
    destruct (safeTruncateIndex_stop tl (length tl - 14)) as [H0|(x & Hx & Ht)];
      [lia| |].
    + rewrite H0. exact Hw.
    + eapply well_sequenced_cut; eauto.
Qed.

Lemma adjacent_issuer_In before m :
  adjacent_issuer before m = true ->
  exists a, In a before /\ issues (tool_call_id m) a = true.
Proof.
  induction before as [|p rest IH]; simpl; [discriminate|].
  destruct (is_tool p).
  - intros H. destruct (IH H) as (a & Ha & Hi). eauto.
  - intros H. eauto.
Qed.

Lemma well_sequenced_from_issuers before rest :
  well_sequenced_from before rest = true ->
  forall m, In m rest -> role m = tool ->
  exists a, (In a before \/ In a rest) /\ issues (tool_call_id m) a = true.
Proof.
  revert before. induction rest as [|x r IH]; intros before Hw m Hin Hr;
    simpl in *; [contradiction|].
  apply andb_true_iff in Hw as [Hx Hrest]. destruct Hin as [->|Hin].
  - apply is_tool_role in Hr. rewrite Hr in Hx. simpl in Hx.
    destruct (adjacent_issuer_In _ _ Hx) as (a & Ha & Hi). eauto.
  - destruct (IH _ Hrest m Hin Hr) as (a & [[->|Ha]|Ha] & Hi); eauto.
Qed.

Lemma well_sequenced_results_have_issuer log :
  well_sequenced log = true -> results_have_issuer log.
Proof.
  intros Hw m Hin Hr.
  destruct (well_sequenced_from_issuers [] log Hw m Hin Hr)
    as (a & [[]|Ha] & Hi).
  eauto.
Qed.

(** C3 (as amended).  Truncation keeps the shape the driver appends (every
    tool result directly after the assistant turn that issued its request,
    tool results only in between), so on such a log no tool result loses
    its assistant turn and the result passes [validateMessages]; on every
    log the turn at index 0 stays at index 0, and a log of at most 15 = 1 +
    14 turns is left as it is (the number kept is fixed at 14). *)
Theorem truncateMessages_keeps_tool_sequences (log : list Message) :
  (well_sequenced log = true ->
   well_sequenced (truncateMessages log) = true /\
   validateMessages (truncateMessages log) = true /\
   results_have_issuer (truncateMessages log)) /\
  nth_error (truncateMessages log) 0 = nth_error log 0 /\
  (length log <= 15 -> truncateMessages log = log).
Proof.
  split; [|split].
  - intros Hw. pose proof (well_sequenced_truncateMessages log Hw) as Hw'.
    split; [exact Hw'|]. split; [now apply well_sequenced_valid|].
    now apply well_sequenced_results_have_issuer.
  - apply truncateMessages_head.
  - apply truncateMessages_short.
Qed.

Definition plainAssistant (c : string) (o : nat) : Message :=
  {| oid := o; role := assistant; content := Some c;
     tool_calls := None; tool_call_id := None |}.

Definition requestingAssistant (calls : list ToolCall) (o : nat) : Message :=
  {| oid := o; role := assistant; content := None;
     tool_calls := Some calls; tool_call_id := None |}.

Definition chatter (from : nat) : list Message :=
  [ userMessage "Bob: and then?" from; plainAssistant "Go on." (from + 1) ].

(** Eighteen turns that pass [validateMessages]; the result of ["t1"] is
    separated from its request by two assistant turns without requests. *)
Definition separated_result_log : list Message :=
  [ sys0;
    userMessage "Alice: what time is it?" 1;
    requestingAssistant [call_t1] 2;
    plainAssistant "One moment." 3;
    plainAssistant "Still looking." 4;
    toolMessage "t1" "12:00" 5 ]
  ++ chatter 6 ++ chatter 8 ++ chatter 10 ++ chatter 12 ++ chatter 14
  ++ chatter 16.

(** C3 (counterexample).  [separated_result_log] passes [validateMessages]
    and every tool result in it has its issuing assistant turn, but after
    truncation the result of ["t1"] is present and no turn of the log
    issues ["t1"]: the truncated log fails [validateMessages]. *)
Lemma truncateMessages_can_orphan_a_result :
  validateMessages separated_result_log = true /\
  results_have_issuer separated_result_log /\
  (exists m, In m (truncateMessages separated_result_log) /\
             role m = tool /\
             forall a, In a (truncateMessages separated_result_log) ->
                       issues (tool_call_id m) a = false) /\
  validateMessages (truncateMessages separated_result_log) = false.
Proof.
  split; [reflexivity|]. split; [|split; [|reflexivity]].
  - intros m Hin Hr. simpl in Hin.
    repeat (destruct Hin as [<-|Hin]; [try discriminate Hr|]);
      [|contradiction].
    exists (requestingAssistant [call_t1] 2). split; [simpl; tauto|reflexivity].
  - exists (toolMessage "t1" "12:00" 5). split; [vm_compute; tauto|].
    split; [reflexivity|].
    intros a Ha. vm_compute in Ha.
    repeat (destruct Ha as [<-|Ha]; [reflexivity|]). contradiction.
Qed.

(** A log of the driver's shape that is long enough to be truncated, with
    the naive cut landing on a tool result. *)
Definition long_cycle_log : list Message :=
  [ sys0;
    userMessage "Alice: what time is it?" 1;
    requestingAssistant [call_t1] 2;
    toolMessage "t1" "12:00" 3;
    plainAssistant "It is noon." 4;
    userMessage "Bob: and then?" 5 ]
  ++ chatter 6 ++ chatter 8 ++ chatter 10 ++ chatter 12 ++ chatter 14
  ++ [ userMessage "Carol: thanks" 16 ].

(** C3 (as amended) on [long_cycle_log]: seventeen turns become sixteen. *)
Lemma truncateMessages_keeps_tool_sequences_witness :
  well_sequenced long_cycle_log = true /\
  length long_cycle_log = 17 /\
  length (truncateMessages long_cycle_log) = 16 /\
  ((well_sequenced long_cycle_log = true ->
    well_sequenced (truncateMessages long_cycle_log) = true /\
    validateMessages (truncateMessages long_cycle_log) = true /\
    results_have_issuer (truncateMessages long_cycle_log)) /\
   nth_error (truncateMessages long_cycle_log) 0 = nth_error long_cycle_log 0 /\
   (length long_cycle_log <= 15 ->
    truncateMessages long_cycle_log = long_cycle_log)).
Proof.
  split; [reflexivity|]. split; [reflexivity|]. split; [reflexivity|].
  exact (truncateMessages_keeps_tool_sequences long_cycle_log).
Defined.

(** C10.  On a log of more than 15 turns the cut chosen by
    [safeTruncateIndex] is never later than the naive one, so the last 14
    turns are a suffix of the truncated log, which therefore has at least
    15 turns -- and more than 15 whenever the naive cut had to be shifted. *)
Theorem truncateMessages_keeps_recent_turns (log : list Message) :
  15 < length log ->
  safeTruncateIndex (tl log) (length log - 15) <= length log - 15 /\
  (exists older,
     truncateMessages log = older ++ skipn (length log - 14) log) /\
  15 <= length (truncateMessages log) /\
  (cut_needs_shift log = true -> 15 < length (truncateMessages log)).
Proof.
  intros Hlen. destruct log as [|s rest]; [simpl in Hlen; lia|].
  rewrite truncateMessages_long by exact Hlen.
  simpl tl. simpl length in *.
  replace (S (length rest) - 15) with (length rest - 14) by lia.
  set (n := length rest - 14).
  pose proof (safeTruncateIndex_le rest n) as Hk.
  set (k := safeTruncateIndex rest n) in *.
  assert (Hn : n < length rest) by (unfold n; lia).
  split; [exact Hk|]. split; [|split].
  - exists (s :: firstn (n - k) (skipn k rest)).
    replace (S (length rest) - 14) with (S n) by (unfold n; lia).
    simpl. f_equal.
    rewrite <- (firstn_skipn (n - k) (skipn k rest)) at 1.
    f_equal. rewrite skipn_skipn. f_equal. lia.
  - rewrite length_skipn. unfold n in *. lia.
  - unfold cut_needs_shift. simpl length.
    replace (S (length rest) - 14) with (S n) by (unfold n; lia).
    replace (S (length rest) - 15) with n by (unfold n; lia).
    assert (Hpos : 0 < n) by (unfold n; lia).
    destruct n as [|n'] eqn:En; [lia|].
    change (nth_error (s :: rest) (S (S n'))) with (nth_error rest (S n')).
    change (nth_error (s :: rest) (S n')) with (nth_error rest n').
    destruct (nth_error rest (S n')) as [x|] eqn:Hx; [|intros; discriminate].
    destruct (nth_error rest n') as [p|] eqn:Hp; [|intros; discriminate].
    intros Hc.
    pose proof (safeTruncateIndex_shifted rest n' x p Hn Hx Hp Hc) as Hs.
    fold k in Hs. rewrite length_skipn. lia.
Qed.

(** C10 on [long_cycle_log]: the naive cut lands on the tool result and is
    moved one turn earlier. *)
Lemma truncateMessages_keeps_recent_turns_witness :
  15 < length long_cycle_log /\
  cut_needs_shift long_cycle_log = true /\
  length (truncateMessages long_cycle_log) = 16 /\
  (safeTruncateIndex (tl long_cycle_log) (length long_cycle_log - 15)
     <= length long_cycle_log - 15 /\
   (exists older,
      truncateMessages long_cycle_log =
      older ++ skipn (length long_cycle_log - 14) long_cycle_log) /\
   15 <= length (truncateMessages long_cycle_log) /\
   (cut_needs_shift long_cycle_log = true ->
    15 < length (truncateMessages long_cycle_log))).
Proof.
  assert (Hlen : 15 < length long_cycle_log) by (vm_compute; lia).
  split; [exact Hlen|]. split; [reflexivity|]. split; [reflexivity|].
  exact (truncateMessages_keeps_recent_turns long_cycle_log Hlen).
Defined.

End Store.

(** ** The tool-call driver *)

Module Driver.
Import Agent StoreSpec DriverSpec Store.

Section DriverFacts.
Context {E : Environment}.

(** The state after one tool call has been executed and answered. *)
Definition afterToolCall (toolCall : ToolCall) (st : State) : State :=
  {| lastProcessedTime := lastProcessedTime st;
     messages :=
       messages st ++
       [toolMessage (call_id toolCall)
                    (resultContent (snd (invokeTool (world st) toolCall)))
                    (next_oid st)];
     next_oid := S (next_oid st);
     world := fst (invokeTool (world st) toolCall);
     trace :=
       trace st ++ [ToolAttempt toolCall (snd (invokeTool (world st) toolCall))] |}.

Lemma executeToolCall_run toolCall st :
  executeToolCall toolCall st = (afterToolCall toolCall st, inr tt).
Proof.
  unfold executeToolCall, try_catch, bind, callTool, push, afterToolCall.
  destruct (invokeTool (world st) toolCall) as [w [e|r]]; reflexivity.
Qed.

Definition afterToolCalls (calls : list ToolCall) (st : State) : State :=
  fold_left (fun s call => afterToolCall call s) calls st.

Lemma executeToolCalls_run calls st :
  executeToolCalls calls st = (afterToolCalls calls st, inr tt).
Proof.
  revert st. induction calls as [|call calls IH]; intros st; simpl.
  - reflexivity.
  - unfold bind. rewrite executeToolCall_run. apply IH.
Qed.

Lemma afterToolCalls_spec calls st :
  exists evs results,
    Attempts (world st) calls evs (world (afterToolCalls calls st)) /\
    trace (afterToolCalls calls st) = trace st ++ evs /\
    messages (afterToolCalls calls st) = messages st ++ results /\
    Forall2 answers evs results /\
    lastProcessedTime (afterToolCalls calls st) = lastProcessedTime st /\
    next_oid (afterToolCalls calls st) = next_oid st + length calls /\
    map oid results = seq (next_oid st) (length calls).
Proof.
  revert st. induction calls as [|call calls IH]; intros st.
  - exists [], []. simpl. rewrite !app_nil_r, Nat.add_0_r.
    repeat split; constructor.
  - destruct (IH (afterToolCall call st))
      as (evs & results & Hatt & Htr & Hmsg & Hans & Hlast & Hoid & Hoids).
    exists (ToolAttempt call (snd (invokeTool (world st) call)) :: evs).
    exists (toolMessage (call_id call)
                        (resultContent (snd (invokeTool (world st) call)))
                        (next_oid st) :: results).
    simpl afterToolCalls. simpl in *.
    rewrite Htr, Hmsg, Hlast, Hoid, <- !app_assoc. simpl.
    repeat split; try reflexivity.
    + constructor. exact Hatt.
    + constructor; [|exact Hans]. simpl. auto.
    + lia.
    + now rewrite Hoids.
Qed.

(** C5.  A batch of tool requests never throws out of its loop: every
    request is attempted, in order, whatever the earlier attempts did;
    exactly one tool result turn is appended per request, carrying the
    request's id, and its content is the structured error payload when the
    gateway call (or the parsing of its arguments) failed and the
    stringified result otherwise. *)
Theorem executeToolCalls_answers_every_request (calls : list ToolCall)
  (st : State) :
  exists st' evs results,
    executeToolCalls calls st = (st', inr tt) /\
    Attempts (world st) calls evs (world st') /\
    trace st' = trace st ++ evs /\
    messages st' = messages st ++ results /\
    Forall2 answers evs results /\
    map tool_call_id results = map (fun call => Some (call_id call)) calls /\
    (forall call e,
        In (ToolAttempt call (inl e)) evs ->
        exists msg, In msg results /\ role msg = tool /\
                    tool_call_id msg = Some (call_id call) /\
                    content msg = Some errorPayload).
Proof.
  destruct (afterToolCalls_spec calls st)
    as (evs & results & Hatt & Htr & Hmsg & Hans & _).
  exists (afterToolCalls calls st), evs, results.
  split; [apply executeToolCalls_run|].
  repeat split; auto.
  - clear Htr Hmsg. revert Hans. generalize (world (afterToolCalls calls st)).
    revert results. induction Hatt; intros results w0 Hans;
      inversion Hans as [|? msg ? rest Hev Hrest]; subst; simpl; [reflexivity|].
    destruct Hev as (_ & Hid & _). rewrite Hid. f_equal.
    eapply IHHatt; eauto.
  - intros call e Hin. clear - Hans Hin.
    induction Hans as [|ev msg evs results Hev _ IH]; [contradiction|].
    destruct Hin as [->|Hin].
    + exists msg. simpl in Hev. simpl. tauto.
    + destruct (IH Hin) as (m & Hm & ?). exists m. simpl. tauto.
Qed.


(** *** One cycle, step by step *)

Definition withMessages (f : list Message -> list Message) (st : State)
  : State :=
  {| lastProcessedTime := lastProcessedTime st;
     messages := f (messages st);
     next_oid := next_oid st;
     world := world st;
     trace := trace st |}.

Definition pushed (mk : nat -> Message) (st : State) : State :=
  {| lastProcessedTime := lastProcessedTime st;
     messages := messages st ++ [mk (next_oid st)];
     next_oid := S (next_oid st);
     world := world st;
     trace := trace st |}.

(** What the model endpoint does with the cleaned-up log of [st]. *)
Definition modelReply (st : State) : World * (Exception + list ChatMessage) :=
  chat_completions_create (world st) (repairMessages (messages st)).

Definition afterModelCall (st : State) : State :=
  {| lastProcessedTime := lastProcessedTime st;
     messages := repairMessages (messages st);
     next_oid := next_oid st;
     world := fst (modelReply st);
     trace :=
       trace st ++
       [ModelCall (repairMessages (messages st)) (snd (modelReply st))] |}.

Lemma makeOpenAIRequest_run st :
  makeOpenAIRequest st = (afterModelCall st, snd (modelReply st)).
Proof.
  unfold makeOpenAIRequest, bind, set_messages, createCompletion,
    afterModelCall, modelReply. simpl.
  destruct (chat_completions_create (world st) (repairMessages (messages st)));
    reflexivity.
Qed.

Definition afterFollowUp (st : State) : State :=
  match snd (modelReply st) with
  | inr (followUpMessage :: _) =>
      let st' := pushed (assistantMessage followUpMessage) (afterModelCall st) in
      match message_tool_calls followUpMessage with
      | Some calls => afterToolCalls calls st'
      | None => st'
      end
  | _ => afterModelCall st
  end.

Lemma followUp_run st : followUp st = (afterFollowUp st, inr tt).
Proof.
  unfold followUp, try_catch, bind, afterFollowUp.
  rewrite makeOpenAIRequest_run.
  destruct (snd (modelReply st)) as [e|[|m rest]]; simpl; try reflexivity.
  destruct (message_tool_calls m) as [calls|]; simpl; [|reflexivity].
  now rewrite executeToolCalls_run.
Qed.

Definition afterRespond (st : State) : State :=
  match snd (modelReply st) with
  | inl error =>
      if isRoleSequenceError error
      then withMessages resetMessages (afterModelCall st)
      else afterModelCall st
  | inr [] => afterModelCall st
  | inr (message :: _) =>
      let st' := pushed (assistantMessage message) (afterModelCall st) in
      match message_tool_calls message with
      | Some calls => afterFollowUp (afterToolCalls calls st')
      | None => st'
      end
  end.

Lemma respond_run st : respond st = (afterRespond st, inr tt).
Proof.
  unfold respond, try_catch, bind, afterRespond.
  rewrite makeOpenAIRequest_run.
  destruct (snd (modelReply st)) as [e|[|m rest]]; simpl.
  - unfold set_messages, ret, withMessages.
    destruct (isRoleSequenceError e); reflexivity.
  - reflexivity.
  - destruct (message_tool_calls m) as [calls|]; simpl; [|reflexivity].
    unfold bind. rewrite executeToolCalls_run, followUp_run. reflexivity.
Qed.

(** The state in which the cycle of a poll starts: cursor advanced, user
    turn appended, history truncated. *)
Definition cycleStart (first : TranscriptSegment)
  (others : list TranscriptSegment) (st : State) : State :=
  withMessages truncateMessages
    (pushed (userMessage (transcriptText (first :: others)))
       {| lastProcessedTime := Math_max (end_ first) (map end_ others);
          messages := messages st;
          next_oid := next_oid st;
          world := world st;
          trace := trace st |}).

Lemma processNewSegments_run segments st :
  processNewSegments segments st =
  match filter (isNewSegment (lastProcessedTime st)) segments with
  | [] => (st, inr tt)
  | first :: others => (afterRespond (cycleStart first others st), inr tt)
  end.
Proof.
  unfold processNewSegments, bind, get.
  destruct (filter (isNewSegment (lastProcessedTime st)) segments)
    as [|first others] eqn:Hnew; [reflexivity|].
  unfold set_lastProcessedTime, push, set_messages. simpl.
  rewrite respond_run. reflexivity.
Qed.


(** *** What a cycle leaves alone *)

Lemma afterToolCalls_lastProcessedTime calls st :
  lastProcessedTime (afterToolCalls calls st) = lastProcessedTime st.
Proof.
  destruct (afterToolCalls_spec calls st) as (? & ? & ? & ? & ? & ? & H & _).
  exact H.
Qed.

Lemma afterFollowUp_lastProcessedTime st :
  lastProcessedTime (afterFollowUp st) = lastProcessedTime st.
Proof.
  unfold afterFollowUp.
  destruct (snd (modelReply st)) as [e|[|m rest]]; try reflexivity.
  destruct (message_tool_calls m); simpl; [|reflexivity].
  now rewrite afterToolCalls_lastProcessedTime.
Qed.

Lemma afterRespond_lastProcessedTime st :
  lastProcessedTime (afterRespond st) = lastProcessedTime st.
Proof.
  unfold afterRespond.
  destruct (snd (modelReply st)) as [e|[|m rest]]; try reflexivity.
  - now destruct (isRoleSequenceError e).
  - destruct (message_tool_calls m); simpl; [|reflexivity].
    now rewrite afterFollowUp_lastProcessedTime,
      afterToolCalls_lastProcessedTime.
Qed.

Lemma afterToolCalls_trace calls st :
  exists evs, trace (afterToolCalls calls st) = trace st ++ evs.
Proof.
  destruct (afterToolCalls_spec calls st) as (evs & ? & ? & H & _). eauto.
Qed.

Lemma afterFollowUp_trace st :
  exists evs, trace (afterFollowUp st) = trace st ++ evs.
Proof.
  unfold afterFollowUp.
  destruct (snd (modelReply st)) as [e|[|m rest]]; simpl; eauto.
  destruct (message_tool_calls m) as [calls|]; simpl; eauto.
  destruct (afterToolCalls_trace calls
              (pushed (assistantMessage m) (afterModelCall st))) as (evs & ->).
  simpl. rewrite <- app_assoc. eauto.
Qed.

Lemma afterRespond_trace st :
  exists rest,
    trace (afterRespond st) =
    trace st ++
    ModelCall (repairMessages (messages st)) (snd (modelReply st)) :: rest.
Proof.
  unfold afterRespond.
  destruct (snd (modelReply st)) as [e|[|m rest]] eqn:Hr; simpl.
  - exists []. destruct (isRoleSequenceError e); simpl; now rewrite Hr.
  - exists []. now rewrite Hr.
  - destruct (message_tool_calls m) as [calls|]; simpl.
    + destruct (afterFollowUp_trace
                  (afterToolCalls calls
                     (pushed (assistantMessage m) (afterModelCall st))))
        as (evs2 & ->).
      destruct (afterToolCalls_trace calls
                  (pushed (assistantMessage m) (afterModelCall st)))
        as (evs1 & ->).
      simpl. rewrite Hr, <- !app_assoc. simpl. eauto.
    + exists []. now rewrite Hr.
Qed.

(** *** The last turn survives truncation and clean-up *)

Lemma keepMessage_not_tool log m : is_tool m = false -> keepMessage log m = true.
Proof. intros H. unfold keepMessage. now rewrite H. Qed.

Lemma repairMessages_ends s mid u :
  is_tool s = false -> is_tool u = false ->
  exists mid', repairMessages (s :: mid ++ [u]) = s :: mid' ++ [u].
Proof.
  intros Hs Hu. unfold repairMessages.
  destruct (validateMessages (s :: mid ++ [u])); [eauto|].
  simpl. rewrite keepMessage_not_tool by exact Hs.
  rewrite filter_app. simpl. rewrite keepMessage_not_tool by exact Hu. eauto.
Qed.

Lemma truncateMessages_ends s mid u :
  exists mid', truncateMessages (s :: mid ++ [u]) = s :: mid' ++ [u].
Proof.
  destruct (Nat.le_gt_cases (length (s :: mid ++ [u])) 15) as [Hle|Hgt].
  - rewrite truncateMessages_short by exact Hle. eauto.
  - rewrite truncateMessages_long by exact Hgt.
    pose proof (safeTruncateIndex_le (mid ++ [u]) (length (mid ++ [u]) - 14)) as Hk.
    set (k := safeTruncateIndex (mid ++ [u]) (length (mid ++ [u]) - 14)) in *.
    simpl in Hgt. rewrite length_app in *. simpl in *.
    exists (skipn k mid). rewrite skipn_app.
    replace (k - length mid) with 0 by lia. reflexivity.
Qed.

Lemma repairMessages_last l u :
  is_tool u = false -> exists l', repairMessages (l ++ [u]) = l' ++ [u].
Proof.
  intros Hu. unfold repairMessages.
  destruct (validateMessages (l ++ [u])); [eauto|].
  rewrite filter_app. simpl. rewrite keepMessage_not_tool by exact Hu. eauto.
Qed.

Lemma truncateMessages_last l u :
  exists l', truncateMessages (l ++ [u]) = l' ++ [u].
Proof.
  destruct l as [|s mid].
  - exists []. reflexivity.
  - destruct (truncateMessages_ends s mid u) as (mid' & H).
    exists (s :: mid'). exact H.
Qed.

Lemma cycleStart_messages first others st :
  exists earlier,
    repairMessages (messages (cycleStart first others st)) =
    earlier ++ [userMessage (transcriptText (first :: others)) (next_oid st)].
Proof.
  simpl.
  destruct (truncateMessages_last (messages st)
              (userMessage (transcriptText (first :: others)) (next_oid st)))
    as (l' & ->).
  now apply repairMessages_last.
Qed.

Lemma Math_max_ge x xs : (x <= Math_max x xs)%Z.
Proof.
  unfold Math_max. revert x. induction xs as [|y ys IH]; intros x; simpl; [lia|].
  specialize (IH (Z.max x y)). lia.
Qed.

Lemma Math_max_upper x xs y : In y (x :: xs) -> (y <= Math_max x xs)%Z.
Proof.
  unfold Math_max. revert x. induction xs as [|z zs IH]; intros x; simpl.
  - intros [->|[]]. lia.
  - intros [->|[->|Hin]].
    + pose proof (Math_max_ge (Z.max y z) zs). unfold Math_max in *. lia.
    + pose proof (Math_max_ge (Z.max x y) zs). unfold Math_max in *. lia.
    + apply IH. simpl. auto.
Qed.

Lemma Math_max_attained x xs : In (Math_max x xs) (x :: xs).
Proof.
  unfold Math_max. revert x. induction xs as [|z zs IH]; intros x; simpl.
  - auto.
  - destruct (IH (Z.max x z)) as [H|H]; [|auto].
    rewrite <- H. destruct (Z.max_spec x z) as [[_ ->]|[_ ->]]; auto.
Qed.

Lemma nonempty_trim s :
  (0 <? String.length (trim s)) = true <-> trim s <> EmptyString.
Proof.
  destruct (trim s); simpl; split; intros H; try discriminate; try reflexivity.
  now contradiction H.
Qed.

Lemma isNewSegment_spec cursor seg :
  isNewSegment cursor seg = true <->
  (cursor < end_ seg)%Z /\ trim (text seg) <> EmptyString.
Proof.
  unfold isNewSegment. now rewrite andb_true_iff, Z.ltb_lt, nonempty_trim.
Qed.

(** C8.  Under the time-based cursor the segments a poll hands on are
    exactly those with end time strictly greater than the cursor and
    non-empty trimmed text; when there are some, the cursor after the poll
    is the maximum end time among them, and they are what the user turn
    sent to the model is built from; when there are none, the poll changes
    nothing and touches nothing outside. *)
Theorem processNewSegments_time_cursor (segments : list TranscriptSegment)
  (st : State) :
  let emitted := filter (isNewSegment (lastProcessedTime st)) segments in
  let st' := fst (processNewSegments segments st) in
  (forall seg,
      In seg emitted <->
      In seg segments /\ (lastProcessedTime st < end_ seg)%Z /\
      trim (text seg) <> EmptyString) /\
  (emitted = [] -> processNewSegments segments st = (st, inr tt)) /\
  (emitted <> [] ->
     (exists seg, In seg emitted /\ lastProcessedTime st' = end_ seg) /\
     (forall seg, In seg emitted -> (end_ seg <= lastProcessedTime st')%Z) /\
     (exists sent reply later earlier,
         trace st' = trace st ++ ModelCall sent reply :: later /\
         sent = earlier ++
                [userMessage (transcriptText emitted) (next_oid st)])).
Proof.
  intros emitted st'. split; [|split].
  - intros seg. unfold emitted. now rewrite filter_In, isNewSegment_spec.
  - intros Hnone. rewrite processNewSegments_run. fold emitted.
    now rewrite Hnone.
  - intros Hsome. unfold st'. rewrite processNewSegments_run. fold emitted.
    destruct emitted as [|first others] eqn:Hem; [congruence|]. simpl fst.
    rewrite afterRespond_lastProcessedTime. simpl lastProcessedTime.
    split; [|split].
    + destruct (Math_max_attained (end_ first) (map end_ others)) as [H|H].
      * exists first. simpl. auto.
      * apply in_map_iff in H as (seg & Hseg & Hin). exists seg. simpl. auto.
    + intros seg Hin. apply Math_max_upper.
      change (In (end_ seg) (map end_ (first :: others))). now apply in_map.
    + destruct (afterRespond_trace (cycleStart first others st)) as (later & Ht).
      rewrite Ht. simpl trace.
      destruct (cycleStart_messages first others st) as (earlier & Hsent).
      exists (repairMessages (messages (cycleStart first others st))),
        (snd (modelReply (cycleStart first others st))), later, earlier.
      split; [reflexivity | exact Hsent].
Qed.


(** *** How a cycle ends *)

Lemma Attempts_no_model_call w calls evs w' :
  Attempts w calls evs w' ->
  modelCalls evs = [] /\ sinceLastModelCall evs = None.
Proof.
  induction 1 as [|w call calls evs w' _ [IH1 IH2]]; simpl; [auto|].
  now rewrite IH2.
Qed.

Lemma sinceLastModelCall_app a b :
  sinceLastModelCall (a ++ b) =
  match sinceLastModelCall b with
  | Some found => Some found
  | None =>
      match sinceLastModelCall a with
      | Some (reply, after) => Some (reply, after ++ b)
      | None => None
      end
  end.
Proof.
  induction a as [|ev a IH]; simpl.
  - now destruct (sinceLastModelCall b).
  - rewrite IH. destruct (sinceLastModelCall b); [reflexivity|].
    destruct (sinceLastModelCall a) as [[reply after]|]; [reflexivity|].
    now destruct ev.
Qed.

Lemma sinceLastModelCall_ends before sent reply executed :
  sinceLastModelCall executed = None ->
  sinceLastModelCall (before ++ ModelCall sent reply :: executed) =
  Some (reply, executed).
Proof.
  intros H. rewrite sinceLastModelCall_app. simpl. now rewrite H.
Qed.

Lemma modelCalls_app a b : modelCalls (a ++ b) = modelCalls a ++ modelCalls b.
Proof. apply filter_app. Qed.

(** What one model round-trip, with the execution of the tools it
    requests, adds to a cycle that is at [st]. *)
Definition roundTrip (st st' : State) (reply : Exception + list ChatMessage)
  (executed : list Event) : Prop :=
  trace st' =
    trace st ++ ModelCall (repairMessages (messages st)) reply :: executed /\
  match reply with
  | inr (message :: _) =>
      match message_tool_calls message with
      | None =>
          executed = [] /\
          exists earlier o, messages st' = earlier ++ [assistantMessage message o]
      | Some calls =>
          exists w w' results earlier o,
            Attempts w calls executed w' /\
            Forall2 answers executed results /\
            messages st' = earlier ++ assistantMessage message o :: results
      end
  | _ => executed = []
  end.

Lemma roundTrip_no_model_call st st' reply executed :
  roundTrip st st' reply executed ->
  modelCalls executed = [] /\ sinceLastModelCall executed = None.
Proof.
  intros [_ H]. destruct reply as [e|[|m rest]]; try (subst; now split).
  destruct (message_tool_calls m).
  - destruct H as (w & w' & ? & ? & ? & Hatt & _).
    eapply Attempts_no_model_call; eauto.
  - destruct H as [-> _]. now split.
Qed.

Lemma pushed_tools_roundTrip st m calls rest :
  snd (modelReply st) = inr (m :: rest) ->
  message_tool_calls m = Some calls ->
  exists executed,
    roundTrip st
      (afterToolCalls calls (pushed (assistantMessage m) (afterModelCall st)))
      (inr (m :: rest)) executed /\
    trace (afterToolCalls calls (pushed (assistantMessage m) (afterModelCall st)))
    = trace st ++ ModelCall (repairMessages (messages st)) (inr (m :: rest))
              :: executed.
Proof.
  intros Hr Hc.
  destruct (afterToolCalls_spec calls
              (pushed (assistantMessage m) (afterModelCall st)))
    as (evs & results & Hatt & Htr & Hmsg & Hans & _).
  simpl in Htr, Hmsg. rewrite Hr, <- app_assoc in Htr. simpl in Htr.
  exists evs. split; [split|]; try exact Htr.
  rewrite Hc. do 5 eexists. split; [exact Hatt|]. split; [exact Hans|].
  rewrite Hmsg, <- app_assoc. reflexivity.
Qed.

Lemma afterFollowUp_roundTrip st :
  exists executed,
    roundTrip st (afterFollowUp st) (snd (modelReply st)) executed.
Proof.
  unfold afterFollowUp.
  destruct (snd (modelReply st)) as [e|[|m rest]] eqn:Hr.
  - exists []. split; [simpl; now rewrite Hr | reflexivity].
  - exists []. split; [simpl; now rewrite Hr | reflexivity].
  - simpl. destruct (message_tool_calls m) as [calls|] eqn:Hc.
    + destruct (pushed_tools_roundTrip st m calls rest Hr Hc) as (ex & H & _).
      eauto.
    + exists []. split; [simpl; now rewrite Hr|]. rewrite Hc.
      split; [reflexivity|]. simpl. eauto.
Qed.


(** C4 (as amended).  A cycle always returns, after at most two model
    round-trips (the initial call and at most one follow-up).  It stops in
    one of these ways: no model call at all (no new segment, nothing
    changed); right after a failed model call; [Final], the last reply
    requesting no tool, being the last event of the cycle and the last turn
    of the log; or, when the follow-up reply requests tools again, with
    those requests executed and answered in the log and no further model
    call. *)
Theorem processNewSegments_stops_after_two_round_trips
  (segments : list TranscriptSegment) (st : State) :
  exists st' evs,
    processNewSegments segments st = (st', inr tt) /\
    trace st' = trace st ++ evs /\
    length (modelCalls evs) <= 2 /\
    match cycleEnd evs with
    | Idle => st' = st
    | Failed =>
        exists before sent reply, evs = before ++ [ModelCall sent reply]
    | Final message =>
        exists before sent rest earlier o,
          evs = before ++ [ModelCall sent (inr (message :: rest))] /\
          messages st' = earlier ++ [assistantMessage message o]
    | HasToolRequests message calls executed =>
        length (modelCalls evs) = 2 /\
        exists w w' results earlier o,
          Attempts w calls executed w' /\
          Forall2 answers executed results /\
          messages st' = earlier ++ assistantMessage message o :: results
    end.
Proof.
  rewrite processNewSegments_run.
  destruct (filter (isNewSegment (lastProcessedTime st)) segments)
    as [|first others].
  { exists st, []. rewrite app_nil_r. simpl. repeat split. lia. }
  remember (cycleStart first others st) as s0 eqn:Hs0.
  assert (Ht0 : trace s0 = trace st) by (subst s0; reflexivity).
  clear Hs0. exists (afterRespond s0). unfold afterRespond.
  destruct (snd (modelReply s0)) as [e|[|m rest]] eqn:Hr1.
  - exists [ModelCall (repairMessages (messages s0)) (inl e)].
    split; [reflexivity|]. split.
    + destruct (isRoleSequenceError e); simpl; now rewrite Hr1, Ht0.
    + split; [simpl; lia|]. simpl. exists []. simpl. eauto.
  - exists [ModelCall (repairMessages (messages s0)) (inr [])].
    split; [reflexivity|]. split; [simpl; now rewrite Hr1, Ht0|].
    split; [simpl; lia|]. simpl. exists []. simpl. eauto.
  - cbv zeta. destruct (message_tool_calls m) as [calls|] eqn:Hc.
    + destruct (pushed_tools_roundTrip s0 m calls rest Hr1 Hc)
        as (ex1 & Hrt1 & Htr1).
      set (s3 := afterToolCalls calls
                   (pushed (assistantMessage m) (afterModelCall s0))) in *.
      destruct (afterFollowUp_roundTrip s3) as (ex2 & Hrt2).
      destruct (roundTrip_no_model_call _ _ _ _ Hrt1) as [Hm1 Hs1].
      destruct (roundTrip_no_model_call _ _ _ _ Hrt2) as [Hm2 Hs2].
      destruct Hrt2 as [Htr2 Hend].
      set (sent1 := repairMessages (messages s0)) in *.
      set (sent2 := repairMessages (messages s3)) in *.
      set (r2 := snd (modelReply s3)) in *.
      exists (ModelCall sent1 (inr (m :: rest)) :: ex1 ++
              ModelCall sent2 r2 :: ex2).
      split; [reflexivity|]. split.
      { rewrite Htr2, Htr1, Ht0, <- app_assoc. reflexivity. }
      assert (Hcount :
                length (modelCalls (ModelCall sent1 (inr (m :: rest)) :: ex1 ++
                                    ModelCall sent2 r2 :: ex2)) = 2).
      { simpl. rewrite modelCalls_app. simpl. now rewrite Hm1, Hm2. }
      split; [lia|].
      unfold cycleEnd.
      change (ModelCall sent1 (inr (m :: rest)) :: ex1 ++
              ModelCall sent2 r2 :: ex2)
        with ((ModelCall sent1 (inr (m :: rest)) :: ex1) ++
              ModelCall sent2 r2 :: ex2).
      rewrite (sinceLastModelCall_ends
                 (ModelCall sent1 (inr (m :: rest)) :: ex1) sent2 r2 ex2 Hs2).
      destruct r2 as [e2|[|m2 rest2]].
      * subst ex2.
        exists (ModelCall sent1 (inr (m :: rest)) :: ex1), sent2, (inl e2).
        reflexivity.
      * subst ex2.
        exists (ModelCall sent1 (inr (m :: rest)) :: ex1), sent2, (inr []).
        reflexivity.
      * destruct (message_tool_calls m2) as [calls2|].
        -- split; [exact Hcount | exact Hend].
        -- destruct Hend as (-> & earlier & o & Hmsg).
           exists (ModelCall sent1 (inr (m :: rest)) :: ex1), sent2, rest2,
             earlier, o.
           split; [reflexivity | exact Hmsg].
    + exists [ModelCall (repairMessages (messages s0)) (inr (m :: rest))].
      split; [reflexivity|]. split; [simpl; now rewrite Hr1, Ht0|].
      split; [simpl; lia|].
      unfold cycleEnd. simpl. rewrite Hc.
      exists [], (repairMessages (messages s0)), rest,
        (repairMessages (messages s0)), (next_oid s0).
      split; reflexivity.
Qed.


(** *** The reset after a rejected request *)

Lemma app_cons_not_self {A} (l : list A) (x : A) (r : list A) :
  l = l ++ x :: r -> False.
Proof.
  intros H. apply (f_equal (@length A)) in H.
  rewrite length_app in H. simpl in H. lia.
Qed.

Lemma resetMessages_ends s mid u : resetMessages (s :: mid ++ [u]) = [s; u].
Proof.
  unfold resetMessages. f_equal. f_equal.
  change (s :: mid ++ [u]) with ((s :: mid) ++ [u]). apply last_last.
Qed.

Lemma lone_model_call (a b a' b' : list Event) (x : Event)
  (sent : list Message) (result : Exception + list ChatMessage) :
  modelCalls a = [] -> modelCalls b = [] -> isModelCall x = true ->
  a ++ x :: b = a' ++ ModelCall sent result :: b' ->
  a = a' /\ x = ModelCall sent result /\ b = b'.
Proof.
  revert a'. induction a as [|y a IH]; intros a' Ha Hb Hx Heq.
  - destruct a' as [|y' a']; simpl in Heq.
    + inversion Heq; subst. auto.
    + exfalso. inversion Heq; subst.
      assert (Hin : In (ModelCall sent result)
                       (modelCalls (a' ++ ModelCall sent result :: b'))).
      { apply filter_In. split; [|reflexivity].
        apply in_or_app. right. simpl. auto. }
      rewrite Hb in Hin. exact Hin.
  - simpl in Ha. destruct a' as [|y' a']; simpl in Heq.
    + inversion Heq; subst. simpl in Ha. discriminate.
    + inversion Heq; subst.
      destruct (isModelCall y') eqn:Hy; [discriminate|].
      destruct (IH a' Ha Hb Hx H1) as (-> & -> & ->). auto.
Qed.

Lemma repairMessages_around s kept u a results :
  is_tool s = false -> is_tool u = false -> is_tool a = false ->
  exists kept' results',
    repairMessages (s :: kept ++ u :: a :: results) =
    s :: kept' ++ u :: a :: results'.
Proof.
  intros Hs Hu Ha. unfold repairMessages.
  destruct (validateMessages (s :: kept ++ u :: a :: results)); [eauto|].
  simpl. rewrite keepMessage_not_tool by exact Hs.
  rewrite filter_app. simpl.
  rewrite keepMessage_not_tool by exact Hu.
  rewrite keepMessage_not_tool by exact Ha. eauto.
Qed.

Lemma afterToolCalls_appends calls st :
  exists results,
    messages (afterToolCalls calls st) = messages st ++ results.
Proof.
  destruct (afterToolCalls_spec calls st) as (? & results & _ & _ & H & _).
  eauto.
Qed.

Lemma afterFollowUp_appends st :
  exists more,
    messages (afterFollowUp st) = repairMessages (messages st) ++ more.
Proof.
  unfold afterFollowUp.
  destruct (snd (modelReply st)) as [e|[|m rest]];
    try (exists []; simpl; now rewrite app_nil_r).
  cbv zeta. destruct (message_tool_calls m) as [calls|].
  - destruct (afterToolCalls_appends calls
                (pushed (assistantMessage m) (afterModelCall st)))
      as (results & ->).
    simpl. rewrite <- app_assoc. eauto.
  - simpl. eauto.
Qed.

(** C6 (as amended).  On a log that starts with the system turn, the reset
    belongs to the initial model call of a cycle alone.  When that call
    fails, the log sent was the system turn, some kept turns and the user
    turn just built from the new segments, and nothing else happens in the
    cycle; if the error is an [Error] whose message contains
    ["messages with role 'tool'"], the log is reduced to exactly the system
    turn followed by that user turn, and otherwise the log is left as it
    was sent.  When the initial call returns, no error that follows resets
    the log: a later model call that fails -- with whatever error, that of
    an invalid role sequence included -- ends the cycle with the log
    exactly as it was sent in that call, and the system turn, the user
    turn and the assistant turn of the first reply all stay. *)
Theorem only_initial_model_error_resets_log
  (segments : list TranscriptSegment) (st : State)
  (systemTurn : Message) (earlier : list Message) (evs : list Event) :
  messages st = systemTurn :: earlier ->
  role systemTurn = system ->
  trace (fst (processNewSegments segments st)) = trace st ++ evs ->
  (forall sent error later,
      evs = ModelCall sent (inl error) :: later ->
      exists kept userTurn,
        role userTurn = user /\
        content userTurn =
          Some (transcriptText
                  (filter (isNewSegment (lastProcessedTime st)) segments)) /\
        sent = systemTurn :: kept ++ [userTurn] /\
        later = [] /\
        (isRoleSequenceError error = true ->
         messages (fst (processNewSegments segments st))
         = [systemTurn; userTurn]) /\
        (isRoleSequenceError error = false ->
         messages (fst (processNewSegments segments st)) = sent)) /\
  (forall sent reply later,
      evs = ModelCall sent (inr reply) :: later ->
      (forall before sent2 error after,
          later = before ++ ModelCall sent2 (inl error) :: after ->
          after = [] /\
          messages (fst (processNewSegments segments st)) = sent2) /\
      (forall message rest,
          reply = message :: rest ->
          exists kept userTurn kept' o more,
            role userTurn = user /\
            sent = systemTurn :: kept ++ [userTurn] /\
            messages (fst (processNewSegments segments st)) =
              systemTurn :: kept' ++
              userTurn :: assistantMessage message o :: more)).
Proof.
  intros Hlog Hsys. rewrite processNewSegments_run.
  destruct (filter (isNewSegment (lastProcessedTime st)) segments)
    as [|first others].
  { simpl. intros H. rewrite <- (app_nil_r (trace st)) in H at 1.
    apply app_inv_head in H. subst evs. split; intros; discriminate. }
  simpl fst.
  set (u := userMessage (transcriptText (first :: others)) (next_oid st)).
  assert (Hs : is_tool systemTurn = false)
    by (unfold is_tool; now rewrite Hsys).
  assert (Hstart : exists kept,
             repairMessages (messages (cycleStart first others st)) =
             systemTurn :: kept ++ [u]).
  { unfold cycleStart, withMessages, pushed. cbn [messages next_oid].
    rewrite Hlog. fold u. rewrite <- app_comm_cons.
    destruct (truncateMessages_ends systemTurn earlier u) as (mid & Hmid).
    rewrite Hmid.
    apply repairMessages_ends; [exact Hs | reflexivity]. }
  destruct Hstart as (kept & Hkept).
  remember (cycleStart first others st) as s0 eqn:Hs0.
  assert (Ht0 : trace s0 = trace st) by (subst s0; reflexivity).
  clear Hs0. intros Htrace.
  destruct (afterRespond_trace s0) as (rest0 & Hfirst).
  assert (Hevs : evs = ModelCall (repairMessages (messages s0))
                         (snd (modelReply s0)) :: rest0).
  { rewrite Hfirst, Ht0 in Htrace. now apply app_inv_head in Htrace. }
  clear Htrace. unfold afterRespond in *.
  destruct (snd (modelReply s0)) as [e|[|m rest]] eqn:Hr1.
  - (* the initial call fails *)
    assert (Hrest0 : rest0 = []).
    { destruct (isRoleSequenceError e); simpl in Hfirst;
        rewrite Hr1 in Hfirst; apply app_inv_head in Hfirst;
        now inversion Hfirst. }
    subst rest0. split.
    + intros sent error later Heq. rewrite Hevs in Heq.
      inversion Heq; subst sent error later.
      exists kept, u. split; [reflexivity|]. split; [reflexivity|].
      split; [exact Hkept|]. split; [reflexivity|].
      destruct (isRoleSequenceError e).
      * split; [|discriminate]. intros _.
        simpl. rewrite Hkept. apply resetMessages_ends.
      * split; [discriminate|]. intros _. reflexivity.
    + intros sent reply later Heq. rewrite Hevs in Heq. discriminate.
  - (* the initial reply has no choice *)
    assert (Hrest0 : rest0 = []).
    { simpl in Hfirst. rewrite Hr1 in Hfirst.
      apply app_inv_head in Hfirst. now inversion Hfirst. }
    subst rest0. split.
    + intros sent error later Heq. rewrite Hevs in Heq. discriminate.
    + intros sent reply later Heq. rewrite Hevs in Heq.
      inversion Heq; subst sent reply later. split.
      * intros before sent2 error after H. now destruct before.
      * intros message rest H. discriminate.
  - (* the initial reply carries a message *)
    split.
    { intros sent error later Heq. rewrite Hevs in Heq. discriminate. }
    intros sent reply later Heq. rewrite Hevs in Heq.
    inversion Heq; subst sent reply later. clear Heq.
    cbv zeta in *. destruct (message_tool_calls m) as [calls|] eqn:Hc.
    + destruct (pushed_tools_roundTrip s0 m calls rest Hr1 Hc)
        as (ex1 & Hrt1 & Htr1).
      destruct (roundTrip_no_model_call _ _ _ _ Hrt1) as [Hnone1 _].
      destruct (afterToolCalls_appends calls
                  (pushed (assistantMessage m) (afterModelCall s0)))
        as (results & Hmsg3).
      set (s3 := afterToolCalls calls
                   (pushed (assistantMessage m) (afterModelCall s0))) in *.
      destruct (afterFollowUp_roundTrip s3) as (ex2 & Hrt2).
      destruct (roundTrip_no_model_call _ _ _ _ Hrt2) as [Hnone2 _].
      assert (Hrest0 : rest0 = ex1 ++ ModelCall (repairMessages (messages s3))
                                        (snd (modelReply s3)) :: ex2).
      { destruct Hrt2 as [Htr2 _]. rewrite Htr2, Htr1 in Hfirst.
        rewrite <- app_assoc in Hfirst. apply app_inv_head in Hfirst.
        simpl in Hfirst. now inversion Hfirst. }
      split.
      * intros before sent2 error after Hlater. rewrite Hrest0 in Hlater.
        destruct (lone_model_call ex1 ex2 before after
                    (ModelCall (repairMessages (messages s3))
                               (snd (modelReply s3)))
                    sent2 (inl error) Hnone1 Hnone2 eq_refl Hlater)
          as (_ & Hcall & <-).
        inversion Hcall as [[Hsent Hreply]].
        destruct Hrt2 as [_ Hend]. rewrite Hreply in Hend.
        split; [exact Hend|].
        unfold afterFollowUp. now rewrite Hreply.
      * intros message rest' Hm. inversion Hm; subst message rest'.
        destruct (afterFollowUp_appends s3) as (more & Hmore).
        assert (Hm3 : messages s3 =
                      systemTurn :: kept ++
                      u :: assistantMessage m (next_oid s0) :: results).
        { rewrite Hmsg3. simpl. rewrite Hkept. simpl.
          rewrite <- !app_assoc. reflexivity. }
        destruct (repairMessages_around systemTurn kept u
                    (assistantMessage m (next_oid s0)) results
                    Hs eq_refl eq_refl) as (kept' & results' & Hrep).
        exists kept, u, kept', (next_oid s0), (results' ++ more).
        split; [reflexivity|]. split; [exact Hkept|].
        rewrite Hmore, Hm3, Hrep. simpl. rewrite <- app_assoc. reflexivity.
    + assert (Hrest0 : rest0 = []).
      { simpl in Hfirst. rewrite Hr1 in Hfirst.
        apply app_inv_head in Hfirst. now inversion Hfirst. }
      subst rest0. split.
      * intros before sent2 error after H. now destruct before.
      * intros message rest' Hm. inversion Hm; subst message rest'.
        exists kept, u, kept, (next_oid s0), [].
        split; [reflexivity|]. split; [exact Hkept|].
        simpl. rewrite Hkept. simpl. rewrite <- app_assoc. reflexivity.
Qed.

End DriverFacts.

(** *** A scripted outside for concrete runs *)

(** The model endpoint answers from a script, one entry per request; the
    tool gateway always answers ["12:00"]; arguments parse unless they are
    the empty string. *)
Definition syntaxError : Exception :=
  {| instanceof_Error := true;
     error_message := Some "Unexpected end of JSON input"%string |}.

Definition connectionError : Exception :=
  {| instanceof_Error := true;
     error_message := Some "Connection error."%string |}.

Definition roleSequenceError : Exception :=
  {| instanceof_Error := true;
     error_message :=
       Some "400 Invalid parameter: messages with role 'tool' must be a response to a preceeding message with 'tool_calls'."%string |}.

Definition scripted : Environment :=
  {| World := list (Exception + list ChatMessage);
     JSON := string;
     ToolResult := string;
     JSON_parse := fun s =>
       if String.eqb s EmptyString then inl syntaxError else inr s;
     chat_completions_create := fun w _ =>
       match w with
       | [] => ([], inl connectionError)
       | reply :: rest => (rest, reply)
       end;
     mcp_callTool := fun w _ _ => (w, inr "12:00"%string);
     stringifyContent := fun r => r |}.

Definition hello : TranscriptSegment :=
  {| text := "hello Bot"; start := 0; end_ := 5; speaker := Some "Alice"%string |}.

Definition fresh (script : list (Exception + list ChatMessage))
  : @State scripted :=
  @Build_State scripted 0 [sys0] 1 script [].

Definition requests (call : ToolCall) : ChatMessage :=
  {| message_content := None; message_tool_calls := Some [call] |}.

Definition says (c : string) : ChatMessage :=
  {| message_content := Some c; message_tool_calls := None |}.

Definition call_t2 : ToolCall :=
  {| call_id := "t2"; function_name := "get_time"; function_arguments := "{}" |}.

Definition call_bad : ToolCall :=
  {| call_id := "t3"; function_name := "get_time"; function_arguments := "" |}.

Definition helloTurn : Message := userMessage "Alice: hello Bot" 1.

Definition answered (call : ToolCall) : @Event scripted :=
  @ToolAttempt scripted call (inr "12:00"%string).

Definition rejected (sent : list Message) : @Event scripted :=
  @ModelCall scripted sent (inl roleSequenceError).

(** C4 (counterexample).  The model requests a tool in its first reply
    and again in its follow-up reply: the cycle stops with the results of
    the second batch appended and no further model call -- an unresolved
    [HasToolRequests] state, neither [Final] nor a truncation notice. *)
Lemma cycle_can_stop_with_unanswered_results :
  let st' := fst (@processNewSegments scripted [hello]
                    (fresh [inr [requests call_t1]; inr [requests call_t2]])) in
  cycleEnd (trace st') =
    HasToolRequests (requests call_t2) [call_t2] [answered call_t2] /\
  length (modelCalls (trace st')) = 2 /\
  messages st' =
    [ sys0; helloTurn;
      assistantMessage (requests call_t1) 2; toolMessage "t1" "12:00" 3;
      assistantMessage (requests call_t2) 4; toolMessage "t2" "12:00" 5 ] /\
  last (trace st') (answered call_t1) = answered call_t2.
Proof. vm_compute. repeat split. Qed.

(** C6 (counterexample).  The follow-up model call fails with an error
    whose message indicates an invalid role sequence; it is caught by the
    inner handler and the log keeps all four entries. *)
Lemma follow_up_error_does_not_reset :
  let st' := fst (@processNewSegments scripted [hello]
                    (fresh [inr [requests call_t1]; inl roleSequenceError])) in
  isRoleSequenceError roleSequenceError = true /\
  (exists sent, In (rejected sent) (trace st')) /\
  messages st' =
    [ sys0; helloTurn;
      assistantMessage (requests call_t1) 2; toolMessage "t1" "12:00" 3 ] /\
  length (messages st') = 4.
Proof.
  vm_compute. split; [reflexivity|]. split; [|split; reflexivity].
  eexists. right. right. left. reflexivity.
Qed.

(** The events of a cycle whose follow-up request is rejected. *)
Definition followUpRejected_events : list (@Event scripted) :=
  [ @ModelCall scripted [sys0; helloTurn] (inr [requests call_t1]);
    answered call_t1;
    rejected [ sys0; helloTurn; assistantMessage (requests call_t1) 2;
               toolMessage "t1" "12:00" 3 ] ].

(** C6 (as amended) on two runs: one whose only model call is rejected, and
    one whose follow-up call is rejected with the same error. *)
Lemma only_initial_model_error_resets_log_witness :
  let rejectedAtOnce := fresh [inl roleSequenceError] in
  let rejectedLater := fresh [inr [requests call_t1]; inl roleSequenceError] in
  (messages rejectedAtOnce = sys0 :: [] /\ role sys0 = system /\
   trace (fst (@processNewSegments scripted [hello] rejectedAtOnce)) =
     trace rejectedAtOnce ++ [rejected [sys0; helloTurn]]) /\
  (messages rejectedLater = sys0 :: [] /\
   trace (fst (@processNewSegments scripted [hello] rejectedLater)) =
     trace rejectedLater ++ followUpRejected_events) /\
  isRoleSequenceError roleSequenceError = true /\
  (exists kept userTurn,
      role userTurn = user /\
      [sys0; helloTurn] = sys0 :: kept ++ [userTurn] /\
      messages (fst (@processNewSegments scripted [hello] rejectedAtOnce))
      = [sys0; userTurn]) /\
  messages (fst (@processNewSegments scripted [hello] rejectedLater)) =
    [ sys0; helloTurn; assistantMessage (requests call_t1) 2;
      toolMessage "t1" "12:00" 3 ].
Proof.
  cbv zeta.
  split; [repeat split|]. split; [repeat split|]. split; [reflexivity|].
  split.
  - destruct (@only_initial_model_error_resets_log scripted [hello]
                (fresh [inl roleSequenceError]) sys0 []
                [rejected [sys0; helloTurn]] eq_refl eq_refl eq_refl)
      as [Hinitial _].
    destruct (Hinitial [sys0; helloTurn] roleSequenceError [] eq_refl)
      as (kept & userTurn & Hrole & _ & Hsent & _ & Hreset & _).
    exists kept, userTurn. split; [exact Hrole|]. split; [exact Hsent|].
    exact (Hreset eq_refl).
  - destruct (@only_initial_model_error_resets_log scripted [hello]
                (fresh [inr [requests call_t1]; inl roleSequenceError]) sys0 []
                followUpRejected_events eq_refl eq_refl eq_refl)
      as [_ Hlater].
    destruct (Hlater [sys0; helloTurn] [requests call_t1]
                [ answered call_t1;
                  rejected [ sys0; helloTurn;
                             assistantMessage (requests call_t1) 2;
                             toolMessage "t1" "12:00" 3 ] ] eq_refl)
      as [Hfail _].
    exact (proj2 (Hfail [answered call_t1]
                    [ sys0; helloTurn; assistantMessage (requests call_t1) 2;
                      toolMessage "t1" "12:00" 3 ]
                    roleSequenceError [] eq_refl)).
Defined.

(** A batch in which the second request fails to parse: both requests are
    answered, the failed one with the error payload. *)
Example executeToolCalls_after_failure :
  messages (fst (@executeToolCalls scripted [call_t1; call_bad; call_t2]
                   (fresh []))) =
  [ sys0; toolMessage "t1" "12:00" 1; toolMessage "t3" errorPayload 2;
    toolMessage "t2" "12:00" 3 ] /\
  snd (@executeToolCalls scripted [call_t1; call_bad; call_t2] (fresh []))
  = inr tt.
Proof. split; reflexivity. Qed.

End Driver.

(** ** The transcript cursors *)

Module Cursor.
Import CursorSpec.

Lemma last_cons {A} (a d : A) (l : list A) : last (a :: l) d = last l a.
Proof.
  revert a d. induction l as [|b l IH]; intros a d; [reflexivity|].
  change (last (a :: b :: l) d) with (last (b :: l) d).
  now rewrite !IH.
Qed.



(** *** Count-based cursor of the debounced client *)

Section CountCursor.
Variable DEBOUNCE_DELAY : Z.


Lemma fireDue_lastSegmentCount now st :
  Client.lastSegmentCount (Client.fireDue now st) = Client.lastSegmentCount st.
Proof. reflexivity. Qed.




End CountCursor.

(** *** Time-based cursor of the agent *)

Section TimeCursor.
Context {E : Agent.Environment}.
Import Agent Driver.

Lemma processNewSegments_same_filter poll poll' st :
  filter (isNewSegment (lastProcessedTime st)) poll =
  filter (isNewSegment (lastProcessedTime st)) poll' ->
  processNewSegments poll st = processNewSegments poll' st.
Proof.
  intros H. rewrite !processNewSegments_run. now rewrite H.
Qed.




End TimeCursor.






Definition seg1 : Client.Segment :=
  {| Client.text := "hello Bot"; Client.start := 0; Client.end_ := 5;
     Client.speaker := "Alice"; Client.role := "participant" |}.

Definition seg2 : Client.Segment :=
  {| Client.text := "are you there"; Client.start := 6; Client.end_ := 8;
     Client.speaker := "Alice"; Client.role := "participant" |}.

Definition seg3 : Client.Segment :=
  {| Client.text := "hi"; Client.start := 9; Client.end_ := 10;
     Client.speaker := "Bob"; Client.role := "participant" |}.

(** Three polls less than a second apart, each bringing one more segment. *)
Definition burst : list (Z * Client.Event) :=
  [ (0%Z, Client.ReadResolved [seg1]);
    (400%Z, Client.ReadResolved [seg1; seg2]);
    (900%Z, Client.ReadResolved [seg1; seg2; seg3]) ].



End Cursor.

(** ** The debounce timer *)

Module Debounce.
Import Client DebounceSpec.
Import CursorSpec.

Section DebounceFacts.
Variable DEBOUNCE_DELAY : Z.

#[local] Abbreviation onSegments := (Client.onSegments DEBOUNCE_DELAY).
#[local] Abbreviation handleEvent := (Client.handleEvent DEBOUNCE_DELAY).
#[local] Abbreviation step := (Client.step DEBOUNCE_DELAY).
#[local] Abbreviation run := (Client.run DEBOUNCE_DELAY).

Definition userMessages (st : State) : list Message :=
  filter isUserMessage (messages st).

Lemma run_cons st te events : run (te :: events) st = run events (step st te).
Proof. reflexivity. Qed.

Lemma onSegments_no_arrival now segments st :
  (lastSegmentCount st <? length segments) = false ->
  onSegments now segments st = st.
Proof. intros H. unfold Client.onSegments. now rewrite H. Qed.

Lemma onSegments_arrival now segments st :
  (lastSegmentCount st <? length segments) = true ->
  timers (onSegments now segments st) =
    match debounceTimer st with
    | Some h => filter (fun tm => negb (Nat.eqb (handle tm) h)) (timers st)
    | None => timers st
    end ++ [{| handle := next_handle st; due := (now + DEBOUNCE_DELAY)%Z |}] /\
  debounceTimer (onSegments now segments st) = Some (next_handle st) /\
  lastSegmentCount (onSegments now segments st) = length segments /\
  cycles (onSegments now segments st) = cycles st.
Proof.
  intros H. unfold Client.onSegments. rewrite H.
  destruct (debounceTimer st); simpl; auto.
Qed.

(** What an event that is not an arrival leaves alone. *)
Lemma handleEvent_quiet now e st :
  arrivalTimes (lastSegmentCount st) [(now, e)] = [] ->
  timers (handleEvent now e st) = timers st /\
  debounceTimer (handleEvent now e st) = debounceTimer st /\
  lastSegmentCount (handleEvent now e st) = lastSegmentCount st /\
  cycles (handleEvent now e st) = cycles st /\
  userMessages (handleEvent now e st) = userMessages st.
Proof.
  destruct e as [segments| |text|]; simpl; auto.
  - destruct (lastSegmentCount st <? length segments) eqn:Hlt; [discriminate|].
    intros _. rewrite onSegments_no_arrival by exact Hlt. auto.
  - intros _. unfold userMessages. simpl. rewrite filter_app. simpl.
    rewrite app_nil_r. auto.
Qed.

Lemma arrivalTimes_cons count t e later :
  arrivalTimes count ((t, e) :: later) =
  arrivalTimes count [(t, e)] ++
  arrivalTimes (match e with
                | ReadResolved segments =>
                    if count <? length segments then length segments else count
                | _ => count
                end) later.
Proof.
  destruct e as [segments| |text|]; simpl; auto.
  destruct (count <? length segments); reflexivity.
Qed.

Lemma arrivalTimes_quiet count t e later :
  arrivalTimes count [(t, e)] = [] ->
  arrivalTimes count ((t, e) :: later) = arrivalTimes count later.
Proof.
  intros H. rewrite arrivalTimes_cons, H. simpl.
  destruct e as [segments| |text|]; auto.
  simpl in H. destruct (count <? length segments); [discriminate|reflexivity].
Qed.

Lemma arrivalTimes_one count t e :
  arrivalTimes count [(t, e)] = [] \/
  exists segments,
    e = ReadResolved segments /\ (count <? length segments) = true /\
    arrivalTimes count [(t, e)] = [t].
Proof.
  destruct e as [segments| |text|]; simpl; auto.
  destruct (count <? length segments) eqn:H; [right; eauto | auto].
Qed.

Lemma nondecreasing_weaken lo lo' times :
  (lo <= lo')%Z -> nondecreasing lo' times -> nondecreasing lo times.
Proof. destruct times; simpl; [auto|]. intros ? [? ?]. split; [lia|auto]. Qed.

Lemma arrivalTimes_bounded lo count events t' rest :
  nondecreasing lo (map fst events) ->
  arrivalTimes count events = t' :: rest -> (lo <= t')%Z.
Proof.
  revert lo count. induction events as [|[t e] events IH]; intros lo count Hnd Ha.
  - discriminate.
  - simpl in Hnd. destruct Hnd as [Hlo Hnd].
    destruct (arrivalTimes_one count t e) as [Hq|(segs & -> & Hlt & _)].
    + rewrite (arrivalTimes_quiet _ _ _ _ Hq) in Ha.
      apply (IH lo count); [|exact Ha].
      eapply nondecreasing_weaken; eauto.
    + simpl in Ha. rewrite Hlt in Ha. inversion Ha; subst. exact Hlo.
Qed.

Lemma fireDue_fields_idle now st :
  timers st = [] ->
  timers (fireDue now st) = [] /\ cycles (fireDue now st) = cycles st.
Proof.
  intros H. unfold fireDue. simpl. rewrite H. simpl.
  now rewrite app_nil_r.
Qed.

Lemma fireDue_fields_waiting now st h d :
  timers st = [{| handle := h; due := d |}] -> (now < d)%Z ->
  timers (fireDue now st) = timers st /\ cycles (fireDue now st) = cycles st.
Proof.
  intros H Hlt. unfold fireDue. simpl. rewrite H. simpl. unfold isDue. simpl.
  destruct (d <=? now)%Z eqn:Hd; [apply Z.leb_le in Hd; lia|].
  simpl. now rewrite app_nil_r.
Qed.

Lemma fireDue_fields_due now st h d :
  timers st = [{| handle := h; due := d |}] -> (d <= now)%Z ->
  timers (fireDue now st) = [] /\
  cycles (fireDue now st) =
    cycles st ++ [{| fired := h; fired_at := d; sent := messages st |}].
Proof.
  intros H Hle. unfold fireDue. simpl. rewrite H. simpl. unfold isDue. simpl.
  apply Z.leb_le in Hle. rewrite Hle. simpl. auto.
Qed.

Lemma no_arrivals_run events :
  forall st,
    arrivalTimes (lastSegmentCount st) events = [] ->
    timers st = [] ->
    timers (run events st) = [] /\
    cycles (run events st) = cycles st /\
    debounceTimer (run events st) = debounceTimer st /\
    userMessages (run events st) = userMessages st.
Proof.
  induction events as [|[t e] events IH]; intros st Ha Ht; [simpl; auto|].
  rewrite run_cons. unfold Client.step. simpl fst. simpl snd.
  destruct (fireDue_fields_idle t st Ht) as [Ht1 Hc1].
  assert (Hq : arrivalTimes (lastSegmentCount (fireDue t st)) [(t, e)] = []).
  { change (lastSegmentCount (fireDue t st)) with (lastSegmentCount st).
    rewrite arrivalTimes_cons in Ha. now apply app_eq_nil in Ha. }
  destruct (handleEvent_quiet t e (fireDue t st) Hq)
    as (Ht2 & Hd2 & Hn2 & Hc2 & Hu2).
  destruct (IH (handleEvent t e (fireDue t st))) as (Ht3 & Hc3 & Hd3 & Hu3).
  - rewrite Hn2.
    change (lastSegmentCount (fireDue t st)) with (lastSegmentCount st) in *.
    now rewrite (arrivalTimes_quiet _ _ _ events Hq) in Ha.
  - now rewrite Ht2.
  - rewrite Ht3, Hc3, Hd3, Hu3, Hc2, Hd2, Hu2, Hc1. auto.
Qed.

Lemma last_lower (l : list Z) (a t T : Z) :
  (a <= t)%Z -> (last l t <= T)%Z -> (last l a <= T)%Z.
Proof.
  destruct l as [|x l]; [simpl; lia|].
  intros _. rewrite !Cursor.last_cons. auto.
Qed.


(** What holds once every timer has had time to fire: exactly one more
    cycle was started, by the timer of the last arrival. *)
Definition oneMoreCycle (before : list Cycle) (lastArrival : Z) (final : State)
  : Prop :=
  exists c,
    cycles final = before ++ [c] /\
    fired_at c = (lastArrival + DEBOUNCE_DELAY)%Z /\
    Some (fired c) = debounceTimer final /\
    timers final = [] /\
    filter isUserMessage (sent c) = userMessages final.

Lemma burst_pending events :
  forall st a h,
    timers st = [{| handle := h; due := (a + DEBOUNCE_DELAY)%Z |}] ->
    debounceTimer st = Some h ->
    nondecreasing a (map fst events) ->
    spaced_below DEBOUNCE_DELAY a (arrivalTimes (lastSegmentCount st) events) ->
    forall T,
      (last (arrivalTimes (lastSegmentCount st) events) a + DEBOUNCE_DELAY <= T)%Z ->
      (last (map fst events) a <= T)%Z ->
      oneMoreCycle (cycles st)
        (last (arrivalTimes (lastSegmentCount st) events) a)
        (fireDue T (run events st)).
Proof.
  induction events as [|[t e] events IH];
    intros st a h Htimers Hdeb Hnd Hsp T HT Hlast.
  - simpl in *.
    destruct (fireDue_fields_due T st h _ Htimers HT) as [Ht Hc].
    eexists. split; [exact Hc|]. simpl. repeat split; auto.
  - rewrite run_cons. unfold Client.step. simpl fst. simpl snd.
    simpl map in Hnd, Hlast. destruct Hnd as [Hat Hnd].
    rewrite Cursor.last_cons in Hlast.
    destruct (Z_le_gt_dec (a + DEBOUNCE_DELAY) t) as [Hdue|Hwait].
    + (* the pending timer fires before this event is handled *)
      destruct (fireDue_fields_due t st h _ Htimers Hdue) as [Ht1 Hc1].
      assert (Hnone : arrivalTimes (lastSegmentCount st) ((t, e) :: events) = []).
      { destruct (arrivalTimes (lastSegmentCount st) ((t, e) :: events))
          as [|t' rest] eqn:Ha; [reflexivity|].
        assert (t <= t')%Z.
        { eapply (arrivalTimes_bounded t); [|exact Ha]. simpl. split; [lia|auto]. }
        simpl in Hsp. lia. }
      rewrite Hnone in *. simpl last in *.
      rewrite arrivalTimes_cons in Hnone. apply app_eq_nil in Hnone as [Hq Hn].
      destruct (handleEvent_quiet t e (fireDue t st) Hq)
        as (Ht2 & Hd2 & Hn2 & Hc2 & Hu2).
      destruct (no_arrivals_run events (handleEvent t e (fireDue t st)))
        as (Ht3 & Hc3 & Hd3 & Hu3).
      { rewrite Hn2.
        change (lastSegmentCount (fireDue t st)) with (lastSegmentCount st).
        now rewrite <- (arrivalTimes_quiet _ _ _ events Hq),
          arrivalTimes_cons, Hq, Hn. }
      { now rewrite Ht2. }
      destruct (fireDue_fields_idle T _ Ht3) as [Ht4 Hc4].
      eexists. split; [rewrite Hc4, Hc3, Hc2; exact Hc1|].
      simpl fired_at. simpl fired. simpl sent.
      split; [reflexivity|]. split; [|split; [exact Ht4|]].
      * change (debounceTimer (fireDue T (run events (handleEvent t e (fireDue t st)))))
          with (debounceTimer (run events (handleEvent t e (fireDue t st)))).
        now rewrite Hd3, Hd2.
      * change (userMessages (fireDue T (run events (handleEvent t e (fireDue t st)))))
          with (userMessages (run events (handleEvent t e (fireDue t st)))).
        now rewrite Hu3, Hu2.
    + (* the pending timer is still waiting *)
      assert (Hlt : (t < a + DEBOUNCE_DELAY)%Z) by lia.
      destruct (fireDue_fields_waiting t st h _ Htimers Hlt) as [Ht1 Hc1].
      destruct (arrivalTimes_one (lastSegmentCount st) t e)
        as [Hq|(segments & -> & Hgrow & _)].
      * destruct (handleEvent_quiet t e (fireDue t st) Hq)
          as (Ht2 & Hd2 & Hn2 & Hc2 & _).
        rewrite (arrivalTimes_quiet _ _ _ events Hq) in *.
        rewrite <- Hc1, <- Hc2.
        change (lastSegmentCount (fireDue t st)) with (lastSegmentCount st) in Hn2.
        rewrite <- Hn2 in Hsp, HT |- *.
        assert (E1 : timers (handleEvent t e (fireDue t st)) =
                     [{| handle := h; due := (a + DEBOUNCE_DELAY)%Z |}])
          by (now rewrite Ht2, Ht1).
        assert (E2 : debounceTimer (handleEvent t e (fireDue t st)) = Some h)
          by (now rewrite Hd2).
        assert (E3 : nondecreasing a (map fst events))
          by (eapply nondecreasing_weaken; eauto).
        assert (E4 : (last (map fst events) a <= T)%Z)
          by (eapply last_lower; eauto).
        exact (IH _ a h E1 E2 E3 Hsp T HT E4).
      * simpl arrivalTimes in *. rewrite Hgrow in *.
        rewrite Cursor.last_cons in *. simpl in Hsp. destruct Hsp as [_ Hsp].
        destruct (onSegments_arrival t segments (fireDue t st) Hgrow)
          as (Ht2 & Hd2 & Hn2 & Hc2).
        simpl handleEvent.
        rewrite <- Hc1, <- Hc2. rewrite <- Hn2 in Hsp, HT |- *.
        assert (E1 : timers (onSegments t segments (fireDue t st)) =
                     [{| handle := next_handle (fireDue t st);
                         due := (t + DEBOUNCE_DELAY)%Z |}]).
        { rewrite Ht2.
          change (debounceTimer (fireDue t st)) with (debounceTimer st).
          rewrite Hdeb, Ht1, Htimers. simpl. now rewrite Nat.eqb_refl. }
        exact (IH _ t (next_handle (fireDue t st)) E1 Hd2 Hnd Hsp T HT Hlast).
Qed.

Lemma burst_idle events :
  forall st lo first later,
    timers st = [] ->
    nondecreasing lo (map fst events) ->
    arrivalTimes (lastSegmentCount st) events = first :: later ->
    spaced_below DEBOUNCE_DELAY first later ->
    forall T,
      (last later first + DEBOUNCE_DELAY <= T)%Z ->
      (last (map fst events) lo <= T)%Z ->
      oneMoreCycle (cycles st) (last later first) (fireDue T (run events st)).
Proof.
  induction events as [|[t e] events IH];
    intros st lo first later Htimers Hnd Ha Hsp T HT Hlast; [discriminate|].
  rewrite run_cons. unfold Client.step. simpl fst. simpl snd.
  simpl map in Hnd, Hlast. destruct Hnd as [Hat Hnd].
  rewrite Cursor.last_cons in Hlast.
  destruct (fireDue_fields_idle t st Htimers) as [Ht1 Hc1].
  destruct (arrivalTimes_one (lastSegmentCount st) t e)
    as [Hq|(segments & -> & Hgrow & _)].
  - destruct (handleEvent_quiet t e (fireDue t st) Hq)
      as (Ht2 & Hd2 & Hn2 & Hc2 & _).
    rewrite (arrivalTimes_quiet _ _ _ events Hq) in Ha.
    rewrite <- Hc1, <- Hc2.
    change (lastSegmentCount (fireDue t st)) with (lastSegmentCount st) in Hn2.
    rewrite <- Hn2 in Ha.
    assert (E1 : timers (handleEvent t e (fireDue t st)) = [])
      by (now rewrite Ht2).
    exact (IH _ t first later E1 Hnd Ha Hsp T HT Hlast).
  - simpl in Ha. rewrite Hgrow in Ha. inversion Ha; subst first later.
    destruct (onSegments_arrival t segments (fireDue t st) Hgrow)
      as (Ht2 & Hd2 & Hn2 & Hc2).
    simpl handleEvent. rewrite <- Hc1, <- Hc2. rewrite <- Hn2 in Hsp, HT |- *.
    assert (E1 : timers (onSegments t segments (fireDue t st)) =
                 [{| handle := next_handle (fireDue t st);
                     due := (t + DEBOUNCE_DELAY)%Z |}]).
    { rewrite Ht2, Ht1. now destruct (debounceTimer (fireDue t st)). }
    exact (burst_pending events _ t (next_handle (fireDue t st))
             E1 Hd2 Hnd Hsp T HT Hlast).
Qed.

Lemma last_bounded (l : list Z) (d T : Z) :
  (d <= T)%Z -> (forall t, In t l -> (t <= T)%Z) -> (last l d <= T)%Z.
Proof.
  revert d. induction l as [|x l IH]; intros d Hd H; [exact Hd|].
  rewrite Cursor.last_cons. apply IH; intros; apply H; simpl; auto.
Qed.

(** *** Any history of polls *)

(** The timer table as the debounce logic keeps it: nothing pending, or
    the timer of the arrival at [a], which [debounceTimer] remembers. *)
Definition pending_at (p : option Z) (st : State) : Prop :=
  match p with
  | None => timers st = []
  | Some a =>
      exists h,
        timers st = [{| handle := h; due := (a + DEBOUNCE_DELAY)%Z |}] /\
        debounceTimer st = Some h
  end.

Definition withPending (p : option Z) (arrivals : list Z) : list Z :=
  match p with
  | Some a => a :: arrivals
  | None => arrivals
  end.

#[local] Abbreviation dueTimes := (DebounceSpec.dueTimes DEBOUNCE_DELAY).

Lemma burstEnds_apart a b later :
  (DEBOUNCE_DELAY <= b - a)%Z ->
  burstEnds DEBOUNCE_DELAY (a :: b :: later) =
  a :: burstEnds DEBOUNCE_DELAY (b :: later).
Proof.
  intros H. cbn [burstEnds].
  destruct (b - a <? DEBOUNCE_DELAY)%Z eqn:Hlt; [|reflexivity].
  apply Z.ltb_lt in Hlt. lia.
Qed.

Lemma burstEnds_close a b later :
  (b - a < DEBOUNCE_DELAY)%Z ->
  burstEnds DEBOUNCE_DELAY (a :: b :: later) =
  burstEnds DEBOUNCE_DELAY (b :: later).
Proof.
  intros H. cbn [burstEnds]. apply Z.ltb_lt in H. now rewrite H.
Qed.

Lemma burstEnds_after a lo arrivals :
  (a + DEBOUNCE_DELAY <= lo)%Z ->
  (forall b rest, arrivals = b :: rest -> (lo <= b)%Z) ->
  burstEnds DEBOUNCE_DELAY (a :: arrivals) =
  a :: burstEnds DEBOUNCE_DELAY arrivals.
Proof.
  intros Ha Hlo. destruct arrivals as [|b rest]; [reflexivity|].
  apply burstEnds_apart. specialize (Hlo b rest eq_refl). lia.
Qed.

Lemma burstEnds_rapid later :
  forall first,
    spaced_below DEBOUNCE_DELAY first later ->
    burstEnds DEBOUNCE_DELAY (first :: later) = [last later first].
Proof.
  induction later as [|b later IH]; intros first Hsp; [reflexivity|].
  destruct Hsp as [Hb Hsp]. rewrite burstEnds_close by exact Hb.
  rewrite Cursor.last_cons. now apply IH.
Qed.

Lemma arrivalTimes_arrival count t segments later :
  (count <? length segments) = true ->
  arrivalTimes count ((t, ReadResolved segments) :: later) =
  t :: arrivalTimes (length segments) later.
Proof. intros H. simpl. now rewrite H. Qed.

Lemma cycles_of_history events :
  forall st p lo T,
    pending_at p st ->
    (forall a, p = Some a -> (a <= lo)%Z) ->
    nondecreasing lo (map fst events) ->
    (lo <= T)%Z ->
    (forall t, In t (map fst events) -> (t <= T)%Z) ->
    map fired_at (cycles (fireDue T (run events st))) =
      map fired_at (cycles st) ++
      filter (dueBy T)
        (dueTimes (withPending p (arrivalTimes (lastSegmentCount st) events)))
    /\
    map due (timers (fireDue T (run events st))) =
      filter (fun d => negb (dueBy T d))
        (dueTimes (withPending p (arrivalTimes (lastSegmentCount st) events))).
Proof.
  unfold DebounceSpec.dueTimes.
  induction events as [|[t e] events IH]; intros st p lo T Hp Hlo Hnd HloT HT.
  - simpl run. simpl arrivalTimes. destruct p as [a|]; simpl in Hp.
    + destruct Hp as (h & Ht & Hd). simpl withPending. cbn [burstEnds map filter].
      unfold dueBy.
      destruct (a + DEBOUNCE_DELAY <=? T)%Z eqn:Hdue.
      * apply Z.leb_le in Hdue.
        destruct (fireDue_fields_due T st h _ Ht Hdue) as [-> ->].
        rewrite map_app. simpl. auto.
      * apply Z.leb_gt in Hdue.
        destruct (fireDue_fields_waiting T st h _ Ht Hdue) as [-> ->].
        rewrite Ht. simpl. now rewrite app_nil_r.
    + destruct (fireDue_fields_idle T st Hp) as [-> ->].
      simpl. now rewrite app_nil_r.
  - rewrite run_cons. unfold Client.step. simpl fst. simpl snd.
    simpl map in Hnd, HT. destruct Hnd as [Hat Hnd].
    assert (HtT : (t <= T)%Z) by (apply HT; simpl; auto).
    assert (HT' : forall x, In x (map fst events) -> (x <= T)%Z)
      by (intros x Hx; apply HT; simpl; auto).
    assert (Hbound : forall count b rest,
               arrivalTimes count events = b :: rest -> (t <= b)%Z).
    { intros count b rest Hb. exact (arrivalTimes_bounded t count events b rest Hnd Hb). }
    change (lastSegmentCount st) with (lastSegmentCount (fireDue t st)).
    destruct p as [a|]; simpl in Hp.
    + destruct Hp as (h & Htimers & Hdeb).
      assert (Ha : (a <= lo)%Z) by (now apply Hlo).
      destruct (Z_le_gt_dec (a + DEBOUNCE_DELAY) t) as [Hdue|Hwait].
      * (* the pending timer fires before this event is handled *)
        destruct (fireDue_fields_due t st h _ Htimers Hdue) as [Ht1 Hc1].
        assert (HdueT : dueBy T (a + DEBOUNCE_DELAY) = true)
          by (apply Z.leb_le; lia).
        destruct (arrivalTimes_one (lastSegmentCount (fireDue t st)) t e)
          as [Hq|(segments & -> & Hgrow & Hone)].
        -- destruct (handleEvent_quiet t e (fireDue t st) Hq)
             as (Ht2 & Hd2 & Hn2 & Hc2 & _).
           rewrite (arrivalTimes_quiet _ _ _ events Hq).
           destruct (IH (handleEvent t e (fireDue t st)) None t T) as [IHc IHt];
             auto; try lia.
           { simpl. now rewrite Ht2. }
           { intros ? H; discriminate. }
           rewrite Hn2 in IHc, IHt. simpl withPending in *.
           rewrite (burstEnds_after a t _ Hdue (Hbound _)).
           cbn [map filter]. rewrite HdueT. simpl negb. cbv iota.
           split; [|exact IHt].
           rewrite IHc, Hc2, Hc1, map_app, <- app_assoc. reflexivity.
        -- simpl handleEvent.
           rewrite (arrivalTimes_arrival _ t segments events Hgrow).
           destruct (onSegments_arrival t segments (fireDue t st) Hgrow)
             as (Ht2 & Hd2 & Hn2 & Hc2).
           destruct (IH (onSegments t segments (fireDue t st)) (Some t) t T)
             as [IHc IHt]; auto; try lia.
           { simpl. exists (next_handle (fireDue t st)). split; [|exact Hd2].
             rewrite Ht2, Ht1. now destruct (debounceTimer (fireDue t st)). }
           { intros ? H; inversion H; lia. }
           rewrite Hn2 in IHc, IHt. simpl withPending in *.
           rewrite burstEnds_apart by lia.
           cbn [map filter]. rewrite HdueT. simpl negb. cbv iota.
           split; [|exact IHt].
           rewrite IHc, Hc2, Hc1, map_app, <- app_assoc. reflexivity.
      * (* the pending timer is still waiting *)
        assert (Hlt : (t < a + DEBOUNCE_DELAY)%Z) by lia.
        destruct (fireDue_fields_waiting t st h _ Htimers Hlt) as [Ht1 Hc1].
        destruct (arrivalTimes_one (lastSegmentCount (fireDue t st)) t e)
          as [Hq|(segments & -> & Hgrow & Hone)].
        -- destruct (handleEvent_quiet t e (fireDue t st) Hq)
             as (Ht2 & Hd2 & Hn2 & Hc2 & _).
           rewrite (arrivalTimes_quiet _ _ _ events Hq).
           destruct (IH (handleEvent t e (fireDue t st)) (Some a) t T)
             as [IHc IHt]; auto; try lia.
           { simpl. exists h. split; [now rewrite Ht2, Ht1 | now rewrite Hd2]. }
           { intros ? H; inversion H; lia. }
           rewrite Hn2 in IHc, IHt. split; [|exact IHt].
           now rewrite IHc, Hc2, Hc1.
        -- simpl handleEvent.
           rewrite (arrivalTimes_arrival _ t segments events Hgrow).
           destruct (onSegments_arrival t segments (fireDue t st) Hgrow)
             as (Ht2 & Hd2 & Hn2 & Hc2).
           destruct (IH (onSegments t segments (fireDue t st)) (Some t) t T)
             as [IHc IHt]; auto; try lia.
           { simpl. exists (next_handle (fireDue t st)). split; [|exact Hd2].
             rewrite Ht2.
             change (debounceTimer (fireDue t st)) with (debounceTimer st).
             rewrite Hdeb, Ht1, Htimers. simpl. now rewrite Nat.eqb_refl. }
           { intros ? H; inversion H; lia. }
           rewrite Hn2 in IHc, IHt. simpl withPending in *.
           rewrite burstEnds_close by lia.
           split; [|exact IHt]. now rewrite IHc, Hc2, Hc1.
    + destruct (fireDue_fields_idle t st Hp) as [Ht1 Hc1].
      destruct (arrivalTimes_one (lastSegmentCount (fireDue t st)) t e)
        as [Hq|(segments & -> & Hgrow & Hone)].
      * destruct (handleEvent_quiet t e (fireDue t st) Hq)
          as (Ht2 & Hd2 & Hn2 & Hc2 & _).
        rewrite (arrivalTimes_quiet _ _ _ events Hq).
        destruct (IH (handleEvent t e (fireDue t st)) None t T) as [IHc IHt];
          auto; try lia.
        { simpl. now rewrite Ht2. }
        { intros ? H; discriminate. }
        rewrite Hn2 in IHc, IHt. split; [|exact IHt].
        now rewrite IHc, Hc2, Hc1.
      * simpl handleEvent.
           rewrite (arrivalTimes_arrival _ t segments events Hgrow).
        destruct (onSegments_arrival t segments (fireDue t st) Hgrow)
          as (Ht2 & Hd2 & Hn2 & Hc2).
        destruct (IH (onSegments t segments (fireDue t st)) (Some t) t T)
          as [IHc IHt]; auto; try lia.
        { simpl. exists (next_handle (fireDue t st)). split; [|exact Hd2].
          rewrite Ht2, Ht1. now destruct (debounceTimer (fireDue t st)). }
        { intros ? H; inversion H; lia. }
        rewrite Hn2 in IHc, IHt. simpl withPending in *.
        split; [|exact IHt]. now rewrite IHc, Hc2, Hc1.
Qed.

(** C9.  Over any history of polls in time order, observed at a time [T]
    not before its last event: the model cycles started are exactly one
    per burst of arrivals -- arrivals less than the delay apart form one
    burst -- each started by the timer of the last arrival of its burst at
    that arrival plus the delay; every other arrival had its timer
    cancelled by the next one; what is still pending at [T] is at most the
    timer of the last arrival.  In particular, when all arrivals of the
    history are less than the delay apart, exactly one cycle is started,
    by the timer of the last arrival, on a message list that holds every
    segment of the burst, and no timer is left. *)
Theorem debounce_starts_one_cycle_per_burst
  (events : list (Z * Event)) (T : Z) :
  ordered (map fst events) ->
  (forall t, In t (map fst events) -> (t <= T)%Z) ->
  map fired_at (cycles (fireDue T (run events initial))) =
    filter (dueBy T) (dueTimes (arrivalTimes 0 events)) /\
  map due (timers (fireDue T (run events initial))) =
    filter (fun d => negb (dueBy T d)) (dueTimes (arrivalTimes 0 events)) /\
  (forall first later,
      arrivalTimes 0 events = first :: later ->
      spaced_below DEBOUNCE_DELAY first later ->
      burstEnds DEBOUNCE_DELAY (arrivalTimes 0 events) = [last later first] /\
      ((last later first + DEBOUNCE_DELAY <= T)%Z ->
       exists c,
         cycles (fireDue T (run events initial)) = [c] /\
         fired_at c = (last later first + DEBOUNCE_DELAY)%Z /\
         Some (fired c) = debounceTimer (fireDue T (run events initial)) /\
         timers (fireDue T (run events initial)) = [] /\
         filter isUserMessage (sent c) =
           filter isUserMessage (messages (fireDue T (run events initial))))).
Proof.
  intros Hord Hbound.
  destruct events as [|[t0 e0] events].
  { split; [reflexivity|]. split; [reflexivity|].
    intros a b H. discriminate. }
  assert (Hnd : nondecreasing t0 (map fst ((t0, e0) :: events)))
    by (simpl; split; [lia | exact Hord]).
  assert (Ht0 : (t0 <= T)%Z) by (apply Hbound; simpl; auto).
  destruct (cycles_of_history ((t0, e0) :: events) initial None t0 T)
    as [Hc Ht]; auto.
  { reflexivity. }
  { intros ? H; discriminate. }
  split; [exact Hc|]. split; [exact Ht|].
  intros first later Ha Hsp. split.
  - rewrite Ha. now apply burstEnds_rapid.
  - intros HT.
    apply (burst_idle ((t0, e0) :: events) initial t0 first later); auto.
    apply last_bounded; [apply Hbound; simpl; auto | exact Hbound].
Qed.

End DebounceFacts.

(** Two bursts: the three polls of [burst], and a fourth segment four
    seconds later. *)
Definition seg4 : Client.Segment :=
  {| Client.text := "thanks"; Client.start := 5000; Client.end_ := 5001;
     Client.speaker := "Bob"; Client.role := "participant" |}.

Definition two_bursts : list (Z * Client.Event) :=
  Cursor.burst ++
  [ (5000%Z, Client.ReadResolved
               [Cursor.seg1; Cursor.seg2; Cursor.seg3; seg4]) ].

(** C9 on [two_bursts] and on [burst] with a delay of 1000: arrivals at 0,
    400, 900 and 5000 start two cycles, due at 1900 and 6000; the burst
    alone starts one, due at 1900. *)
Lemma debounce_starts_one_cycle_per_burst_witness :
  (ordered (map fst two_bursts) /\
   (forall t, In t (map fst two_bursts) -> (t <= 7000)%Z) /\
   arrivalTimes 0 two_bursts = [0; 400; 900; 5000]%Z) /\
  map fired_at (cycles (fireDue 7000 (Client.run 1000 two_bursts initial))) =
    [1900; 6000]%Z /\
  timers (fireDue 7000 (Client.run 1000 two_bursts initial)) = [] /\
  (ordered (map fst Cursor.burst) /\
   arrivalTimes 0 Cursor.burst = [0; 400; 900]%Z /\
   spaced_below 1000 0 [400; 900]%Z) /\
  exists c,
    cycles (fireDue 1900 (Client.run 1000 Cursor.burst initial)) = [c] /\
    fired_at c = (last [400; 900] 0 + 1000)%Z /\
    Some (fired c) =
      debounceTimer (fireDue 1900 (Client.run 1000 Cursor.burst initial)) /\
    timers (fireDue 1900 (Client.run 1000 Cursor.burst initial)) = [] /\
    filter isUserMessage (sent c) =
      filter isUserMessage
        (messages (fireDue 1900 (Client.run 1000 Cursor.burst initial))).
Proof.
  assert (Hord2 : ordered (map fst two_bursts)) by (simpl; lia).
  assert (Hb2 : forall t, In t (map fst two_bursts) -> (t <= 7000)%Z)
    by (simpl; intros t [<-|[<-|[<-|[<-|[]]]]]; lia).
  assert (Hord : ordered (map fst Cursor.burst)) by (simpl; lia).
  assert (Hb : forall t, In t (map fst Cursor.burst) -> (t <= 1900)%Z)
    by (simpl; intros t [<-|[<-|[<-|[]]]]; lia).
  assert (Hsp : spaced_below 1000 0 [400; 900]%Z) by (simpl; lia).
  split; [split; [exact Hord2 | split; [exact Hb2 | reflexivity]]|].
  split.
  { exact (proj1 (debounce_starts_one_cycle_per_burst 1000 two_bursts 7000
                    Hord2 Hb2)). }
  split; [reflexivity|].
  split; [split; [exact Hord | split; [reflexivity | exact Hsp]]|].
  destruct (debounce_starts_one_cycle_per_burst 1000 Cursor.burst 1900
              Hord Hb) as (_ & _ & Hrapid).
  destruct (Hrapid 0%Z [400; 900]%Z eq_refl Hsp) as [_ Hone].
  apply Hone. simpl. lia.
Defined.

(** The burst above, step by step: the first two timers are cancelled, the
    third fires at 1900. *)
Example debounce_burst_run :
  cycles (Client.run 1000 Cursor.burst initial) = [] /\
  timers (Client.run 1000 Cursor.burst initial) =
    [{| handle := 2; due := 1900 |}] /\
  map fired (cycles (fireDue 1900 (Client.run 1000 Cursor.burst initial)))
  = [2].
Proof. repeat split. Qed.

End Debounce.

(** ** What every cycle preserves *)

Module Invariants.
Import Agent StoreSpec DriverSpec Store Driver.

Section CycleInvariants.
Context {E : Environment}.

(** *** The shape of the log *)

Lemma well_sequenced_snoc l u :
  is_tool u = false -> well_sequenced l = true ->
  well_sequenced (l ++ [u]) = true.
Proof.
  intros Hu Hl. unfold well_sequenced in *.
  rewrite well_sequenced_from_app, Hl. simpl. now rewrite Hu.
Qed.

Lemma well_sequenced_repair l :
  well_sequenced l = true -> repairMessages l = l.
Proof.
  intros H. unfold repairMessages. now rewrite (well_sequenced_valid l H).
Qed.

Lemma adjacent_issuer_through_tools ys a acc x :
  forallb is_tool ys = true -> is_tool a = false ->
  adjacent_issuer (ys ++ a :: acc) x = issues (tool_call_id x) a.
Proof.
  intros Hys Ha. induction ys as [|y ys IH]; simpl in *.
  - now rewrite Ha.
  - apply andb_true_iff in Hys as [Hy Hys]. rewrite Hy. now apply IH.
Qed.

Lemma forallb_rev {A} (f : A -> bool) (l : list A) :
  forallb f l = true -> forallb f (rev l) = true.
Proof.
  rewrite !forallb_forall. intros H x Hx. apply H. now apply in_rev.
Qed.

Lemma well_sequenced_snoc_result pre a results x :
  well_sequenced (pre ++ a :: results) = true ->
  forallb is_tool results = true -> is_tool a = false ->
  issues (tool_call_id x) a = true ->
  well_sequenced ((pre ++ a :: results) ++ [x]) = true.
Proof.
  intros Hw Hres Ha Hx. unfold well_sequenced in *.
  rewrite well_sequenced_from_app, Hw. simpl.
  rewrite app_nil_r, rev_app_distr. simpl. rewrite <- app_assoc. simpl.
  rewrite (adjacent_issuer_through_tools (rev results) a (rev pre) x
             (forallb_rev _ _ Hres) Ha), Hx.
  now rewrite orb_true_r.
Qed.

Lemma issues_own_call m o calls call :
  message_tool_calls m = Some calls -> In call calls ->
  issues (Some (call_id call)) (assistantMessage m o) = true.
Proof.
  intros Hc Hin. unfold issues. simpl. rewrite Hc.
  apply existsb_exists. exists call. split; [exact Hin|].
  simpl. apply String.eqb_refl.
Qed.

Lemma well_sequenced_afterToolCalls calls :
  forall st pre a results,
    messages st = pre ++ a :: results ->
    well_sequenced (messages st) = true ->
    forallb is_tool results = true -> is_tool a = false ->
    (forall call, In call calls -> issues (Some (call_id call)) a = true) ->
    well_sequenced (messages (afterToolCalls calls st)) = true.
Proof.
  induction calls as [|call calls IH];
    intros st pre a results Hm Hw Hres Ha Hall; [exact Hw|].
  simpl afterToolCalls.
  set (x := toolMessage (call_id call)
              (resultContent (snd (invokeTool (world st) call))) (next_oid st)).
  apply (IH (afterToolCall call st) pre a (results ++ [x])).
  - simpl. fold x. rewrite Hm, <- app_assoc. reflexivity.
  - simpl. fold x. rewrite Hm in *.
    apply well_sequenced_snoc_result; auto.
    apply Hall. simpl. auto.
  - rewrite forallb_app, Hres. reflexivity.
  - exact Ha.
  - intros c Hc. apply Hall. simpl. auto.
Qed.

Lemma well_sequenced_answered st m calls :
  well_sequenced (messages st) = true ->
  message_tool_calls m = Some calls ->
  well_sequenced
    (messages (afterToolCalls calls (pushed (assistantMessage m) st))) = true.
Proof.
  intros Hw Hc.
  apply (well_sequenced_afterToolCalls calls
           (pushed (assistantMessage m) st) (messages st)
           (assistantMessage m (next_oid st)) []); auto.
  - simpl. now apply well_sequenced_snoc.
  - intros call Hin. now apply (issues_own_call m _ calls).
Qed.

Lemma well_sequenced_afterModelCall st :
  well_sequenced (messages st) = true ->
  messages (afterModelCall st) = messages st.
Proof. intros H. simpl. now apply well_sequenced_repair. Qed.

Lemma well_sequenced_afterFollowUp st :
  well_sequenced (messages st) = true ->
  well_sequenced (messages (afterFollowUp st)) = true.
Proof.
  intros Hw. unfold afterFollowUp.
  assert (Hw' : well_sequenced (messages (afterModelCall st)) = true)
    by (now rewrite well_sequenced_afterModelCall).
  destruct (snd (modelReply st)) as [e|[|m rest]]; auto.
  cbv zeta. destruct (message_tool_calls m) as [calls|] eqn:Hc.
  - now apply well_sequenced_answered.
  - simpl messages. apply well_sequenced_snoc; [reflexivity|exact Hw'].
Qed.

Lemma well_sequenced_reset l earlier u :
  l = earlier ++ [u] -> is_tool u = false ->
  well_sequenced l = true -> well_sequenced (resetMessages l) = true.
Proof.
  intros -> Hu Hw. destruct earlier as [|s mid].
  - simpl. unfold well_sequenced. simpl. now rewrite Hu.
  - change ((s :: mid) ++ [u]) with (s :: mid ++ [u]) in *.
    rewrite resetMessages_ends.
    unfold well_sequenced in *. simpl in *. rewrite Hu.
    apply andb_true_iff in Hw as [Hs _]. rewrite orb_false_r in Hs.
    now rewrite Hs.
Qed.

Lemma well_sequenced_afterRespond st earlier u :
  messages st = earlier ++ [u] -> is_tool u = false ->
  well_sequenced (messages st) = true ->
  well_sequenced (messages (afterRespond st)) = true.
Proof.
  intros Hshape Hu Hw. unfold afterRespond.
  assert (Hm : messages (afterModelCall st) = messages st)
    by (now apply well_sequenced_afterModelCall).
  assert (Hw' : well_sequenced (messages (afterModelCall st)) = true)
    by (now rewrite Hm).
  destruct (snd (modelReply st)) as [e|[|m rest]]; auto.
  - destruct (isRoleSequenceError e); [|exact Hw'].
    change (well_sequenced (resetMessages (messages (afterModelCall st)))
            = true).
    rewrite Hm. now apply (well_sequenced_reset _ earlier u).
  - cbv zeta. destruct (message_tool_calls m) as [calls|] eqn:Hc.
    + apply well_sequenced_afterFollowUp. now apply well_sequenced_answered.
    + simpl messages. apply well_sequenced_snoc; [reflexivity|exact Hw'].
Qed.

(** *** Distinct message objects *)

(** The messages of a log are distinct objects allocated below [n]. *)
Definition distinct_below (n : nat) (l : list Message) : Prop :=
  NoDup (map oid l) /\ Forall (fun m => oid m < n) l.

(** The log starts with a turn that is not a tool result (the system
    turn). *)
Definition headed (l : list Message) : Prop :=
  exists s rest, l = s :: rest /\ is_tool s = false.

Definition store_ok (st : State) : Prop :=
  headed (messages st) /\ distinct_below (next_oid st) (messages st).

Lemma In_filter_oid f (l : list Message) x :
  In x (map oid (filter f l)) -> In x (map oid l).
Proof.
  rewrite !in_map_iff. intros (m & Hm & Hin).
  apply filter_In in Hin. exists m. tauto.
Qed.

Lemma distinct_filter n f l :
  distinct_below n l -> distinct_below n (filter f l).
Proof.
  intros [Hnd Hall]. split.
  - clear Hall. induction l as [|a l IH]; simpl; [constructor|].
    inversion Hnd; subst.
    destruct (f a); simpl; [|auto].
    constructor; [|auto]. intros Hin. now apply In_filter_oid in Hin.
  - rewrite Forall_forall in *. intros m Hm. apply Hall.
    apply filter_In in Hm. tauto.
Qed.

Lemma distinct_repair n l :
  distinct_below n l -> distinct_below n (repairMessages l).
Proof.
  intros H. unfold repairMessages.
  destruct (validateMessages l); [exact H | now apply distinct_filter].
Qed.

Lemma distinct_skipn n k l :
  distinct_below n l -> distinct_below n (skipn k l).
Proof.
  intros [Hnd Hall]. rewrite <- (firstn_skipn k l) in Hnd, Hall.
  rewrite map_app in Hnd. apply NoDup_app_remove_l in Hnd.
  apply Forall_app in Hall. split; [exact Hnd | apply Hall].
Qed.

Lemma In_skipn {A} (x : A) k (l : list A) : In x (skipn k l) -> In x l.
Proof.
  intros H. rewrite <- (firstn_skipn k l). apply in_or_app. now right.
Qed.

Lemma distinct_truncate n l :
  distinct_below n l -> distinct_below n (truncateMessages l).
Proof.
  intros H. unfold truncateMessages.
  destruct (length l <=? 15); [exact H|].
  destruct l as [|s rest]; [exact H|].
  destruct H as [Hnd Hall]. simpl in Hnd.
  inversion Hnd as [|? ? Hnotin Hnd']; subst. inversion Hall; subst.
  destruct (distinct_skipn n
              (safeTruncateIndex rest (length rest - 14)) rest)
    as [Hnd'' Hall'']; [split; assumption|].
  split; simpl.
  - constructor; [|exact Hnd''].
    intros Hin. apply Hnotin. apply in_map_iff in Hin as (m & Hm & Hin).
    apply in_map_iff. exists m. split; [exact Hm|]. eapply In_skipn; eauto.
  - constructor; assumption.
Qed.

Lemma distinct_snoc n l m :
  distinct_below n l -> oid m = n -> distinct_below (S n) (l ++ [m]).
Proof.
  intros [Hnd Hall] Hm. split.
  - rewrite map_app. apply NoDup_app; [exact Hnd | repeat constructor; auto |].
    intros x Hx [Hx'|[]]. simpl in Hx'. subst x.
    apply in_map_iff in Hx as (y & Hy & Hin).
    rewrite Forall_forall in Hall. specialize (Hall y Hin). simpl in Hall. lia.
  - apply Forall_app. split.
    + eapply Forall_impl; [|exact Hall]. simpl. intros a Ha. lia.
    + constructor; [rewrite Hm; lia | constructor].
Qed.


Lemma headed_snoc l m : headed l -> headed (l ++ [m]).
Proof. intros (s & rest & -> & Hs). exists s, (rest ++ [m]). auto. Qed.

Lemma headed_truncate l : headed l -> headed (truncateMessages l).
Proof.
  intros (s & rest & -> & Hs).
  pose proof (truncateMessages_head (s :: rest)) as Hh. simpl in Hh.
  destruct (truncateMessages (s :: rest)) as [|s' rest']; [discriminate|].
  inversion Hh; subst. exists s, rest'. auto.
Qed.

Lemma headed_repair l : headed l -> headed (repairMessages l).
Proof.
  intros (s & rest & -> & Hs). unfold repairMessages.
  destruct (validateMessages (s :: rest)); [exists s, rest; auto|].
  simpl. rewrite keepMessage_not_tool by exact Hs. eexists _, _. eauto.
Qed.

Lemma store_ok_pushed mk st :
  (forall o, oid (mk o) = o) -> store_ok st -> store_ok (pushed mk st).
Proof.
  intros Hmk [Hh Hd]. split; simpl.
  - now apply headed_snoc.
  - apply distinct_snoc; auto.
Qed.

Lemma store_ok_afterModelCall st : store_ok st -> store_ok (afterModelCall st).
Proof.
  intros [Hh Hd]. split; simpl.
  - now apply headed_repair.
  - now apply distinct_repair.
Qed.

Lemma store_ok_afterToolCalls calls :
  forall st, store_ok st -> store_ok (afterToolCalls calls st).
Proof.
  induction calls as [|call calls IH]; intros st Hok; [exact Hok|].
  simpl afterToolCalls. apply IH.
  destruct Hok as [Hh Hd]. split; simpl.
  - now apply headed_snoc.
  - now apply distinct_snoc.
Qed.




End CycleInvariants.

Lemma fresh_store_ok script : store_ok (fresh script).
Proof.
  split.
  - exists sys0, []. split; reflexivity.
  - split; simpl; repeat constructor; simpl; auto.
Defined.


End Invariants.

(** ** More on truncation: where the cut falls *)

Module Truncation.
Import Agent StoreSpec Store.

(** An index of [messagesToKeep] at which the loop of [truncateMessages]
    stops: index 0, or an index whose message is not a tool message and
    whose predecessor carries no tool calls. *)
Definition safeBoundary (messagesToKeep : list Message) (k : nat) : bool :=
  match k with
  | 0 => true
  | S prev =>
      match nth_error messagesToKeep k, nth_error messagesToKeep prev with
      | Some messageAtIndex, Some prevMessage =>
          negb (is_tool messageAtIndex || has_tool_calls prevMessage)
      | _, _ => true
      end
  end.

Lemma safeTruncateIndex_latest_safe l n :
  n < length l ->
  safeBoundary l (safeTruncateIndex l n) = true /\
  forall j, safeTruncateIndex l n < j <= n -> safeBoundary l j = false.
Proof.
  induction n as [|n IH]; intros Hn.
  - simpl. split; [reflexivity|]. intros j Hj. lia.
  - cbn [safeTruncateIndex].
    destruct (S n <? length l) eqn:Hlt; [|apply Nat.ltb_ge in Hlt; lia].
    destruct (nth_error l (S n)) as [x|] eqn:Hx;
      [|apply nth_error_None in Hx; lia].
    destruct (nth_error l n) as [p|] eqn:Hp;
      [|apply nth_error_None in Hp; lia].
    destruct (is_tool x || has_tool_calls p) eqn:Hc.
    + destruct IH as [Hsafe Hlater]; [lia|]. split; [exact Hsafe|].
      intros j Hj. destruct (Nat.eq_dec j (S n)) as [->|Hne].
      * unfold safeBoundary. now rewrite Hx, Hp, Hc.
      * apply Hlater. lia.
    + split.
      * unfold safeBoundary. now rewrite Hx, Hp, Hc.
      * intros j Hj. lia.
Qed.

(** X3.  On a log of more than 15 turns, [truncateMessages] keeps the first
    turn and the turns from one cut on; the cut is the latest safe boundary
    that is not after the naive cut (fourteen turns before the end): every
    index between the two is unsafe, i.e. holds a tool message or follows a
    message with tool calls. *)
Theorem truncateMessages_cuts_at_latest_safe_boundary
  (systemMessage : Message) (messagesToKeep : list Message) :
  15 < length (systemMessage :: messagesToKeep) ->
  exists cut,
    truncateMessages (systemMessage :: messagesToKeep) =
      systemMessage :: skipn cut messagesToKeep /\
    cut <= length messagesToKeep - 14 /\
    safeBoundary messagesToKeep cut = true /\
    (forall j, cut < j <= length messagesToKeep - 14 ->
               safeBoundary messagesToKeep j = false) /\
    length (truncateMessages (systemMessage :: messagesToKeep)) =
      15 + (length messagesToKeep - 14 - cut).
Proof.
  intros Hlen. rewrite truncateMessages_long by exact Hlen.
  simpl in Hlen.
  exists (safeTruncateIndex messagesToKeep (length messagesToKeep - 14)).
  pose proof (safeTruncateIndex_le messagesToKeep (length messagesToKeep - 14)).
  destruct (safeTruncateIndex_latest_safe messagesToKeep
              (length messagesToKeep - 14)) as [Hsafe Hlater]; [lia|].
  repeat split; auto.
  simpl. rewrite length_skipn. lia.
Qed.

(** X3 on [long_cycle_log]: the naive cut (index 2 of the turns after the
    first) holds the tool result; the cut falls on the requesting assistant
    turn before it. *)
Lemma truncateMessages_cuts_at_latest_safe_boundary_witness :
  15 < length long_cycle_log /\
  safeBoundary (tl long_cycle_log) 2 = false /\
  exists cut,
    truncateMessages (sys0 :: tl long_cycle_log) =
      sys0 :: skipn cut (tl long_cycle_log) /\
    cut <= length (tl long_cycle_log) - 14 /\
    safeBoundary (tl long_cycle_log) cut = true /\
    (forall j, cut < j <= length (tl long_cycle_log) - 14 ->
               safeBoundary (tl long_cycle_log) j = false) /\
    length (truncateMessages (sys0 :: tl long_cycle_log)) =
      15 + (length (tl long_cycle_log) - 14 - cut).
Proof.
  assert (Hlen : 15 < length (sys0 :: tl long_cycle_log))
    by (vm_compute; lia).
  split; [exact Hlen|]. split; [reflexivity|].
  exact (truncateMessages_cuts_at_latest_safe_boundary sys0
           (tl long_cycle_log) Hlen).
Defined.

Lemma safeBoundary_skipn l k j :
  0 < j -> safeBoundary (skipn k l) j = safeBoundary l (k + j).
Proof.
  intros Hj. destruct j as [|p]; [lia|].
  replace (k + S p) with (S (k + p)) by lia. unfold safeBoundary.
  rewrite !nth_error_skipn.
  replace (k + S p) with (S (k + p)) by lia. reflexivity.
Qed.

Lemma safeTruncateIndex_all_unsafe l d :
  d < length l ->
  (forall j, 0 < j <= d -> safeBoundary l j = false) ->
  safeTruncateIndex l d = 0.
Proof.
  induction d as [|d IH]; intros Hd Hall; [reflexivity|].
  cbn [safeTruncateIndex].
  destruct (S d <? length l) eqn:Hlt; [|apply Nat.ltb_ge in Hlt; lia].
  destruct (nth_error l (S d)) as [x|] eqn:Hx;
    [|apply nth_error_None in Hx; lia].
  destruct (nth_error l d) as [p|] eqn:Hp;
    [|apply nth_error_None in Hp; lia].
  assert (Hc : safeBoundary l (S d) = false) by (apply Hall; lia).
  unfold safeBoundary in Hc. rewrite Hx, Hp in Hc.
  apply negb_false_iff in Hc. rewrite Hc.
  apply IH; [lia|]. intros j Hj. apply Hall. lia.
Qed.

(** X4.  Truncating twice is truncating once: what one call keeps, a second
    call leaves as it is, also when the first call had to keep more than 15
    turns. *)
Theorem truncateMessages_idempotent (log : list Message) :
  truncateMessages (truncateMessages log) = truncateMessages log.
Proof.
  destruct (Nat.le_gt_cases (length log) 15) as [Hle|Hgt].
  - rewrite (truncateMessages_short log Hle).
    exact (truncateMessages_short log Hle).
  - destruct log as [|s rest]; [simpl in Hgt; lia|].
    rewrite (truncateMessages_long s rest Hgt). simpl in Hgt.
    set (n := length rest - 14).
    pose proof (safeTruncateIndex_le rest n) as Hk.
    destruct (safeTruncateIndex_latest_safe rest n) as [_ Hlater];
      [unfold n; lia|].
    set (k := safeTruncateIndex rest n) in *.
    destruct (Nat.le_gt_cases (length (s :: skipn k rest)) 15) as [Hle'|Hgt'].
    + now apply truncateMessages_short.
    + rewrite (truncateMessages_long s (skipn k rest) Hgt').
      simpl in Hgt'. rewrite length_skipn in *.
      replace (length rest - k - 14) with (n - k) by (unfold n; lia).
      rewrite safeTruncateIndex_all_unsafe; [reflexivity| |].
      * rewrite length_skipn. unfold n in *. lia.
      * intros j Hj. rewrite safeBoundary_skipn by lia.
        apply Hlater. lia.
Qed.

End Truncation.

(** ** What the string tests decide *)

Module Predicates.
Import Agent.

(** A text of white space only: the encodings of white-space code points,
    one after the other. *)
Definition whiteSpaceOnly (l : list ascii) : Prop :=
  exists points,
    Forall (fun encoded => isWhiteSpace encoded = true) points /\
    concat points = l.

Ltac to_numbers :=
  repeat match goal with
         | H : _ && _ = true |- _ => apply andb_true_iff in H; destruct H
         | H : _ || _ = true |- _ => apply orb_true_iff in H; destruct H
         | H : (_ =? _)%N = true |- _ => apply N.eqb_eq in H
         | H : (_ <=? _)%N = true |- _ => apply N.leb_le in H
         end.

Ltac by_numbers :=
  match goal with
  | |- ?b = false =>
      let E := fresh "E" in
      destruct b eqn:E; [exfalso | reflexivity]; to_numbers; lia
  end.

Lemma isWhiteSpace_length encoded :
  isWhiteSpace encoded = true ->
  (exists a, encoded = [a]) \/ (exists a b, encoded = [a; b]) \/
  (exists a b c, encoded = [a; b; c]).
Proof.
  destruct encoded as [|a [|b [|c [|d rest]]]]; try discriminate; eauto 6.
Qed.

Lemma two_bytes_start a b :
  isWhiteSpace [a; b] = true -> isWhiteSpace [a] = false.
Proof.
  unfold isWhiteSpace. cbn [map]. intros H.
  generalize dependent (N_of_ascii a). generalize dependent (N_of_ascii b).
  intros y x H. by_numbers.
Qed.

Lemma three_bytes_start a b c :
  isWhiteSpace [a; b; c] = true ->
  isWhiteSpace [a] = false /\ isWhiteSpace [a; b] = false.
Proof.
  unfold isWhiteSpace. cbn [map]. intros H.
  generalize dependent (N_of_ascii a). generalize dependent (N_of_ascii b).
  generalize dependent (N_of_ascii c).
  intros z y x H. split; by_numbers.
Qed.

Lemma dropWhiteSpace_point encoded rest :
  isWhiteSpace encoded = true ->
  dropWhiteSpace (encoded ++ rest) = dropWhiteSpace rest.
Proof.
  intros H.
  destruct (isWhiteSpace_length encoded H)
    as [(a & ->)|[(a & b & ->)|(a & b & c & ->)]]; cbn [app dropWhiteSpace].
  - now rewrite H.
  - now rewrite (two_bytes_start a b H), H.
  - destruct (three_bytes_start a b c H) as [H1 H2]. now rewrite H1, H2, H.
Qed.

Lemma dropWhiteSpace_blank l : whiteSpaceOnly l -> dropWhiteSpace l = [].
Proof.
  intros (points & Hall & <-).
  induction Hall as [|encoded points He _ IH]; [reflexivity|].
  simpl concat. now rewrite dropWhiteSpace_point.
Qed.

Lemma whiteSpaceOnly_cons encoded l :
  isWhiteSpace encoded = true -> whiteSpaceOnly l ->
  whiteSpaceOnly (encoded ++ l).
Proof.
  intros He (points & Hall & <-). exists (encoded :: points).
  split; [now constructor | reflexivity].
Qed.

Lemma whiteSpaceOnly_snoc encoded l :
  isWhiteSpace encoded = true -> whiteSpaceOnly l ->
  whiteSpaceOnly (l ++ encoded).
Proof.
  intros He (points & Hall & <-). exists (points ++ [encoded]). split.
  - apply Forall_app. split; [exact Hall | now repeat constructor].
  - rewrite concat_app. simpl. now rewrite app_nil_r.
Qed.

Lemma whiteSpaceOnly_nil : whiteSpaceOnly [].
Proof. exists []. split; [constructor | reflexivity]. Qed.

(** What [dropWhiteSpace] returns is what it was given without a blank
    front, and it starts with no white space. *)
Lemma dropWhiteSpace_spec n :
  forall l, length l <= n ->
    (exists front, whiteSpaceOnly front /\ l = front ++ dropWhiteSpace l) /\
    dropWhiteSpace (dropWhiteSpace l) = dropWhiteSpace l.
Proof.
  induction n as [|n IH]; intros l Hn.
  - destruct l; [|simpl in Hn; lia]. split; [|reflexivity].
    exists []. split; [apply whiteSpaceOnly_nil | reflexivity].
  - destruct l as [|a l1].
    { split; [|reflexivity].
      exists []. split; [apply whiteSpaceOnly_nil | reflexivity]. }
    simpl in Hn. cbn [dropWhiteSpace].
    destruct (isWhiteSpace [a]) eqn:H1.
    { destruct (IH l1) as [(front & Hf & Hl) Hi]; [lia|].
      split; [|exact Hi]. exists ([a] ++ front).
      split; [now apply whiteSpaceOnly_cons|].
      simpl. now rewrite <- Hl. }
    destruct l1 as [|b l2].
    { split; [exists []; split; [apply whiteSpaceOnly_nil | reflexivity]|].
      cbn [dropWhiteSpace]. now rewrite H1. }
    simpl in Hn. destruct (isWhiteSpace [a; b]) eqn:H2.
    { destruct (IH l2) as [(front & Hf & Hl) Hi]; [lia|].
      split; [|exact Hi]. exists ([a; b] ++ front).
      split; [now apply whiteSpaceOnly_cons|].
      simpl. now rewrite <- Hl. }
    destruct l2 as [|c l3].
    { split; [exists []; split; [apply whiteSpaceOnly_nil | reflexivity]|].
      cbn [dropWhiteSpace]. now rewrite H1, H2. }
    simpl in Hn. destruct (isWhiteSpace [a; b; c]) eqn:H3.
    { destruct (IH l3) as [(front & Hf & Hl) Hi]; [lia|].
      split; [|exact Hi]. exists ([a; b; c] ++ front).
      split; [now apply whiteSpaceOnly_cons|].
      simpl. now rewrite <- Hl. }
    split; [exists []; split; [apply whiteSpaceOnly_nil | reflexivity]|].
    cbn [dropWhiteSpace]. now rewrite H1, H2, H3.
Qed.

Lemma dropWhiteSpace_nil l : dropWhiteSpace l = [] <-> whiteSpaceOnly l.
Proof.
  split; [|apply dropWhiteSpace_blank].
  intros H.
  destruct (dropWhiteSpace_spec (length l) l (Nat.le_refl _))
    as [(front & Hf & Hl) _].
  rewrite H, app_nil_r in Hl. now subst l.
Qed.

Lemma dropWhiteSpaceEnd_nil n :
  forall reversed, length reversed <= n ->
    dropWhiteSpaceEnd reversed = [] -> whiteSpaceOnly (rev reversed).
Proof.
  induction n as [|n IH]; intros r Hn H.
  - destruct r; [apply whiteSpaceOnly_nil | simpl in Hn; lia].
  - destruct r as [|c r1]; [apply whiteSpaceOnly_nil|].
    simpl in Hn. cbn [dropWhiteSpaceEnd] in H.
    destruct (isWhiteSpace [c]) eqn:H1.
    { simpl rev. apply whiteSpaceOnly_snoc; [exact H1|]. apply IH; [lia|exact H]. }
    destruct r1 as [|b r2]; [discriminate|].
    simpl in Hn. destruct (isWhiteSpace [b; c]) eqn:H2.
    { simpl rev. rewrite <- app_assoc.
      apply (whiteSpaceOnly_snoc [b; c]); [exact H2|]. apply IH; [lia|exact H]. }
    destruct r2 as [|a r3]; [discriminate|].
    simpl in Hn. destruct (isWhiteSpace [a; b; c]) eqn:H3; [|discriminate].
    simpl rev. rewrite <- !app_assoc.
    apply (whiteSpaceOnly_snoc [a; b; c]); [exact H3|]. apply IH; [lia|exact H].
Qed.

Lemma string_of_list_ascii_nil l :
  string_of_list_ascii l = EmptyString <-> l = [].
Proof. destruct l; simpl; split; intros H; try discriminate; reflexivity. Qed.

Lemma rev_nil_iff {A} (l : list A) : rev l = [] <-> l = [].
Proof.
  split; [|now intros ->]. intros H.
  apply (f_equal (@rev A)) in H. now rewrite rev_involutive in H.
Qed.

Lemma trim_empty s :
  trim s = EmptyString <-> whiteSpaceOnly (list_ascii_of_string s).
Proof.
  unfold trim. rewrite string_of_list_ascii_nil, rev_nil_iff.
  set (l := list_ascii_of_string s).
  split.
  - intros H.
    apply (dropWhiteSpaceEnd_nil _ _ (Nat.le_refl _)) in H.
    rewrite rev_involutive in H.
    apply dropWhiteSpace_blank in H.
    destruct (dropWhiteSpace_spec (length l) l (Nat.le_refl _)) as [_ Hi].
    rewrite Hi in H. now apply dropWhiteSpace_nil.
  - intros H. apply dropWhiteSpace_nil in H. now rewrite H.
Qed.

(** X5.  A segment is handed on by the time-based filter exactly when its
    end time is after the cursor and its text is not made of white space
    only: a text of blanks, tabs, line breaks, no-break or ideographic
    spaces and the like is never forwarded, whatever its end time, and any
    other text is, however much white space surrounds it. *)
Theorem isNewSegment_iff_later_and_not_blank
  (lastProcessedTime : Z) (seg : TranscriptSegment) :
  isNewSegment lastProcessedTime seg = true <->
  (lastProcessedTime < end_ seg)%Z /\
  ~ whiteSpaceOnly (list_ascii_of_string (text seg)).
Proof.
  unfold isNewSegment.
  rewrite andb_true_iff, Z.ltb_lt, <- trim_empty.
  destruct (trim (text seg)); simpl.
  - split; [intros [_ H]; discriminate | intros [_ H]; now contradiction H].
  - split; intros [H _]; (split; [exact H|]); [discriminate | reflexivity].
Qed.

(** A text that is one ideographic space (U+3000) is white space only, and
    so is one byte order mark between two blanks; ["hi"] between them is
    not. *)
Example ideographic_space_is_blank :
  let ideographic :=
    String "227" (String "128" (String "128" EmptyString)) in
  let mark := String "239" (String "187" (String "191" EmptyString)) in
  trim ideographic = EmptyString /\
  trim (" " ++ mark ++ " ") = EmptyString /\
  trim (ideographic ++ "hi" ++ mark) = "hi"%string.
Proof. repeat split. Qed.

Lemma prefix_iff needle haystack :
  String.prefix needle haystack = true <->
  exists rest, haystack = (needle ++ rest)%string.
Proof.
  revert haystack. induction needle as [|c needle IH]; intros haystack.
  - split; [intros _; now exists haystack | intros _; now destruct haystack].
  - destruct haystack as [|d haystack]; simpl.
    + split; [discriminate | intros (rest & H); discriminate].
    + destruct (Ascii.ascii_dec c d) as [->|Hne].
      * rewrite IH. split; intros (rest & H); exists rest.
        -- now rewrite H.
        -- now inversion H.
      * split; [discriminate|]. intros (rest & H). inversion H. congruence.
Qed.

Lemma includes_iff needle haystack :
  includes needle haystack = true <->
  exists before rest, haystack = (before ++ needle ++ rest)%string.
Proof.
  induction haystack as [|d haystack IH].
  - cbn [includes]. destruct (String.prefix needle EmptyString) eqn:Hp.
    + apply prefix_iff in Hp as (rest & Hrest).
      split; [intros _; now exists EmptyString, rest | reflexivity].
    + split; [discriminate|]. intros (before & rest & H).
      destruct before; simpl in H.
      * assert (String.prefix needle EmptyString = true)
          by (apply prefix_iff; eauto).
        congruence.
      * discriminate.
  - cbn [includes].
    destruct (String.prefix needle (String d haystack)) eqn:Hp.
    + apply prefix_iff in Hp as (rest & Hrest).
      split; [intros _; now exists EmptyString, rest | reflexivity].
    + rewrite IH. split.
      * intros (before & rest & H). exists (String d before), rest.
        simpl. now rewrite H.
      * intros (before & rest & H). destruct before as [|b before].
        -- simpl in H.
           assert (String.prefix needle (String d haystack) = true)
             by (apply prefix_iff; eauto).
           congruence.
        -- simpl in H. inversion H. eauto.
Qed.

End Predicates.

(** ** What the model endpoint is sent *)

Module Requests.
Import Agent StoreSpec DriverSpec Store Driver Invariants.

Section RequestFacts.
Context {E : Environment}.

Lemma repairMessages_valid l :
  NoDup (map oid l) -> validateMessages (repairMessages l) = true.
Proof.
  intros Hnd. unfold repairMessages.
  destruct (validateMessages l) eqn:Hv; [exact Hv|].
  rewrite (filter_keepMessage l Hnd), without_orphans_sweep,
    validateMessages_valid_from.
  now apply valid_from_sweep.
Qed.

(** Every log among the model calls of [evs] passes [validateMessages]. *)
Definition sends_valid_logs (evs : list Event) : Prop :=
  forall sent reply, In (ModelCall sent reply) evs ->
                     validateMessages sent = true.

Lemma no_model_call_in evs sent reply :
  modelCalls evs = [] -> In (ModelCall sent reply) evs -> False.
Proof.
  intros Hnone Hin.
  assert (H : In (ModelCall sent reply) (modelCalls evs))
    by (apply filter_In; split; [exact Hin | reflexivity]).
  now rewrite Hnone in H.
Qed.

Lemma sends_valid_round sent reply executed :
  validateMessages sent = true -> modelCalls executed = [] ->
  sends_valid_logs (ModelCall sent reply :: executed).
Proof.
  intros Hv Hnone s r [Heq|Hin].
  - now inversion Heq; subst.
  - destruct (no_model_call_in _ _ _ Hnone Hin).
Qed.

Lemma sends_valid_app a b :
  sends_valid_logs a -> sends_valid_logs b -> sends_valid_logs (a ++ b).
Proof.
  intros Ha Hb s r Hin. apply in_app_or in Hin as [H|H]; eauto.
Qed.

Lemma store_ok_distinct st : store_ok st -> NoDup (map oid (messages st)).
Proof. intros [_ [H _]]. exact H. Qed.

Lemma store_ok_cycleStart first others st :
  store_ok st -> store_ok (cycleStart first others st).
Proof.
  intros [Hh Hd]. split; simpl.
  - now apply headed_truncate, headed_snoc.
  - apply distinct_truncate. now apply distinct_snoc.
Qed.

Lemma afterFollowUp_sends_valid st :
  store_ok st ->
  exists evs,
    trace (afterFollowUp st) = trace st ++ evs /\ sends_valid_logs evs.
Proof.
  intros Hok. destruct (afterFollowUp_roundTrip st) as (executed & Hrt).
  destruct (roundTrip_no_model_call _ _ _ _ Hrt) as [Hnone _].
  destruct Hrt as [Htr _]. eexists. split; [exact Htr|].
  apply sends_valid_round; [|exact Hnone].
  apply repairMessages_valid. now apply store_ok_distinct.
Qed.

Lemma afterRespond_sends_valid st :
  store_ok st ->
  exists evs,
    trace (afterRespond st) = trace st ++ evs /\ sends_valid_logs evs.
Proof.
  intros Hok.
  assert (Hv : validateMessages (repairMessages (messages st)) = true)
    by (apply repairMessages_valid; now apply store_ok_distinct).
  unfold afterRespond.
  destruct (snd (modelReply st)) as [e|[|m rest]] eqn:Hr.
  - exists [ModelCall (repairMessages (messages st)) (inl e)]. split.
    + destruct (isRoleSequenceError e); simpl; now rewrite Hr.
    + now apply sends_valid_round.
  - exists [ModelCall (repairMessages (messages st)) (inr [])]. split.
    + simpl. now rewrite Hr.
    + now apply sends_valid_round.
  - cbv zeta. destruct (message_tool_calls m) as [calls|] eqn:Hc.
    + destruct (pushed_tools_roundTrip st m calls rest Hr Hc)
        as (ex1 & Hrt1 & Htr1).
      destruct (roundTrip_no_model_call _ _ _ _ Hrt1) as [Hnone1 _].
      destruct (afterFollowUp_sends_valid
                  (afterToolCalls calls
                     (pushed (assistantMessage m) (afterModelCall st))))
        as (evs2 & Htr2 & Hv2).
      { apply store_ok_afterToolCalls, store_ok_pushed; [reflexivity|].
        now apply store_ok_afterModelCall. }
      exists ((ModelCall (repairMessages (messages st)) (inr (m :: rest))
               :: ex1) ++ evs2).
      split.
      * rewrite Htr2, Htr1, <- app_assoc. reflexivity.
      * apply sends_valid_app; [|exact Hv2]. now apply sends_valid_round.
    + exists [ModelCall (repairMessages (messages st)) (inr (m :: rest))].
      split; [simpl; now rewrite Hr | now apply sends_valid_round].
Qed.

(** X7.  From a state whose log starts with a turn that is not a tool
    result and holds distinct message objects, every log a cycle submits to
    the model endpoint -- the initial request and the follow-up -- passes
    [validateMessages]: no orphaned tool result is ever sent. *)
Theorem processNewSegments_sends_only_valid_logs
  (segments : list TranscriptSegment) (st : State) :
  store_ok st ->
  exists evs,
    trace (fst (processNewSegments segments st)) = trace st ++ evs /\
    forall sent reply,
      In (ModelCall sent reply) evs -> validateMessages sent = true.
Proof.
  intros Hok. rewrite processNewSegments_run.
  destruct (filter (isNewSegment (lastProcessedTime st)) segments)
    as [|first others].
  - exists []. split; [simpl; now rewrite app_nil_r | intros ? ? []].
  - simpl fst.
    destruct (afterRespond_sends_valid (cycleStart first others st))
      as (evs & Htr & Hv); [now apply store_ok_cycleStart|].
    exists evs. split; [exact Htr | exact Hv].
Qed.

(** The follow-up request of a cycle that runs from start to finish: it
    is sent the log of the initial call followed by the assistant turn of
    the first reply and one tool result per request of that reply. *)
Lemma cycle_follow_up_request
  (segments : list TranscriptSegment) (st : State) (evs : list Event) :
  well_sequenced (messages st) = true ->
  trace (fst (processNewSegments segments st)) = trace st ++ evs ->
  length (modelCalls evs) = 2 ->
  exists sent1 m rest calls executed results o sent2 reply2 later w w',
    evs = ModelCall sent1 (inr (m :: rest)) :: executed ++
          ModelCall sent2 reply2 :: later /\
    message_tool_calls m = Some calls /\
    Attempts w calls executed w' /\
    Forall2 answers executed results /\
    sent2 = sent1 ++ assistantMessage m o :: results.
Proof.
  intros Hw Htrace Hcount. rewrite processNewSegments_run in Htrace.
  destruct (filter (isNewSegment (lastProcessedTime st)) segments)
    as [|first others].
  { simpl in Htrace. rewrite <- (app_nil_r (trace st)) in Htrace at 1.
    apply app_inv_head in Htrace. subst evs. discriminate. }
  simpl fst in Htrace.
  remember (cycleStart first others st) as s0 eqn:Hs0.
  assert (Ht0 : trace s0 = trace st) by (subst s0; reflexivity).
  assert (Hw0 : well_sequenced (messages s0) = true).
  { subst s0. simpl. apply well_sequenced_truncateMessages.
    now apply well_sequenced_snoc. }
  clear Hs0. unfold afterRespond in Htrace.
  assert (Hm1 : messages (afterModelCall s0) = messages s0)
    by (now apply well_sequenced_afterModelCall).
  destruct (snd (modelReply s0)) as [e|[|m rest]] eqn:Hr1.
  - exfalso.
    assert (Hone : trace s0 ++ evs =
                   trace s0 ++ [ModelCall (repairMessages (messages s0)) (inl e)]).
    { rewrite Ht0, <- Htrace.
      destruct (isRoleSequenceError e); simpl; now rewrite Hr1, Ht0. }
    apply app_inv_head in Hone. subst evs. discriminate.
  - exfalso.
    assert (Hone : trace s0 ++ evs =
                   trace s0 ++ [ModelCall (repairMessages (messages s0)) (inr [])]).
    { rewrite Ht0, <- Htrace. simpl. now rewrite Hr1, Ht0. }
    apply app_inv_head in Hone. subst evs. discriminate.
  - cbv zeta in Htrace. destruct (message_tool_calls m) as [calls|] eqn:Hc.
    + set (s2 := pushed (assistantMessage m) (afterModelCall s0)) in *.
      destruct (afterToolCalls_spec calls s2)
        as (ex1 & results & Hatt & Htr3 & Hmsg3 & Hans & _).
      set (s3 := afterToolCalls calls s2) in *.
      assert (Hw3 : well_sequenced (messages s3) = true).
      { apply well_sequenced_answered; [now rewrite Hm1 | exact Hc]. }
      destruct (afterFollowUp_roundTrip s3) as (ex2 & [Htr4 _]).
      rewrite Htr4, Htr3 in Htrace. simpl trace in Htrace.
      rewrite Hr1, Ht0, <- !app_assoc in Htrace.
      apply app_inv_head in Htrace. simpl in Htrace.
      exists (repairMessages (messages s0)), m, rest, calls, ex1, results,
        (next_oid s0), (repairMessages (messages s3)),
        (snd (modelReply s3)), ex2, (world s2), (world s3).
      split; [now rewrite <- Htrace|]. split; [exact Hc|].
      split; [exact Hatt|]. split; [exact Hans|].
      rewrite (well_sequenced_repair _ Hw3), Hmsg3.
      simpl messages. rewrite <- app_assoc. reflexivity.
    + exfalso.
      assert (Hone : trace s0 ++ evs =
                     trace s0 ++
                     [ModelCall (repairMessages (messages s0)) (inr (m :: rest))]).
      { rewrite Ht0, <- Htrace. simpl. now rewrite Hr1, Ht0. }
      apply app_inv_head in Hone. subst evs. discriminate.
Qed.

End RequestFacts.

(** X7 on the scenario of the specification. *)
Lemma processNewSegments_sends_only_valid_logs_witness :
  store_ok (fresh [inr [requests call_t1]; inr [says "It is noon"]]) /\
  exists evs,
    trace (fst (@processNewSegments scripted [hello]
                  (fresh [inr [requests call_t1]; inr [says "It is noon"]])))
    = trace (fresh [inr [requests call_t1]; inr [says "It is noon"]]) ++ evs /\
    forall sent reply,
      In (@ModelCall scripted sent reply) evs -> validateMessages sent = true.
Proof.
  split; [apply fresh_store_ok|].
  exact (@processNewSegments_sends_only_valid_logs scripted [hello]
           (fresh [inr [requests call_t1]; inr [says "It is noon"]])
           (fresh_store_ok _)).
Defined.

(** The events of the scenario of the specification. *)
Definition noon_events : list (@Event scripted) :=
  [ @ModelCall scripted [sys0; helloTurn] (inr [requests call_t1]);
    answered call_t1;
    @ModelCall scripted
      [ sys0; helloTurn; assistantMessage (requests call_t1) 2;
        toolMessage "t1" "12:00" 3 ]
      (inr [says "It is noon"]) ].

End Requests.

(** ** The life of the agent: construction, polling, joining and leaving *)

Module Lifecycle.
Import Agent.

(** The template of the system message in the constructor. *)
Definition systemPrompt (agentName : string) : string :=
  ("You are " ++
   agentName ++
   ", a helpful AI assistant participating in a meeting.

CORE GUIDELINES:
- Listen to the conversation and respond when:
  * Someone addresses you directly by name
  * You're asked a direct question
  * You have valuable information to add to the discussion
- Keep responses concise and natural
- Stay quiet during active discussions between others unless specifically involved
- Be helpful but not intrusive

CRITICAL TOOL USAGE RULES:
1. ALWAYS use speak_text after executing ANY other tool to verbally confirm what you did
2. When asked to leave the meeting, you MUST:
   - First use speak_text to say goodbye appropriately
   - Then immediately use the leave_meeting tool
3. Confirmation examples after tool actions:
   - After sending chat: " ++
   dquote ++
   "I've sent that message in the chat" ++
   dquote ++
   "
   - After getting transcript: " ++
   dquote ++
   "I've retrieved the meeting transcript" ++
   dquote ++
   "
   - After checking participants: " ++
   dquote ++
   "I can see who's in the meeting now" ++
   dquote ++
   "
   - After any action: Brief, clear confirmation of what was completed

MEETING BEHAVIOR:
- Always acknowledge when someone speaks to you
- Use speak_text as your primary way to communicate - this is how participants hear you
- If you use other tools (like send_chat_message, get_transcript, etc.), always follow up with speak_text to confirm the action
- When leaving, be polite but direct: say goodbye first, then leave

Remember: Participants can only hear you through speak_text. Always speak to confirm your actions so everyone knows what you've done.")%string.

(** One entry of [resource.contents]; [resource_text] is [Some] exactly
    when [typeof content.text === "string"]. *)
Record ResourceContent := {
  resource_text : option string
}.

Record Resource := {
  contents : option (list ResourceContent)
}.

(** What the agent uses of the server besides tool calls: reading and
    subscribing a resource, and the argument objects of the calls it
    builds itself.  [parseTranscript text] is
    [JSON.parse(text)] followed by the read of [.segments]: [inl] when this
    throws, [inr None] when the parsed value has no [segments]. *)
Class Server {E : Environment} := {
  readResource : World -> string -> World * (Exception + Resource);
  parseTranscript : string -> Exception + option (list TranscriptSegment);
  subscribeResource : World -> string -> World * (Exception + unit);
  joinArguments : string -> string -> JSON;
  speakArguments : string -> JSON;
  noArguments : JSON
}.

Section AgentLife.
Context {E : Environment} {S : Server}.
Open Scope agent_scope.

Definition missingKey : Exception :=
  {| instanceof_Error := true;
     error_message :=
       Some "OPENAI_API_KEY environment variable is required"%string |}.

Definition systemMessage (agentName : string) : Message :=
  {| oid := 0; role := system; content := Some (systemPrompt agentName);
     tool_calls := None; tool_call_id := None |}.

(** [new MeetingAgent(agentName)] with [process.env.OPENAI_API_KEY]; an
    absent or empty key is falsy. *)
Definition construct (OPENAI_API_KEY : option string) (agentName : string)
  (w : World) : Exception + State :=
  match OPENAI_API_KEY with
  | Some (String _ _) =>
      inr {| lastProcessedTime := 0;
             messages := [systemMessage agentName];
             next_oid := 1;
             world := w;
             trace := [] |}
  | _ => inl missingKey
  end.

(** [this.mcp.readResource({ uri: "transcript://live" })] *)
Definition readTranscript : M Resource :=
  fun st =>
    let '(w, r) := readResource (world st) "transcript://live" in
    ({| lastProcessedTime := lastProcessedTime st;
        messages := messages st;
        next_oid := next_oid st;
        world := w;
        trace := trace st |}, r).

(** Calling [.filter] on [undefined]. *)
Definition notAnArray : Exception :=
  {| instanceof_Error := true;
     error_message :=
       Some "Cannot read properties of undefined (reading 'filter')"%string |}.

(** The callback of [setInterval] in [startTranscriptMonitoring]. *)
Definition pollTick : M unit :=
  try_catch
    (resource <- readTranscript ;;
     match contents resource with
     | Some (content :: _) =>
         match resource_text content with
         | Some text =>
             match parseTranscript text with
             | inl e => throw e
             | inr (Some segments) => processNewSegments segments
             | inr None => throw notAnArray
             end
         | None => ret tt
         end
     | _ => ret tt
     end)
    (fun error => ret tt).

(** What the process did to the server and to itself, in order (ghost
    state). *)
Inductive Step :=
| Called (name : string) (ok : bool)
| Subscribed (ok : bool)
| MonitoringStarted
| IntervalCleared
| Exited (code : Z).

Record Process := {
  agent : State;
  pollingInterval : option nat;
  next_interval : nat;
  steps : list Step;
  exited : option Z
}.

Definition P (A : Type) : Type := Process -> Process * (Exception + A).

Definition andThen {A B} (m : P A) (k : A -> P B) : P B :=
  fun p =>
    match m p with
    | (p', inr a) => k a p'
    | (p', inl e) => (p', inl e)
    end.

Definition succeeded {A} (r : Exception + A) : bool :=
  match r with inr _ => true | inl _ => false end.

Definition withWorld (w : World) (st : State) : State :=
  {| lastProcessedTime := lastProcessedTime st;
     messages := messages st;
     next_oid := next_oid st;
     world := w;
     trace := trace st |}.

(** [await this.mcp.callTool({ name, arguments })] with an argument object
    built by the agent itself. *)
Definition callNamed (name : string) (arguments : JSON) : P unit :=
  fun p =>
    let '(w, r) := mcp_callTool (world (agent p)) name arguments in
    ({| agent := withWorld w (agent p);
        pollingInterval := pollingInterval p;
        next_interval := next_interval p;
        steps := steps p ++ [Called name (succeeded r)];
        exited := exited p |},
     match r with inl e => inl e | inr _ => inr tt end).

Definition subscribe (uri : string) : P unit :=
  fun p =>
    let '(w, r) := subscribeResource (world (agent p)) uri in
    ({| agent := withWorld w (agent p);
        pollingInterval := pollingInterval p;
        next_interval := next_interval p;
        steps := steps p ++ [Subscribed (succeeded r)];
        exited := exited p |}, r).

(** [this.pollingInterval = setInterval(..., 1000)] *)
Definition startTranscriptMonitoring : P unit :=
  fun p =>
    ({| agent := agent p;
        pollingInterval := Some (next_interval p);
        next_interval := Datatypes.S (next_interval p);
        steps := steps p ++ [MonitoringStarted];
        exited := exited p |}, inr tt).

Definition greeting (agentName : string) : string :=
  ("Hello everyone, I'm " ++ agentName ++
   ", your AI assistant for this meeting.")%string.

Definition joinMeeting (meetingUrl agentName : string) : P unit :=
  andThen (callNamed "join_meeting" (joinArguments meetingUrl agentName))
    (fun _ =>
  andThen (callNamed "speak_text" (speakArguments (greeting agentName)))
    (fun _ =>
  andThen (subscribe "transcript://live")
    (fun _ => startTranscriptMonitoring))).

Definition leaveMeeting : P unit :=
  andThen (callNamed "speak_text"
             (speakArguments "Thank you everyone, goodbye!"))
    (fun _ => callNamed "leave_meeting" noArguments).

(** [if (this.pollingInterval) { clearInterval(...); this.pollingInterval =
    null }] *)
Definition stopPolling : P unit :=
  fun p =>
    match pollingInterval p with
    | Some _ =>
        ({| agent := agent p;
            pollingInterval := None;
            next_interval := next_interval p;
            steps := steps p ++ [IntervalCleared];
            exited := exited p |}, inr tt)
    | None => (p, inr tt)
    end.

(** [cleanup()]: the interval is cleared, then [await this.mcp.close()].
    [connect] installs [transport.onclose = () => this.cleanup()], so
    closing the connection calls back into [cleanup], which closes again;
    how often, and what the process looks like when the outermost call
    settles, is decided by the SDK and the runtime.  The call is therefore
    a parameter here: any computation of the process that returns or
    throws (a close that never settles is not covered). *)
Definition cleanup (mcp_close : P unit) : P unit :=
  andThen stopPolling (fun _ => mcp_close).

(** [process.exit(code)] *)
Definition exit (code : Z) : P unit :=
  fun p =>
    ({| agent := agent p;
        pollingInterval := pollingInterval p;
        next_interval := next_interval p;
        steps := steps p ++ [Exited code];
        exited := Some code |}, inr tt).

(** The [SIGINT] handler of [main]: nothing catches what it throws. *)
Definition onSIGINT (mcp_close : P unit) : P unit :=
  andThen leaveMeeting
    (fun _ => andThen (cleanup mcp_close) (fun _ => exit 0)).

End AgentLife.

End Lifecycle.

(** ** The polling callbacks in flight *)

Module EventLoop.
Import Agent DriverSpec Driver Lifecycle.

Section Callbacks.
Context {E : Environment} {S : Server}.

(** Which of the two requests of a cycle a callback is working on. *)
Inductive Round := Initial | FollowUp.

(** A polling callback suspended at an [await]: of the transcript read, of
    the chat completion inside [makeOpenAIRequest] (the log handed to the
    SDK is [sent]), or of a tool call inside one of the two loops (the
    arguments are parsed, [rest] are the requests still to come). *)
Inductive Suspended :=
| AwaitingRead
| AwaitingCompletion (round : Round) (sent : list Message)
| AwaitingTool (round : Round) (toolCall : ToolCall) (arguments : JSON)
               (rest : list ToolCall).

(** [makeOpenAIRequest] up to its [await]: the log is validated, cleaned
    up if need be, and handed to the SDK, which is taken to read it when
    it is called. *)
Definition issueRequest (round : Round) (st : State)
  : State * option Suspended :=
  let st' := withMessages repairMessages st in
  (st', Some (AwaitingCompletion round (messages st'))).

(** The tool message pushed for [toolCall] once its attempt has settled
    with [outcome], the outside being left in state [w]. *)
Definition toolAnswered (toolCall : ToolCall) (w : World)
  (outcome : Exception + ToolResult) (st : State) : State :=
  {| lastProcessedTime := lastProcessedTime st;
     messages :=
       messages st ++
       [toolMessage (call_id toolCall) (resultContent outcome) (next_oid st)];
     next_oid := Datatypes.S (next_oid st);
     world := w;
     trace := trace st ++ [ToolAttempt toolCall outcome] |}.

(** [for (const toolCall of calls)] up to the next [await]: a request whose
    arguments do not parse is answered at once, by the [catch] of the loop
    body; the first one that parses is sent to the gateway.  After the
    loop of the first reply comes the follow-up request; after the loop of
    the follow-up reply the callback returns. *)
Fixpoint startTools (round : Round) (calls : list ToolCall) (st : State)
  : State * option Suspended :=
  match calls with
  | [] =>
      match round with
      | Initial => issueRequest FollowUp st
      | FollowUp => (st, None)
      end
  | toolCall :: rest =>
      match JSON_parse (function_arguments toolCall) with
      | inl toolError =>
          startTools round rest
            (toolAnswered toolCall (world st) (inl toolError) st)
      | inr arguments =>
          (st, Some (AwaitingTool round toolCall arguments rest))
      end
  end.

(** [processNewSegments] up to its first [await]. *)
Definition startCycle (segments : list TranscriptSegment) (st : State)
  : State * option Suspended :=
  match filter (isNewSegment (lastProcessedTime st)) segments with
  | [] => (st, None)
  | first :: others => issueRequest Initial (cycleStart first others st)
  end.

(** The [catch] that an error of the given round reaches: the outer one
    for the initial request, the inner one for the follow-up. *)
Definition onError (round : Round) (error : Exception) (st : State) : State :=
  match round with
  | Initial =>
      if isRoleSequenceError error then withMessages resetMessages st else st
  | FollowUp => st
  end.

Definition modelAnswered (sent : list Message) (w : World)
  (reply : Exception + list ChatMessage) (st : State) : State :=
  {| lastProcessedTime := lastProcessedTime st;
     messages := messages st;
     next_oid := next_oid st;
     world := w;
     trace := trace st ++ [ModelCall sent reply] |}.

(** The awaited promise settles and the callback runs on to its next
    [await] ([Some]) or to its end ([None]).  The outside answers when the
    promise settles. *)
Definition resume (s : Suspended) (st : State) : State * option Suspended :=
  match s with
  | AwaitingRead =>
      let '(w, r) := readResource (world st) "transcript://live" in
      let st1 := withWorld w st in
      match r with
      | inr resource =>
          match contents resource with
          | Some (content :: _) =>
              match resource_text content with
              | Some text =>
                  match parseTranscript text with
                  | inr (Some segments) => startCycle segments st1
                  | _ => (st1, None)
                  end
              | None => (st1, None)
              end
          | _ => (st1, None)
          end
      | inl _ => (st1, None)
      end
  | AwaitingCompletion round sent =>
      let '(w, reply) := chat_completions_create (world st) sent in
      let st1 := modelAnswered sent w reply st in
      match reply with
      | inl error => (onError round error st1, None)
      | inr response =>
          match firstChoice response st1 with
          | (st1', inl error) => (onError round error st1', None)
          | (st1', inr message) =>
              let st2 := pushed (assistantMessage message) st1' in
              match message_tool_calls message with
              | Some calls => startTools round calls st2
              | None => (st2, None)
              end
          end
      end
  | AwaitingTool round toolCall arguments rest =>
      let '(w, outcome) :=
        mcp_callTool (world st) (function_name toolCall) arguments in
      startTools round rest (toolAnswered toolCall w outcome st)
  end.

(** The agent and the polling callbacks in flight, oldest first. *)
Record Loop := {
  agentState : State;
  inFlight : list Suspended
}.

(** What the event loop does next: the polling interval fires and a new
    callback starts, up to its read of the transcript; or the promise
    awaited by the [k]-th callback in flight settles. *)
Inductive Turn :=
| Tick
| Settle (k : nat).

Definition waiting (next : option Suspended) : list Suspended :=
  match next with
  | Some s => [s]
  | None => []
  end.

Definition turn (l : Loop) (t : Turn) : Loop :=
  match t with
  | Tick =>
      {| agentState := agentState l;
         inFlight := inFlight l ++ [AwaitingRead] |}
  | Settle k =>
      match nth_error (inFlight l) k with
      | Some s =>
          let '(st, next) := resume s (agentState l) in
          {| agentState := st;
             inFlight :=
               firstn k (inFlight l) ++ waiting next ++
               skipn (Datatypes.S k) (inFlight l) |}
      | None => l
      end
  end.

Definition runLoop (turns : list Turn) (l : Loop) : Loop :=
  fold_left turn turns l.

(** The callback started by a tick is the only one to run until it has
    settled [n] times. *)
Definition alone (n : nat) (l : Loop) : Loop :=
  runLoop (Tick :: repeat (Settle (length (inFlight l))) n) l.

End Callbacks.

End EventLoop.

Module LifecycleFacts.
Import Agent StoreSpec DriverSpec Store Driver Invariants Requests Lifecycle.

Section LifeFacts.
Context {E : Environment} {S : Server}.

(** *** Shutdown and start-up *)

(** The step [IntervalCleared], when there was an interval to clear. *)
Definition cleared (p : Process) : list Step :=
  match pollingInterval p with
  | Some _ => [IntervalCleared]
  | None => []
  end.

(** X9.  The [SIGINT] handler says goodbye, leaves, clears the polling
    interval and only then closes the connection; it stops at the first
    call that fails.  If the farewell or the leave fails, nothing else of
    the handler runs: the meeting is not left after a failed farewell, the
    interval is not cleared by the handler, the connection is not closed
    and [process.exit(0)] is not reached.  If both succeed, closing is
    entered with the interval already cleared -- so a [cleanup] re-entered
    from the closing connection finds nothing to clear -- and
    [process.exit(0)] is reached exactly when the closing returns
    normally, whatever else it did.  (What the runtime does with the
    rejected promise of the handler is not modelled.) *)
Theorem onSIGINT_stops_at_first_failure (mcp_close : P unit) (p : Process) :
  (succeeded (snd (leaveMeeting p)) = false ->
   (steps (fst (leaveMeeting p)) = steps p ++ [Called "speak_text" false] \/
    steps (fst (leaveMeeting p)) =
      steps p ++ [Called "speak_text" true; Called "leave_meeting" false]) /\
   fst (onSIGINT mcp_close p) = fst (leaveMeeting p) /\
   succeeded (snd (onSIGINT mcp_close p)) = false /\
   pollingInterval (fst (onSIGINT mcp_close p)) = pollingInterval p /\
   exited (fst (onSIGINT mcp_close p)) = exited p) /\
  (succeeded (snd (leaveMeeting p)) = true ->
   exists entered,
     steps entered =
       steps p ++ [Called "speak_text" true; Called "leave_meeting" true] ++
       cleared p /\
     pollingInterval entered = None /\
     stopPolling entered = (entered, inr tt) /\
     exited entered = exited p /\
     onSIGINT mcp_close p =
       match mcp_close entered with
       | (closed, inr _) => exit 0 closed
       | (closed, inl e) => (closed, inl e)
       end).
Proof.
  unfold onSIGINT, leaveMeeting, cleanup, andThen, callNamed.
  destruct (mcp_callTool (world (agent p)) "speak_text"
              (speakArguments "Thank you everyone, goodbye!"))
    as [w1 [e1|r1]]; simpl.
  { split; [intros _ | discriminate]. auto 6. }
  destruct (mcp_callTool w1 "leave_meeting" noArguments) as [w2 [e2|r2]];
    simpl.
  { split; [intros _ | discriminate].
    split; [right; now rewrite <- app_assoc|]. auto. }
  split; [discriminate | intros _].
  unfold stopPolling, cleared. simpl.
  destruct (pollingInterval p) as [h|] eqn:Hp; simpl.
  - exists {| agent := withWorld w2 (withWorld w1 (agent p));
              pollingInterval := None;
              next_interval := next_interval p;
              steps := ((steps p ++ [Called "speak_text" true]) ++
                        [Called "leave_meeting" true]) ++ [IntervalCleared];
              exited := exited p |}.
    simpl. rewrite <- !app_assoc. auto.
  - exists {| agent := withWorld w2 (withWorld w1 (agent p));
              pollingInterval := None;
              next_interval := next_interval p;
              steps := (steps p ++ [Called "speak_text" true]) ++
                       [Called "leave_meeting" true];
              exited := exited p |}.
    simpl. rewrite <- !app_assoc. auto.
Qed.

(** X10.  [joinMeeting] joins, greets, subscribes and only then starts
    polling; it stops at the first step that fails and lets the error
    through, so the polling interval is set exactly when the three calls
    before it succeeded. *)
Theorem joinMeeting_starts_polling_last (meetingUrl agentName : string)
  (p : Process) :
  exists added,
    steps (fst (joinMeeting meetingUrl agentName p)) = steps p ++ added /\
    ((added = [Called "join_meeting" false] \/
      added = [Called "join_meeting" true; Called "speak_text" false] \/
      added = [Called "join_meeting" true; Called "speak_text" true;
               Subscribed false]) /\
     succeeded (snd (joinMeeting meetingUrl agentName p)) = false /\
     pollingInterval (fst (joinMeeting meetingUrl agentName p)) =
       pollingInterval p
     \/
     added = [Called "join_meeting" true; Called "speak_text" true;
              Subscribed true; MonitoringStarted] /\
     snd (joinMeeting meetingUrl agentName p) = inr tt /\
     pollingInterval (fst (joinMeeting meetingUrl agentName p)) =
       Some (next_interval p)).
Proof.
  unfold joinMeeting, andThen, callNamed, subscribe, startTranscriptMonitoring.
  destruct (mcp_callTool (world (agent p)) "join_meeting"
              (joinArguments meetingUrl agentName)) as [w1 [e1|r1]]; simpl.
  { eexists. split; [reflexivity|]. left. auto. }
  destruct (mcp_callTool w1 "speak_text" (speakArguments (greeting agentName)))
    as [w2 [e2|r2]]; simpl.
  { eexists. split; [rewrite <- app_assoc; reflexivity|]. left. auto. }
  destruct (subscribeResource w2 "transcript://live") as [w3 [e3|[]]]; simpl.
  { eexists. split; [rewrite <- !app_assoc; reflexivity|]. left. simpl. auto. }
  eexists. split; [rewrite <- !app_assoc; reflexivity|]. right. simpl. auto.
Qed.

End LifeFacts.

End LifecycleFacts.

(** ** One polling callback from start to finish *)

Module AgentRun.
Import Agent StoreSpec DriverSpec Store Driver Invariants Requests Lifecycle.

Section RunFacts.
Context {E : Environment} {S : Server}.

Definition starts_with (s : Message) (l : list Message) : Prop :=
  exists rest, l = s :: rest.

(** A poll either only talks to the server or runs [processNewSegments]. *)
Lemma pollTick_cases st :
  exists w,
    pollTick st = (withWorld w st, inr tt) \/
    exists segments,
      pollTick st = (fst (processNewSegments segments (withWorld w st)), inr tt).
Proof.
  unfold pollTick, try_catch, bind, readTranscript.
  destruct (readResource (world st) "transcript://live") as [w [e|resource]].
  { exists w. left. reflexivity. }
  exists w. fold (withWorld w st).
  destruct (contents resource) as [[|content more]|]; try (left; reflexivity).
  destruct (resource_text content) as [text|]; [|left; reflexivity].
  destruct (parseTranscript text) as [e|[segments|]]; try (left; reflexivity).
  right. exists segments. now rewrite processNewSegments_run;
    destruct (filter _ segments).
Qed.

(** *** What one cycle keeps *)

Lemma starts_with_repair s l :
  is_tool s = false -> starts_with s l -> starts_with s (repairMessages l).
Proof.
  intros Hs [rest ->]. unfold repairMessages.
  destruct (validateMessages (s :: rest)); [now exists rest|].
  simpl. rewrite keepMessage_not_tool by exact Hs. eexists. reflexivity.
Qed.

Lemma starts_with_truncate s l :
  starts_with s l -> starts_with s (truncateMessages l).
Proof.
  intros [rest ->].
  pose proof (truncateMessages_head (s :: rest)) as Hh. simpl in Hh.
  destruct (truncateMessages (s :: rest)) as [|s' rest']; [discriminate|].
  inversion Hh; subst. now exists rest'.
Qed.

Lemma starts_with_app s l more : starts_with s l -> starts_with s (l ++ more).
Proof. intros [rest ->]. now exists (rest ++ more). Qed.

Lemma starts_with_reset s l : starts_with s l -> starts_with s (resetMessages l).
Proof. intros [rest ->]. simpl. eexists. reflexivity. Qed.

Lemma cycle_well_sequenced segments st :
  well_sequenced (messages st) = true ->
  well_sequenced (messages (fst (processNewSegments segments st))) = true.
Proof.
  intros Hw. rewrite processNewSegments_run.
  destruct (filter (isNewSegment (lastProcessedTime st)) segments)
    as [|first others]; [exact Hw|].
  simpl fst.
  set (u := userMessage (transcriptText (first :: others)) (next_oid st)).
  destruct (truncateMessages_last (messages st) u) as (earlier & Hshape).
  apply (well_sequenced_afterRespond _ earlier u);
    [exact Hshape | reflexivity |].
  simpl messages. fold u. apply well_sequenced_truncateMessages.
  now apply well_sequenced_snoc.
Qed.

(** *** What every request looks like *)

Definition well_formed_request (s : Message) (sent : list Message) : Prop :=
  starts_with s sent /\ validateMessages sent = true.

Definition requests_well_formed (s : Message) (evs : list Event) : Prop :=
  forall sent reply, In (ModelCall sent reply) evs -> well_formed_request s sent.

End RunFacts.

End AgentRun.

(** ** The callbacks in flight: alone and interleaved *)

Module EventLoopFacts.
Import Agent StoreSpec DriverSpec Store Driver Invariants Requests Lifecycle.
Import AgentRun EventLoop.

Section LoopFacts.
Context {E : Environment} {S : Server}.

(** *** A callback that runs alone is the callback of [Agent] *)

(** A callback settled [n] times in a row. *)
Fixpoint settleAlone (n : nat) (c : State * option Suspended)
  : State * option Suspended :=
  match n, snd c with
  | Datatypes.S k, Some s => settleAlone k (resume s (fst c))
  | _, _ => c
  end.

Lemma settleAlone_done n st : settleAlone n (st, None) = (st, None).
Proof. now destruct n. Qed.

Lemma settleAlone_add n k c :
  settleAlone (n + k) c = settleAlone k (settleAlone n c).
Proof.
  revert c. induction n as [|n IH]; intros [st [s|]]; simpl.
  - reflexivity.
  - reflexivity.
  - apply IH.
  - now rewrite settleAlone_done.
Qed.

(** The callback, left alone, ends in [st']. *)
Definition ends_in (c : State * option Suspended) (st' : State) : Prop :=
  exists n, settleAlone n c = (st', None).

Lemma ends_in_now st : ends_in (st, None) st.
Proof. now exists 0. Qed.

Lemma ends_in_resume s st st' :
  ends_in (resume s st) st' -> ends_in (st, Some s) st'.
Proof. intros [n H]. exists (Datatypes.S n). exact H. Qed.

Lemma ends_in_unique c a b : ends_in c a -> ends_in c b -> a = b.
Proof.
  intros [n Hn] [m Hm].
  destruct (Nat.le_ge_cases n m) as [Hle|Hle].
  - replace m with (n + (m - n)) in Hm by lia.
    rewrite settleAlone_add, Hn, settleAlone_done in Hm. congruence.
  - replace n with (m + (n - m)) in Hn by lia.
    rewrite settleAlone_add, Hm, settleAlone_done in Hn. congruence.
Qed.

Lemma toolAnswered_afterToolCall toolCall st :
  toolAnswered toolCall (fst (invokeTool (world st) toolCall))
    (snd (invokeTool (world st) toolCall)) st =
  afterToolCall toolCall st.
Proof. reflexivity. Qed.

(** After the loop over [calls]: the follow-up request, or the end. *)
Definition afterLoop (round : Round) (st : State) : State * option Suspended :=
  match round with
  | Initial => issueRequest FollowUp st
  | FollowUp => (st, None)
  end.

Lemma startTools_ends_in round calls :
  forall st st',
    ends_in (afterLoop round (afterToolCalls calls st)) st' ->
    ends_in (startTools round calls st) st'.
Proof.
  induction calls as [|toolCall rest IH]; intros st st' H.
  - destruct round; exact H.
  - simpl afterToolCalls in H. apply IH in H.
    rewrite <- toolAnswered_afterToolCall in H.
    cbn [startTools]. unfold invokeTool in H.
    destruct (JSON_parse (function_arguments toolCall)) as [e|arguments].
    + exact H.
    + apply ends_in_resume. cbn [resume].
      destruct (mcp_callTool (world st) (function_name toolCall) arguments)
        as [w outcome]. exact H.
Qed.

Lemma modelAnswered_afterModelCall st :
  modelAnswered (repairMessages (messages st)) (fst (modelReply st))
    (snd (modelReply st)) (withMessages repairMessages st) =
  afterModelCall st.
Proof. reflexivity. Qed.

Lemma resume_completion round st :
  resume (AwaitingCompletion round (repairMessages (messages st)))
         (withMessages repairMessages st) =
  match snd (modelReply st) with
  | inl error => (onError round error (afterModelCall st), None)
  | inr [] => (afterModelCall st, None)
  | inr (message :: _) =>
      let st2 := pushed (assistantMessage message) (afterModelCall st) in
      match message_tool_calls message with
      | Some calls => startTools round calls st2
      | None => (st2, None)
      end
  end.
Proof.
  cbn [resume]. change (world (withMessages repairMessages st)) with (world st).
  fold (modelReply st). rewrite <- modelAnswered_afterModelCall.
  destruct (modelReply st) as [w [error|[|message rest]]]; cbn [fst snd].
  - reflexivity.
  - cbn [firstChoice throw]. now destruct round.
  - reflexivity.
Qed.

Lemma followUp_ends_in st : ends_in (issueRequest FollowUp st) (afterFollowUp st).
Proof.
  apply ends_in_resume. cbn [messages withMessages].
  rewrite resume_completion. unfold afterFollowUp.
  destruct (snd (modelReply st)) as [error|[|message rest]];
    try apply ends_in_now.
  cbv zeta. destruct (message_tool_calls message) as [calls|].
  - apply startTools_ends_in. apply ends_in_now.
  - apply ends_in_now.
Qed.

Lemma respond_ends_in st : ends_in (issueRequest Initial st) (afterRespond st).
Proof.
  apply ends_in_resume. cbn [messages withMessages].
  rewrite resume_completion. unfold afterRespond.
  destruct (snd (modelReply st)) as [error|[|message rest]].
  - cbn [onError]. destruct (isRoleSequenceError error); apply ends_in_now.
  - apply ends_in_now.
  - cbv zeta. destruct (message_tool_calls message) as [calls|].
    + apply startTools_ends_in. apply followUp_ends_in.
    + apply ends_in_now.
Qed.

Lemma startCycle_ends_in segments st :
  ends_in (startCycle segments st) (fst (processNewSegments segments st)).
Proof.
  unfold startCycle. rewrite processNewSegments_run.
  destruct (filter (isNewSegment (lastProcessedTime st)) segments)
    as [|first others].
  - apply ends_in_now.
  - apply respond_ends_in.
Qed.

(** The callback of one tick, run alone, does what [pollTick] does. *)
Lemma tick_ends_in st : ends_in (st, Some AwaitingRead) (fst (pollTick st)).
Proof.
  apply ends_in_resume. cbn [resume].
  unfold pollTick, try_catch, bind, readTranscript.
  destruct (readResource (world st) "transcript://live") as [w [e|resource]].
  { apply ends_in_now. }
  fold (withWorld w st).
  destruct (contents resource) as [[|content more]|]; try apply ends_in_now.
  destruct (resource_text content) as [text|]; [|apply ends_in_now].
  destruct (parseTranscript text) as [e|[segments|]]; try apply ends_in_now.
  pose proof (startCycle_ends_in segments (withWorld w st)) as H.
  rewrite processNewSegments_run in *.
  now destruct (filter _ segments).
Qed.

Lemma runLoop_settled n pool :
  forall c,
    runLoop (repeat (Settle (length pool)) n)
      {| agentState := fst c; inFlight := pool ++ waiting (snd c) |} =
    {| agentState := fst (settleAlone n c);
       inFlight := pool ++ waiting (snd (settleAlone n c)) |}.
Proof.
  induction n as [|n IH]; intros [st next]; [reflexivity|].
  cbn [repeat runLoop fold_left]. fold (runLoop (repeat (Settle (length pool)) n)).
  destruct next as [s|]; cbn [turn inFlight agentState fst snd waiting].
  - rewrite nth_error_app2, Nat.sub_diag by lia. cbn [nth_error].
    destruct (resume s st) as [st1 next1] eqn:Hres.
    rewrite firstn_app, firstn_all, Nat.sub_diag. cbn [firstn].
    rewrite app_nil_r.
    rewrite skipn_app, skipn_all2 by lia.
    replace (Datatypes.S (length pool) - length pool) with 1 by lia.
    cbn [skipn app]. rewrite app_nil_r.
    pose proof (IH (st1, next1)) as H. unfold runLoop in H.
    cbn [fst snd] in H. rewrite H.
    cbn [settleAlone snd fst]. now rewrite Hres.
  - rewrite app_nil_r.
    assert (Hnone : nth_error pool (length pool) = None)
      by (apply nth_error_None; lia).
    rewrite Hnone.
    pose proof (IH (st, None)) as H. unfold runLoop in H.
    cbn [fst snd waiting] in H.
    rewrite app_nil_r in H. rewrite H.
    now rewrite !settleAlone_done.
Qed.

(** A callback that was alone from its tick to its end leaves the agent as
    [pollTick] does, and the callbacks that were in flight as they were. *)
Lemma alone_pollTick n l :
  inFlight (alone n l) = inFlight l ->
  agentState (alone n l) = fst (pollTick (agentState l)).
Proof.
  unfold alone, runLoop. cbn [repeat fold_left turn].
  pose proof (runLoop_settled n (inFlight l) (agentState l, Some AwaitingRead))
    as H.
  unfold runLoop in H. cbn [fst snd waiting] in H. rewrite H.
  cbn [inFlight agentState].
  intros Hpool.
  destruct (settleAlone n (agentState l, Some AwaitingRead)) as [st' next]
    eqn:Hn.
  cbn [fst snd] in *.
  assert (Hdone : next = None).
  { destruct next as [s|]; [|reflexivity]. exfalso.
    rewrite <- (app_nil_r (inFlight l)) in Hpool at 2.
    apply app_inv_head in Hpool. discriminate. }
  subst next.
  apply (ends_in_unique (agentState l, Some AwaitingRead));
    [now exists n | apply tick_ends_in].
Qed.

Lemma pollTick_well_sequenced st :
  well_sequenced (messages st) = true ->
  well_sequenced (messages (fst (pollTick st))) = true.
Proof.
  intros Hw. destruct (pollTick_cases st) as (w & [->|(segments & ->)]).
  - exact Hw.
  - now apply cycle_well_sequenced.
Qed.

(** X1.  A polling callback that is the only one to run from its tick to
    its end -- whatever callbacks are in flight, none of them is resumed
    meanwhile -- keeps the shape of the log: if every tool result follows
    the assistant turn that issued its request with only tool results in
    between, the same holds when the callback has ended, whatever the
    server, the model and the tools answered; in particular the log still
    passes [validateMessages].  (Two callbacks that take turns break this,
    see [overlapping_callbacks_orphan_a_result].) *)
Theorem lone_callback_keeps_log_well_sequenced (l : Loop) (n : nat) :
  well_sequenced (messages (agentState l)) = true ->
  inFlight (alone n l) = inFlight l ->
  well_sequenced (messages (agentState (alone n l))) = true /\
  validateMessages (messages (agentState (alone n l))) = true.
Proof.
  intros Hw Hdone. rewrite (alone_pollTick n l Hdone).
  pose proof (pollTick_well_sequenced (agentState l) Hw) as H.
  split; [exact H | now apply well_sequenced_valid].
Qed.

(** X8.  When a polling callback that is the only one to run from its tick
    to its end makes two model calls, on a log of the driver's shape, the
    second call is sent the log of the first followed by the assistant
    turn of the first reply and one tool result per request of that reply,
    in the order of the requests: left alone, the driver never shows the
    model a request without its paired result. *)
Theorem lone_callback_sends_every_result
  (l : Loop) (n : nat) (evs : list Event) :
  well_sequenced (messages (agentState l)) = true ->
  inFlight (alone n l) = inFlight l ->
  trace (agentState (alone n l)) = trace (agentState l) ++ evs ->
  length (modelCalls evs) = 2 ->
  exists sent1 m rest calls executed results o sent2 reply2 later w w',
    evs = ModelCall sent1 (inr (m :: rest)) :: executed ++
          ModelCall sent2 reply2 :: later /\
    message_tool_calls m = Some calls /\
    Attempts w calls executed w' /\
    Forall2 answers executed results /\
    sent2 = sent1 ++ assistantMessage m o :: results.
Proof.
  intros Hw Hdone Htrace Hcount.
  rewrite (alone_pollTick n l Hdone) in Htrace.
  destruct (pollTick_cases (agentState l)) as (w & [Heq|(segments & Heq)]);
    rewrite Heq in Htrace; cbn [fst] in Htrace.
  - exfalso. simpl in Htrace.
    rewrite <- (app_nil_r (trace (agentState l))) in Htrace at 1.
    apply app_inv_head in Htrace. subst evs. discriminate.
  - exact (cycle_follow_up_request segments (withWorld w (agentState l)) evs
             Hw Htrace Hcount).
Qed.

(** *** What holds however the callbacks take turns *)

(** The tool messages of the log are distinct objects, two entries that
    are the same object are equal, and every object was allocated before
    the next fresh one.  (The reset of a log of one message holds that
    message twice, so the log as a whole is not required to hold distinct
    objects.) *)
Definition tools_distinct (n : nat) (l : list Message) : Prop :=
  NoDup (map oid (filter is_tool l)) /\
  (forall m m', In m l -> In m' l -> oid m = oid m' -> m = m') /\
  Forall (fun m => oid m < n) l.

Lemma filter_comm {A} (f g : A -> bool) (l : list A) :
  filter f (filter g l) = filter g (filter f l).
Proof.
  induction l as [|a l IH]; simpl; [reflexivity|].
  destruct (f a) eqn:Hf, (g a) eqn:Hg; simpl; rewrite ?Hf, ?Hg, IH; reflexivity.
Qed.

Lemma NoDup_map_filter {A B} (g : A -> B) (f : A -> bool) (l : list A) :
  NoDup (map g l) -> NoDup (map g (filter f l)).
Proof.
  induction l as [|a l IH]; simpl; intros H; [constructor|].
  inversion H as [|? ? Hnotin Hnd]; subst.
  destruct (f a); simpl; [|auto].
  constructor; [|auto]. intros Hin. apply Hnotin.
  apply in_map_iff in Hin as (x & Hx & Hin). apply filter_In in Hin as [Hin _].
  apply in_map_iff. eauto.
Qed.

Lemma tools_distinct_filter n f l :
  tools_distinct n l -> tools_distinct n (filter f l).
Proof.
  intros (Hnd & Hco & Hall). split; [|split].
  - rewrite filter_comm. now apply NoDup_map_filter.
  - intros m m' Hm Hm'. apply filter_In in Hm as [Hm _].
    apply filter_In in Hm' as [Hm' _]. now apply Hco.
  - rewrite Forall_forall in *. intros m Hm. apply Hall.
    apply filter_In in Hm. tauto.
Qed.

Lemma tools_distinct_repair n l :
  tools_distinct n l -> tools_distinct n (repairMessages l).
Proof.
  intros H. unfold repairMessages.
  destruct (validateMessages l); [exact H | now apply tools_distinct_filter].
Qed.

Lemma tools_distinct_cut n s dropped kept :
  is_tool s = false ->
  tools_distinct n (s :: dropped ++ kept) -> tools_distinct n (s :: kept).
Proof.
  intros Hs (Hnd & Hco & Hall). split; [|split].
  - simpl in *. rewrite Hs in *. rewrite filter_app, map_app in Hnd.
    now apply NoDup_app_remove_l in Hnd.
  - intros m m' Hm Hm'. apply Hco.
    + destruct Hm as [->|Hm]; [now left | right; apply in_or_app; now right].
    + destruct Hm' as [->|Hm']; [now left | right; apply in_or_app; now right].
  - inversion Hall as [|? ? H1 H2]; subst. apply Forall_app in H2 as [_ H2].
    now constructor.
Qed.

Lemma tools_distinct_truncate n s l :
  is_tool s = false -> starts_with s l ->
  tools_distinct n l -> tools_distinct n (truncateMessages l).
Proof.
  intros Hs [rest ->] H. unfold truncateMessages.
  destruct (length (s :: rest) <=? 15); [exact H|].
  apply (tools_distinct_cut n s
           (firstn (safeTruncateIndex rest (length rest - 14)) rest));
    [exact Hs|].
  now rewrite firstn_skipn.
Qed.

Lemma tools_distinct_snoc n l m :
  tools_distinct n l -> oid m = n -> tools_distinct (Datatypes.S n) (l ++ [m]).
Proof.
  intros (Hnd & Hco & Hall) Hm.
  assert (Hfresh : forall x, In x l -> oid x <> oid m).
  { intros x Hx. rewrite Forall_forall in Hall. specialize (Hall x Hx). lia. }
  split; [|split].
  - rewrite filter_app, map_app. simpl.
    destruct (is_tool m); simpl; [|now rewrite app_nil_r].
    apply NoDup_app; [exact Hnd | repeat constructor; auto |].
    intros x Hx [Hx'|[]]. subst x.
    apply in_map_iff in Hx as (y & Hy & Hin). apply filter_In in Hin as [Hin _].
    now apply (Hfresh y Hin).
  - intros a b Ha Hb Heq.
    apply in_app_or in Ha as [Ha|[<-|[]]];
      apply in_app_or in Hb as [Hb|[<-|[]]].
    + now apply Hco.
    + destruct (Hfresh a Ha Heq).
    + destruct (Hfresh b Hb (eq_sym Heq)).
    + reflexivity.
  - apply Forall_app. split.
    + eapply Forall_impl; [|exact Hall]. simpl. intros a Ha. lia.
    + constructor; [rewrite Hm; lia | constructor].
Qed.

Lemma last_In {A} (l : list A) (d : A) : l <> [] -> In (last l d) l.
Proof.
  induction l as [|a [|b l] IH]; intros H; [congruence | simpl; auto |].
  right. apply IH. discriminate.
Qed.

Lemma tools_distinct_reset n s l :
  is_tool s = false -> starts_with s l ->
  tools_distinct n l -> tools_distinct n (resetMessages l).
Proof.
  intros Hs [rest ->] (Hnd & Hco & Hall). cbn [resetMessages].
  assert (Hlast : In (last (s :: rest) s) (s :: rest))
    by (apply last_In; discriminate).
  set (u := last (s :: rest) s) in *.
  split; [|split].
  - simpl. rewrite Hs. destruct (is_tool u); simpl; repeat constructor; auto.
  - intros a b [<-|[<-|[]]] [<-|[<-|[]]]; apply Hco; simpl; auto.
  - rewrite Forall_forall in *. intros a [<-|[<-|[]]]; apply Hall; simpl; auto.
Qed.

Lemma indexOf_from_first pre m post k :
  ~ In (oid m) (map oid pre) ->
  indexOf_from (pre ++ m :: post) m k = (k + Z.of_nat (length pre))%Z.
Proof.
  revert k. induction pre as [|a pre IH]; intros k Hnotin; simpl.
  - rewrite Nat.eqb_refl. lia.
  - destruct (Nat.eqb (oid a) (oid m)) eqn:Heq.
    + apply Nat.eqb_eq in Heq. exfalso. apply Hnotin. simpl. auto.
    + rewrite IH by (intros H; apply Hnotin; simpl; auto). lia.
Qed.

Lemma tools_distinct_no_earlier n pre m post :
  tools_distinct n (pre ++ m :: post) -> is_tool m = true ->
  ~ In (oid m) (map oid pre).
Proof.
  intros (Hnd & Hco & _) Hm Hin.
  apply in_map_iff in Hin as (m' & Hoid & Hin).
  assert (Heq : m' = m).
  { apply Hco; [apply in_or_app; now left | | exact Hoid].
    apply in_or_app. right. simpl. auto. }
  subst m'.
  rewrite filter_app, map_app in Hnd. simpl in Hnd. rewrite Hm in Hnd.
  simpl in Hnd. apply NoDup_remove_2 in Hnd. apply Hnd.
  apply in_or_app. left. apply in_map. apply filter_In. auto.
Qed.

Lemma keepMessage_at n log i m :
  tools_distinct n log -> nth_error log i = Some m ->
  keepMessage log m = negb (orphanedb log i).
Proof.
  intros Htd Hm. unfold keepMessage, orphanedb. rewrite Hm.
  destruct (is_tool m) eqn:Ht; simpl; auto.
  assert (Hi : i < length log) by (apply nth_error_Some; congruence).
  destruct (nth_error_split log i Hm) as (pre & post & Hlog & Hlen).
  assert (Hidx : Z.to_nat (indexOf log m) = i).
  { unfold indexOf. rewrite Hlog at 1.
    rewrite indexOf_from_first; [lia|].
    apply (tools_distinct_no_earlier n pre m post); [now rewrite <- Hlog | exact Ht]. }
  rewrite Hidx, hasPrecedingToolCall_eq, foundToolCall_scan by lia.
  unfold scan, window. now rewrite negb_involutive.
Qed.

(** Also on a log in which the first message occurs twice, the clean-up
    removes the orphaned tool results, and what it returns passes
    [validateMessages]. *)
Lemma repairMessages_passes n l :
  tools_distinct n l -> validateMessages (repairMessages l) = true.
Proof.
  intros Htd. unfold repairMessages.
  destruct (validateMessages l) eqn:Hv; [exact Hv|].
  assert (Heq : filter (keepMessage l) l = without_orphans l).
  { unfold without_orphans. apply filter_by_position with (k := 0).
    intros i m Hm. simpl. now apply (keepMessage_at n). }
  rewrite Heq, without_orphans_sweep, validateMessages_valid_from.
  now apply valid_from_sweep.
Qed.

(** What every state of the agent satisfies, and every request waiting for
    its answer. *)
Definition state_ok (s : Message) (st : State) : Prop :=
  starts_with s (messages st) /\
  tools_distinct (next_oid st) (messages st) /\
  (0 <= lastProcessedTime st)%Z /\
  requests_well_formed s (trace st).

Definition suspended_ok (s : Message) (c : Suspended) : Prop :=
  match c with
  | AwaitingCompletion _ sent => well_formed_request s sent
  | _ => True
  end.

Definition loop_ok (s : Message) (l : Loop) : Prop :=
  state_ok s (agentState l) /\ Forall (suspended_ok s) (inFlight l).

(** A callback that ran on from a state with cursor [t0]. *)
Definition ran_ok (s : Message) (t0 : Z) (c : State * option Suspended) : Prop :=
  state_ok s (fst c) /\
  (forall next, snd c = Some next -> suspended_ok s next) /\
  (t0 <= lastProcessedTime (fst c))%Z.

Section Preservation.
Variable s : Message.
Hypothesis s_not_tool : is_tool s = false.

Lemma ended_ok t0 st :
  state_ok s st -> (t0 <= lastProcessedTime st)%Z -> ran_ok s t0 (st, None).
Proof. intros H Ht. split; [exact H|]. split; [discriminate | exact Ht]. Qed.

Lemma issueRequest_ok round t0 st :
  state_ok s st -> (t0 <= lastProcessedTime st)%Z ->
  ran_ok s t0 (issueRequest round st).
Proof.
  intros (Hst & Htd & Hpos & Hreq) Ht. unfold issueRequest.
  split; [|split]; cbn [fst snd].
  - split; [|split; [|split]]; cbn [messages withMessages next_oid
                                     lastProcessedTime trace]; auto.
    + now apply starts_with_repair.
    + now apply tools_distinct_repair.
  - intros next Hnext. inversion Hnext; subst next. cbn [suspended_ok].
    split; cbn [messages withMessages].
    + now apply starts_with_repair.
    + now apply (repairMessages_passes (next_oid st)).
  - exact Ht.
Qed.

Lemma pushed_ok mk st :
  (forall o, oid (mk o) = o) -> state_ok s st -> state_ok s (pushed mk st).
Proof.
  intros Hmk (Hst & Htd & Hpos & Hreq).
  split; [|split; [|split]]; cbn [messages pushed next_oid lastProcessedTime
                                   trace]; auto.
  - now apply starts_with_app.
  - now apply tools_distinct_snoc.
Qed.

Lemma toolAnswered_ok toolCall w outcome st :
  state_ok s st -> state_ok s (toolAnswered toolCall w outcome st).
Proof.
  intros (Hst & Htd & Hpos & Hreq).
  split; [|split; [|split]]; cbn [messages toolAnswered next_oid
                                   lastProcessedTime trace]; auto.
  - now apply starts_with_app.
  - now apply tools_distinct_snoc.
  - intros sent reply Hin. apply in_app_or in Hin as [Hin|[Hin|[]]];
      [eauto | discriminate].
Qed.

Lemma startTools_ok round calls t0 :
  forall st,
    state_ok s st -> (t0 <= lastProcessedTime st)%Z ->
    ran_ok s t0 (startTools round calls st).
Proof.
  induction calls as [|toolCall rest IH]; intros st Hok Ht; cbn [startTools].
  - destruct round; [now apply issueRequest_ok | now apply ended_ok].
  - destruct (JSON_parse (function_arguments toolCall)) as [e|arguments].
    + apply IH; [now apply toolAnswered_ok | exact Ht].
    + split; [exact Hok|]. split; [|exact Ht].
      intros next Hnext. inversion Hnext. exact I.
Qed.

Lemma modelAnswered_ok sent w reply st :
  well_formed_request s sent -> state_ok s st ->
  state_ok s (modelAnswered sent w reply st).
Proof.
  intros Hsent (Hst & Htd & Hpos & Hreq).
  split; [|split; [|split]]; cbn [messages modelAnswered next_oid
                                   lastProcessedTime trace]; auto.
  intros x r Hin. apply in_app_or in Hin as [Hin|[Hin|[]]]; [eauto|].
  now inversion Hin; subst.
Qed.

Lemma onError_ok round error st :
  state_ok s st -> state_ok s (onError round error st).
Proof.
  intros Hok. destruct round; [|exact Hok]. cbn [onError].
  destruct (isRoleSequenceError error); [|exact Hok].
  destruct Hok as (Hst & Htd & Hpos & Hreq).
  split; [|split; [|split]]; cbn [messages withMessages next_oid
                                   lastProcessedTime trace]; auto.
  - now apply starts_with_reset.
  - now apply (tools_distinct_reset _ s).
Qed.

Lemma onError_cursor round error st :
  lastProcessedTime (onError round error st) = lastProcessedTime st.
Proof.
  destruct round; [|reflexivity]. cbn [onError].
  now destruct (isRoleSequenceError error).
Qed.

Lemma startCycle_ok segments st :
  state_ok s st -> ran_ok s (lastProcessedTime st) (startCycle segments st).
Proof.
  intros Hok. unfold startCycle.
  destruct (filter (isNewSegment (lastProcessedTime st)) segments)
    as [|first others] eqn:Hnew.
  { apply ended_ok; [exact Hok | lia]. }
  assert (Hf : In first (filter (isNewSegment (lastProcessedTime st)) segments))
    by (rewrite Hnew; simpl; auto).
  apply filter_In in Hf as [_ Hf]. unfold isNewSegment in Hf.
  apply andb_true_iff in Hf as [Hf _]. apply Z.ltb_lt in Hf.
  pose proof (Math_max_ge (end_ first) (map end_ others)) as Hmax.
  destruct Hok as (Hst & Htd & Hpos & Hreq).
  apply issueRequest_ok; [|cbn; lia].
  split; [|split; [|split]]; cbn [messages cycleStart withMessages pushed
                                   next_oid lastProcessedTime trace].
  - now apply starts_with_truncate, starts_with_app.
  - apply (tools_distinct_truncate _ s); [exact s_not_tool | |].
    + now apply starts_with_app.
    + now apply tools_distinct_snoc.
  - lia.
  - exact Hreq.
Qed.

Lemma withWorld_ok w st : state_ok s st -> state_ok s (withWorld w st).
Proof. intros H. exact H. Qed.

(** Whatever promise settles, and whatever the answer is, the callback
    leaves the agent in order and does not move the cursor back. *)
Lemma resume_ok c st :
  state_ok s st -> suspended_ok s c ->
  ran_ok s (lastProcessedTime st) (resume c st).
Proof.
  intros Hok Hc. destruct c as [|round sent|round toolCall arguments rest];
    cbn [resume].
  - destruct (readResource (world st) "transcript://live") as [w [e|resource]].
    { apply ended_ok; [exact Hok | cbn; lia]. }
    assert (Hend : ran_ok s (lastProcessedTime st) (withWorld w st, None))
      by (apply ended_ok; [exact Hok | cbn; lia]).
    destruct (contents resource) as [[|content more]|]; try exact Hend.
    destruct (resource_text content) as [text|]; [|exact Hend].
    destruct (parseTranscript text) as [e|[segments|]]; try exact Hend.
    exact (startCycle_ok segments (withWorld w st) Hok).
  - destruct (chat_completions_create (world st) sent) as [w reply].
    pose proof (modelAnswered_ok sent w reply st Hc Hok) as Hok1.
    destruct reply as [error|[|message more]].
    + apply ended_ok; [now apply onError_ok|].
      rewrite onError_cursor. cbn. lia.
    + cbn [firstChoice throw]. apply ended_ok; [now apply onError_ok|].
      rewrite onError_cursor. cbn. lia.
    + cbn [firstChoice ret].
      assert (Hok2 : state_ok s (pushed (assistantMessage message)
                                    (modelAnswered sent w (inr (message :: more)) st)))
        by (apply pushed_ok; [reflexivity | exact Hok1]).
      destruct (message_tool_calls message) as [calls|].
      * apply startTools_ok; [exact Hok2 | cbn; lia].
      * apply ended_ok; [exact Hok2 | cbn; lia].
  - destruct (mcp_callTool (world st) (function_name toolCall) arguments)
      as [w outcome].
    apply startTools_ok; [now apply toolAnswered_ok | cbn; lia].
Qed.

Lemma turn_ok l t :
  loop_ok s l ->
  loop_ok s (turn l t) /\
  (lastProcessedTime (agentState l) <=
   lastProcessedTime (agentState (turn l t)))%Z.
Proof.
  intros [Hst Hpool]. destruct t as [|k]; cbn [turn].
  - split; [|cbn [agentState]; lia]. split; [exact Hst|]. cbn [inFlight].
    apply Forall_app. split; [exact Hpool | repeat constructor].
  - destruct (nth_error (inFlight l) k) as [c|] eqn:Hk;
      [|split; [split; assumption | lia]].
    assert (Hc : suspended_ok s c).
    { rewrite Forall_forall in Hpool. apply Hpool.
      eapply nth_error_In; eauto. }
    destruct (resume_ok c (agentState l) Hst Hc) as (Hst' & Hnext & Hcur).
    destruct (resume c (agentState l)) as [st' next]. cbn [fst snd] in *.
    split; [|exact Hcur]. split; [exact Hst'|]. cbn [inFlight].
    apply Forall_app. split.
    + rewrite <- (firstn_skipn k (inFlight l)) in Hpool.
      now apply Forall_app in Hpool.
    + apply Forall_app. split.
      * destruct next as [c'|]; [|constructor].
        repeat constructor. now apply Hnext.
      * rewrite <- (firstn_skipn (Datatypes.S k) (inFlight l)) in Hpool.
        now apply Forall_app in Hpool.
Qed.

Lemma runLoop_ok turns :
  forall l,
    loop_ok s l ->
    loop_ok s (runLoop turns l) /\
    (lastProcessedTime (agentState l) <=
     lastProcessedTime (agentState (runLoop turns l)))%Z.
Proof.
  induction turns as [|t turns IH]; intros l Hok; [split; [exact Hok | cbn; lia]|].
  cbn [runLoop fold_left]. fold (runLoop turns (turn l t)).
  destruct (turn_ok l t Hok) as [Hok1 Hc1].
  destruct (IH (turn l t) Hok1) as [Hok2 Hc2].
  split; [exact Hok2 | lia].
Qed.

End Preservation.

(** X11.  Once the agent is constructed, however the polling callbacks
    take turns -- ticks that start new callbacks while others still wait
    for the model or a tool included -- and whatever the server, the model
    and the tools answer: the log still starts with the system message of
    the constructor; the cursor is not before 0 and is never moved back;
    and every log that was sent to the model, or is waiting at the model
    now, started with the system message and passed [validateMessages].
    No orphaned tool result is ever sent, although the log itself can hold
    one between two requests. *)
Theorem constructed_agent_sends_only_valid_logs
  (OPENAI_API_KEY : option string) (agentName : string) (w : World)
  (st0 : State) (turns more : list Turn) :
  construct OPENAI_API_KEY agentName w = inr st0 ->
  let l := runLoop turns {| agentState := st0; inFlight := [] |} in
  starts_with (systemMessage agentName) (messages (agentState l)) /\
  (0 <= lastProcessedTime (agentState l)
     <= lastProcessedTime (agentState (runLoop more l)))%Z /\
  (forall sent reply,
      In (ModelCall sent reply) (trace (agentState l)) ->
      starts_with (systemMessage agentName) sent /\
      validateMessages sent = true) /\
  (forall round sent,
      In (AwaitingCompletion round sent) (inFlight l) ->
      starts_with (systemMessage agentName) sent /\
      validateMessages sent = true).
Proof.
  intros Hc l.
  assert (Hs : is_tool (systemMessage agentName) = false) by reflexivity.
  assert (H0 : loop_ok (systemMessage agentName)
                 {| agentState := st0; inFlight := [] |}).
  { unfold construct in Hc.
    destruct OPENAI_API_KEY as [[|c key]|]; try discriminate.
    inversion Hc; subst st0. split; [|constructor].
    split; [now exists []|]. split; [|split; [cbn; lia | intros ? ? []]].
    split; [constructor|]. split.
    - intros m m' [<-|[]] [<-|[]] _. reflexivity.
    - repeat constructor. }
  destruct (runLoop_ok (systemMessage agentName) Hs turns _ H0) as [Hok _].
  fold l in Hok.
  destruct (runLoop_ok (systemMessage agentName) Hs more l Hok) as [_ Hcur].
  destruct Hok as ((Hst & _ & Hpos & Hreq) & Hpool).
  split; [exact Hst|]. split; [split; [exact Hpos | exact Hcur]|].
  split; [exact Hreq|].
  intros round sent Hin. rewrite Forall_forall in Hpool.
  exact (Hpool _ Hin).
Qed.

(** X6.  When the chat completion awaited by a callback fails, the
    callback ends there, and the log is reset exactly when the request was
    the initial one of its cycle and the thrown value is an [Error] whose
    message holds the text ["messages with role 'tool'"] somewhere: then
    the log becomes its first message followed by its last one, as the log
    is at that moment; in every other case -- a failed follow-up request,
    a value that is not an [Error], a message without that text -- the log
    is left as it is. *)
Theorem completion_error_resets_exactly_on_role_sequence_error
  (round : Round) (sent : list Message) (st : State) (w : World)
  (error : Exception) (first : Message) (others : list Message) :
  chat_completions_create (world st) sent = (w, inl error) ->
  messages st = first :: others ->
  let indicated :=
    instanceof_Error error = true /\
    exists before rest,
      error_message error =
      Some (before ++ "messages with role 'tool'" ++ rest)%string in
  snd (resume (AwaitingCompletion round sent) st) = None /\
  (round = Initial /\ indicated ->
   messages (fst (resume (AwaitingCompletion round sent) st)) =
     [first; last others first]) /\
  (~ (round = Initial /\ indicated) ->
   messages (fst (resume (AwaitingCompletion round sent) st)) = messages st).
Proof.
  intros Hreply Hlog indicated. cbn [resume]. rewrite Hreply. cbn [fst snd].
  assert (Hguard : isRoleSequenceError error = true <-> indicated).
  { unfold isRoleSequenceError, indicated. rewrite andb_true_iff.
    destruct (error_message error) as [msg|].
    - rewrite Predicates.includes_iff. split.
      + intros (Hi & before & rest & ->). split; [exact Hi|].
        exists before, rest. reflexivity.
      + intros (Hi & before & rest & H). inversion H. split; [exact Hi|].
        exists before, rest. reflexivity.
    - split; [intros [_ H]; discriminate|].
      intros (_ & ? & ? & H). discriminate. }
  split; [reflexivity|]. split.
  - intros [-> Hind]. cbn [onError]. apply Hguard in Hind. rewrite Hind.
    cbn [messages withMessages modelAnswered]. rewrite Hlog.
    cbn [resetMessages]. f_equal. f_equal.
    destruct others; [reflexivity | apply Cursor.last_cons].
  - intros Hnot. destruct round; [|reflexivity]. cbn [onError].
    destruct (isRoleSequenceError error) eqn:Hg; [|reflexivity].
    exfalso. apply Hnot. split; [reflexivity | now apply Hguard].
Qed.

End LoopFacts.

End EventLoopFacts.

(** ** A concrete server for the scripted outside *)

Module Scenario.
Import Agent Store Driver Lifecycle EventLoop.

(** Every read returns one text entry; the transcript parsed from it holds
    the single segment [hello]; subscribing succeeds. *)
Definition helloServer : @Server scripted :=
  @Build_Server scripted
    (fun w _ =>
       (w, inr {| contents := Some [{| resource_text := Some "{}"%string |}] |}))
    (fun _ => inr (Some [hello]))
    (fun w _ => (w, inr tt))
    (fun meetingUrl participantName =>
       (meetingUrl ++ " " ++ participantName)%string)
    (fun text => text)
    "{}"%string.

Definition noon_script : list (Exception + list ChatMessage) :=
  [inr [requests call_t1]; inr [says "It is noon"]].

(** The agent of the specification's scenario with no callback in
    flight. *)
Definition idle : @Loop scripted :=
  @Build_Loop scripted (fresh noon_script) [].

(** X1 on the scenario of the specification: the callback of one tick
    settles four times (transcript, first reply, tool, second reply) and
    has then ended. *)
Lemma lone_callback_keeps_log_well_sequenced_witness :
  StoreSpec.well_sequenced (messages (agentState idle)) = true /\
  inFlight (@alone scripted helloServer 4 idle) = inFlight idle /\
  messages (agentState (@alone scripted helloServer 4 idle)) =
    [ sys0; helloTurn;
      assistantMessage (requests call_t1) 2; toolMessage "t1" "12:00" 3;
      assistantMessage (says "It is noon") 4 ] /\
  (StoreSpec.well_sequenced
     (messages (agentState (@alone scripted helloServer 4 idle))) = true /\
   validateMessages
     (messages (agentState (@alone scripted helloServer 4 idle))) = true).
Proof.
  split; [reflexivity|]. split; [reflexivity|]. split; [reflexivity|].
  exact (@EventLoopFacts.lone_callback_keeps_log_well_sequenced scripted
           helloServer idle 4 eq_refl eq_refl).
Defined.

(** X8 on the same run. *)
Lemma lone_callback_sends_every_result_witness :
  trace (agentState (@alone scripted helloServer 4 idle)) =
    trace (agentState idle) ++ Requests.noon_events /\
  exists sent1 m rest calls executed results o sent2 reply2 later w w',
    Requests.noon_events =
      @ModelCall scripted sent1 (inr (m :: rest)) :: executed ++
      @ModelCall scripted sent2 reply2 :: later /\
    message_tool_calls m = Some calls /\
    @DriverSpec.Attempts scripted w calls executed w' /\
    Forall2 DriverSpec.answers executed results /\
    sent2 = sent1 ++ assistantMessage m o :: results.
Proof.
  split; [reflexivity|].
  exact (@EventLoopFacts.lone_callback_sends_every_result scripted
           helloServer idle 4 Requests.noon_events
           eq_refl eq_refl eq_refl eq_refl).
Defined.

(** *** Two callbacks that take turns *)

Definition later : TranscriptSegment :=
  {| text := "are you there"; start := 6; end_ := 9;
     speaker := Some "Bob"%string |}.

Definition requestsBoth : ChatMessage :=
  {| message_content := None; message_tool_calls := Some [call_t1; call_t2] |}.

Definition busy_script : list (Exception + list ChatMessage) :=
  [inr [requestsBoth]; inr [says "Hi Bob"]; inr [says "It is noon"]].

(** The transcript holds [hello]; once the model has answered a request it
    also holds [later]. *)
Definition growingServer : @Server scripted :=
  @Build_Server scripted
    (fun (w : list (Exception + list ChatMessage)) _ =>
       (w, inr {| contents :=
                    Some [{| resource_text :=
                               Some (if Nat.leb 3 (length w)
                                     then "1"%string else "2"%string)
                          |}] |}))
    (fun text =>
       inr (Some (if String.eqb text "1" then [hello] else [hello; later])))
    (fun w _ => (w, inr tt))
    (fun meetingUrl participantName =>
       (meetingUrl ++ " " ++ participantName)%string)
    (fun text => text)
    "{}"%string.

Definition busy : @Loop scripted :=
  @Build_Loop scripted (fresh busy_script) [].

(** The first callback reads the transcript, gets a reply that requests
    two tools and waits for the first; a second callback starts, reads the
    longer transcript and sends its request; then the first tool
    answers. *)
Definition overlap : list Turn :=
  [Tick; Settle 0; Settle 0; Tick; Settle 1; Settle 0].

Definition laterTurn : Message := userMessage "Bob: are you there" 3.

(** With two callbacks taking turns, the tool result of the first lands
    behind the user turn of the second: the log does not pass
    [validateMessages] while the first callback waits for its second tool;
    when that one has answered, the clean-up of the follow-up request
    removes both results, and the model is sent the assistant turn with
    its two requests and neither result. *)
Example overlapping_callbacks_orphan_a_result :
  let l := @runLoop scripted growingServer overlap busy in
  let l' := @turn scripted growingServer l (Settle 0) in
  map role (messages (agentState l)) =
    [system; user; assistant; user; tool] /\
  validateMessages (messages (agentState l)) = false /\
  StoreSpec.well_sequenced (messages (agentState l)) = false /\
  messages (agentState l') =
    [sys0; helloTurn; assistantMessage requestsBoth 2; laterTurn] /\
  inFlight l' =
    [ @AwaitingCompletion scripted FollowUp
        [sys0; helloTurn; assistantMessage requestsBoth 2; laterTurn];
      @AwaitingCompletion scripted Initial
        [sys0; helloTurn; assistantMessage requestsBoth 2; laterTurn] ].
Proof. repeat split. Qed.

Definition nova (script : list (Exception + list ChatMessage))
  : @State scripted :=
  @Build_State scripted 0 [systemMessage "Nova"] 1 script [].

(** X11 on an agent named Nova whose callbacks take turns as in [overlap]:
    the log does not pass [validateMessages], the two requests sent so far
    do. *)
Lemma constructed_agent_sends_only_valid_logs_witness :
  let l := @runLoop scripted growingServer overlap
             (@Build_Loop scripted (nova busy_script) []) in
  @construct scripted (Some "sk-test"%string) "Nova" busy_script =
    inr (nova busy_script) /\
  validateMessages (messages (agentState l)) = false /\
  length (DriverSpec.modelCalls (trace (agentState l))) = 1 /\
  length (inFlight l) = 2 /\
  (forall sent reply,
      In (@ModelCall scripted sent reply) (trace (agentState l)) ->
      AgentRun.starts_with (systemMessage "Nova") sent /\
      validateMessages sent = true) /\
  (forall round sent,
      In (@AwaitingCompletion scripted round sent) (inFlight l) ->
      AgentRun.starts_with (systemMessage "Nova") sent /\
      validateMessages sent = true).
Proof.
  cbv zeta.
  split; [reflexivity|]. split; [reflexivity|]. split; [reflexivity|].
  split; [reflexivity|].
  exact (proj2 (proj2
           (@EventLoopFacts.constructed_agent_sends_only_valid_logs scripted
              growingServer (Some "sk-test"%string) "Nova" busy_script
              (nova busy_script) overlap [] eq_refl))).
Defined.

(** A log of four turns whose request is rejected by the model. *)
Definition rejected_state : @State scripted :=
  @Build_State scripted 9
    [sys0; helloTurn; assistantMessage (says "Hello Alice") 2; laterTurn]
    4 [inl roleSequenceError] [].

(** X6 on an initial request and on a follow-up request that are rejected
    with the same error: the first resets the log to its first and last
    turn, the second leaves it alone. *)
Lemma completion_error_resets_exactly_on_role_sequence_error_witness :
  @chat_completions_create scripted (world rejected_state)
    (messages rejected_state) = ([], inl roleSequenceError) /\
  messages (fst (@resume scripted helloServer
                   (AwaitingCompletion Initial (messages rejected_state))
                   rejected_state)) = [sys0; laterTurn] /\
  messages (fst (@resume scripted helloServer
                   (AwaitingCompletion FollowUp (messages rejected_state))
                   rejected_state)) = messages rejected_state.
Proof.
  split; [reflexivity|]. split.
  - destruct (@EventLoopFacts.completion_error_resets_exactly_on_role_sequence_error
                scripted helloServer Initial (messages rejected_state)
                rejected_state [] roleSequenceError sys0
                [helloTurn; assistantMessage (says "Hello Alice") 2; laterTurn]
                eq_refl eq_refl) as (_ & Hreset & _).
    apply Hreset. split; [reflexivity|]. split; [reflexivity|].
    exists "400 Invalid parameter: "%string,
      " must be a response to a preceeding message with 'tool_calls'."%string.
    reflexivity.
  - destruct (@EventLoopFacts.completion_error_resets_exactly_on_role_sequence_error
                scripted helloServer FollowUp (messages rejected_state)
                rejected_state [] roleSequenceError sys0
                [helloTurn; assistantMessage (says "Hello Alice") 2; laterTurn]
                eq_refl eq_refl) as (_ & _ & Hkept).
    apply Hkept. intros [H _]. discriminate H.
Defined.

(** The agent of the scenario while it polls. *)
Definition polling : @Process scripted :=
  @Build_Process scripted (fresh noon_script) (Some 0) 1 [] None.

(** X9 with a connection that calls back into [cleanup] while it closes:
    the interval is cleared once, before the closing, and the handler
    reaches [process.exit(0)]. *)
Lemma onSIGINT_stops_at_first_failure_witness :
  let closing := @cleanup scripted (fun q => (q, inr tt)) in
  succeeded (snd (@leaveMeeting scripted helloServer polling)) = true /\
  steps (fst (@onSIGINT scripted helloServer closing polling)) =
    [ Called "speak_text" true; Called "leave_meeting" true;
      IntervalCleared; Exited 0 ] /\
  exists entered,
    steps entered =
      steps polling ++
      [Called "speak_text" true; Called "leave_meeting" true] ++
      LifecycleFacts.cleared polling /\
    pollingInterval entered = None /\
    stopPolling entered = (entered, inr tt) /\
    exited entered = exited polling /\
    @onSIGINT scripted helloServer closing polling =
      match closing entered with
      | (closed, inr _) => exit 0 closed
      | (closed, inl e) => (closed, inl e)
      end.
Proof.
  cbv zeta. split; [reflexivity|]. split; [reflexivity|].
  exact (proj2 (@LifecycleFacts.onSIGINT_stops_at_first_failure scripted
                  helloServer (@cleanup scripted (fun q => (q, inr tt)))
                  polling) eq_refl).
Defined.

End Scenario.

(** ** The debounced client over any sequence of events *)

Module ClientFacts.
Import Client DebounceSpec CursorSpec Debounce.

(** The first statement of the client's [SIGINT] handler:
    [if (debounceTimer) { clearTimeout(debounceTimer) }]. *)
Definition onShutdown (st : State) : State :=
  match debounceTimer st with
  | Some h => clearTimeout h st
  | None => st
  end.

(** The texts of the replies among the events, in order. *)
Fixpoint replies (events : list (Z * Event)) : list string :=
  match events with
  | [] => []
  | (_, GenerateTextResolved text) :: later => text :: replies later
  | _ :: later => replies later
  end.


Section ClientRun.
Variable DEBOUNCE_DELAY : Z.

#[local] Abbreviation onSegments := (Client.onSegments DEBOUNCE_DELAY).
#[local] Abbreviation handleEvent := (Client.handleEvent DEBOUNCE_DELAY).
#[local] Abbreviation step := (Client.step DEBOUNCE_DELAY).
#[local] Abbreviation run := (Client.run DEBOUNCE_DELAY).

(** *** At most one timer *)

(** No timer is pending, or exactly one is and [debounceTimer] holds its
    handle. *)
Definition one_pending (st : State) : Prop :=
  timers st = [] \/
  exists h d, timers st = [{| handle := h; due := d |}] /\
              debounceTimer st = Some h.

Lemma one_pending_fireDue now st : one_pending st -> one_pending (fireDue now st).
Proof.
  intros [Hnone|(h & d & Ht & Hd)]; unfold one_pending, fireDue; simpl.
  - left. now rewrite Hnone.
  - rewrite Ht. simpl. destruct (isDue now {| handle := h; due := d |});
      simpl; [now left|]. right. eauto.
Qed.

Lemma one_pending_handleEvent now e st :
  one_pending st -> one_pending (handleEvent now e st).
Proof.
  intros Hone. destruct e as [segments| |text|]; simpl; auto.
  destruct (lastSegmentCount st <? length segments) eqn:Hlt.
  - destruct (onSegments_arrival DEBOUNCE_DELAY now segments st Hlt)
      as (Ht & Hd & _).
    right. exists (next_handle st), (now + DEBOUNCE_DELAY)%Z.
    split; [|exact Hd]. rewrite Ht.
    destruct Hone as [Hnone|(h & d & Htm & Hdeb)].
    + rewrite Hnone. now destruct (debounceTimer st).
    + rewrite Hdeb, Htm. simpl. now rewrite Nat.eqb_refl.
  - now rewrite (onSegments_no_arrival DEBOUNCE_DELAY now segments st Hlt).
Qed.

Lemma one_pending_run events :
  forall st, one_pending st -> one_pending (run events st).
Proof.
  induction events as [|[t e] events IH]; intros st Hone; [exact Hone|].
  rewrite run_cons. apply IH. unfold Client.step. simpl.
  now apply one_pending_handleEvent, one_pending_fireDue.
Qed.

(** X12.  Whatever events arrive, in whatever order and at whatever times,
    the client never has two debounce timers pending: at most one is, and
    it is the one whose handle [debounceTimer] holds. *)
Theorem at_most_one_debounce_timer (events : list (Z * Event)) :
  length (timers (run events initial)) <= 1 /\
  forall tm, In tm (timers (run events initial)) ->
             debounceTimer (run events initial) = Some (handle tm).
Proof.
  destruct (one_pending_run events initial (or_introl eq_refl))
    as [Hnone|(h & d & Ht & Hd)].
  - rewrite Hnone. split; [simpl; lia | intros tm []].
  - rewrite Ht. split; [simpl; lia|].
    intros tm [<-|[]]. exact Hd.
Qed.

(** X13.  After any events, the first statement of the [SIGINT] handler
    leaves no timer pending, so however long the rest of the shutdown
    takes no model cycle is started by a timer set before it. *)
Theorem shutdown_cancels_the_pending_cycle
  (events : list (Z * Event)) (T : Z) :
  timers (onShutdown (run events initial)) = [] /\
  cycles (fireDue T (onShutdown (run events initial))) =
    cycles (run events initial).
Proof.
  assert (Hnone : timers (onShutdown (run events initial)) = []).
  { unfold onShutdown.
    destruct (one_pending_run events initial (or_introl eq_refl))
      as [Hnone|(h & d & Ht & Hd)].
    - destruct (debounceTimer (run events initial)); simpl; now rewrite Hnone.
    - rewrite Hd. simpl. rewrite Ht. simpl. now rewrite Nat.eqb_refl. }
  split; [exact Hnone|].
  destruct (fireDue_fields_idle T _ Hnone) as [_ ->].
  unfold onShutdown. now destruct (debounceTimer (run events initial)).
Qed.

(** *** Where cycles come from *)

(** Every pending timer and every started cycle goes back to one of the
    arrivals [arrived], [DEBOUNCE_DELAY] after it, and there are no more of
    them than arrivals. *)
Definition armed_by (arrived : list Z) (st : State) : Prop :=
  (forall tm, In tm (timers st) ->
              exists a, In a arrived /\ due tm = (a + DEBOUNCE_DELAY)%Z) /\
  (forall c, In c (cycles st) ->
             exists a, In a arrived /\ fired_at c = (a + DEBOUNCE_DELAY)%Z) /\
  length (cycles st) + length (timers st) <= length arrived.

Lemma filter_split_length {A} (f : A -> bool) (l : list A) :
  length (filter f l) + length (filter (fun x => negb (f x)) l) = length l.
Proof.
  induction l as [|a l IH]; simpl; [reflexivity|].
  destruct (f a); simpl; lia.
Qed.

Lemma armed_by_fireDue arrived now st :
  armed_by arrived st -> armed_by arrived (fireDue now st).
Proof.
  intros (Ht & Hc & Hn). unfold armed_by, fireDue. simpl.
  split; [|split].
  - intros tm Hin. apply filter_In in Hin as [Hin _]. auto.
  - intros c Hin. apply in_app_or in Hin as [Hin|Hin]; [auto|].
    apply in_map_iff in Hin as (tm & <- & Hin).
    apply filter_In in Hin as [Hin _]. simpl. auto.
  - rewrite length_app, length_map.
    pose proof (filter_split_length (isDue now) (timers st)). lia.
Qed.

Lemma filter_length_le {A} (f : A -> bool) (l : list A) :
  length (filter f l) <= length l.
Proof. induction l as [|a l IH]; simpl; [lia|]. destruct (f a); simpl; lia. Qed.

Lemma armed_by_handleEvent arrived now e st :
  armed_by arrived st ->
  armed_by (arrived ++ arrivalTimes (lastSegmentCount st) [(now, e)])
           (handleEvent now e st).
Proof.
  intros (Ht & Hc & Hn).
  destruct (arrivalTimes_one (lastSegmentCount st) now e)
    as [Hq|(segments & -> & Hgrow & Hone)].
  - rewrite Hq, app_nil_r.
    destruct (handleEvent_quiet DEBOUNCE_DELAY now e st Hq)
      as (Ht2 & _ & _ & Hc2 & _).
    unfold armed_by. rewrite Ht2, Hc2. auto.
  - rewrite Hone. simpl handleEvent.
    destruct (onSegments_arrival DEBOUNCE_DELAY now segments st Hgrow)
      as (Ht2 & _ & _ & Hc2).
    unfold armed_by. rewrite Ht2, Hc2. split; [|split].
    + intros tm Hin. apply in_app_or in Hin as [Hin|[<-|[]]].
      * assert (Hold : In tm (timers st)).
        { destruct (debounceTimer st); [|exact Hin].
          apply filter_In in Hin. tauto. }
        destruct (Ht tm Hold) as (a & Ha & Hd). exists a.
        split; [apply in_or_app; now left | exact Hd].
      * exists now. split; [apply in_or_app; right; simpl; auto | reflexivity].
    + intros c Hin. destruct (Hc c Hin) as (a & Ha & Hd). exists a.
      split; [apply in_or_app; now left | exact Hd].
    + rewrite !length_app. simpl.
      assert (Hle : length (match debounceTimer st with
                            | Some h =>
                                filter (fun tm => negb (Nat.eqb (handle tm) h))
                                       (timers st)
                            | None => timers st
                            end) <= length (timers st)).
      { destruct (debounceTimer st); [apply filter_length_le | lia]. }
      lia.
Qed.

Lemma armed_by_run events :
  forall arrived st,
    armed_by arrived st ->
    armed_by (arrived ++ arrivalTimes (lastSegmentCount st) events)
             (run events st).
Proof.
  induction events as [|[t e] events IH]; intros arrived st Harm.
  - simpl. now rewrite app_nil_r.
  - rewrite run_cons, arrivalTimes_cons, app_assoc.
    unfold Client.step. simpl fst. simpl snd.
    pose proof (armed_by_handleEvent arrived t e (fireDue t st)
                  (armed_by_fireDue arrived t st Harm)) as Hstep.
    change (lastSegmentCount (fireDue t st)) with (lastSegmentCount st) in Hstep.
    specialize (IH _ _ Hstep).
    replace (lastSegmentCount (handleEvent t e (fireDue t st)))
      with (match e with
            | ReadResolved segments =>
                if lastSegmentCount st <? length segments
                then length segments else lastSegmentCount st
            | _ => lastSegmentCount st
            end) in IH; [exact IH|].
    destruct e as [segments| |text|]; simpl; try reflexivity.
    unfold Client.onSegments. simpl.
    destruct (lastSegmentCount st <? length segments); [|reflexivity].
    now destruct (debounceTimer st).
Qed.

(** X14.  A model cycle is only ever started by the timer of an arrival of
    new segments, due [DEBOUNCE_DELAY] after that arrival: polls without
    new segments, failed reads and finished generations start none, and
    there are never more cycles than arrivals. *)
Theorem cycles_come_from_arrivals (events : list (Z * Event)) :
  (forall c, In c (cycles (run events initial)) ->
             exists a, In a (arrivalTimes 0 events) /\
                       fired_at c = (a + DEBOUNCE_DELAY)%Z) /\
  length (cycles (run events initial)) <= length (arrivalTimes 0 events).
Proof.
  assert (H0 : armed_by [] initial).
  { split; [intros tm []|]. split; [intros c []|]. simpl. lia. }
  destruct (armed_by_run events [] initial H0) as (_ & Hc & Hn).
  simpl in Hc, Hn. split; [exact Hc | lia].
Qed.

(** *** The count cursor and the message list *)





Definition isAssistantMessage (m : Message) : bool := negb (isUserMessage m).

Lemma handleEvent_messages now e st :
  exists added,
    messages (handleEvent now e st) = messages st ++ added /\
    map content (filter isAssistantMessage added) = replies [(now, e)].
Proof.
  destruct e as [segments| |text|]; simpl.
  - unfold Client.onSegments.
    destruct (lastSegmentCount st <? length segments).
    + exists (map segmentMessage (skipn (lastSegmentCount st) segments)).
      split; [now destruct (debounceTimer st)|].
      induction (skipn (lastSegmentCount st) segments); simpl; auto.
    + exists []. now rewrite app_nil_r.
  - exists []. now rewrite app_nil_r.
  - exists [{| message_role := assistant; content := text |}]. auto.
  - exists []. now rewrite app_nil_r.
Qed.

Lemma replies_cons t e later :
  replies ((t, e) :: later) = replies [(t, e)] ++ replies later.
Proof. destruct e; reflexivity. Qed.

(** X16.  The client's message list only grows: after any events it is the
    list it was followed by what was appended, nothing is removed or
    reordered (there is no truncation), and the assistant messages appended
    are exactly the replies of the generations that finished, one each, in
    order. *)
Theorem client_messages_only_grow (events : list (Z * Event)) (st : State) :
  exists added,
    messages (run events st) = messages st ++ added /\
    map content (filter isAssistantMessage added) = replies events.
Proof.
  revert st. induction events as [|[t e] events IH]; intros st.
  - exists []. simpl. now rewrite app_nil_r.
  - rewrite run_cons. unfold Client.step. simpl fst. simpl snd.
    destruct (handleEvent_messages t e (fireDue t st)) as (a1 & Hm1 & Hr1).
    destruct (IH (handleEvent t e (fireDue t st))) as (a2 & Hm2 & Hr2).
    exists (a1 ++ a2). split.
    + rewrite Hm2, Hm1. simpl. now rewrite app_assoc.
    + rewrite filter_app, map_app, Hr1, Hr2. symmetry. apply replies_cons.
Qed.

End ClientRun.

End ClientFacts.
